(** * The protocol code generator ([agent/src/cli/scip-codegen/Codegen.ts])

    A shallow embedding of the generation engine: the symbol graph it reads,
    the state of a [Codegen] object, and the functions [run], [writeType],
    [writeSealedClass], [writeDataClass], [queueClassLikeType],
    [discriminatedUnion] and [queueClassLikeInfo], followed by the properties
    of the specification that concern them. *)

From Stdlib Require Import Ascii String.
From stdpp Require Import gmap strings list fin_maps pretty.

Set Warnings "-register-all".

Local Open Scope string_scope.
Local Open Scope list_scope.

(** ** Strings, the way JavaScript's [String.prototype] has them *)

Definition newline : string := String (ascii_of_nat 10) EmptyString.
Definition dquote : string := String (ascii_of_nat 34) EmptyString.

(** [s.startsWith(p)]. *)
Definition startsWith (s p : string) : bool := String.prefix p s.

(** [s.includes(p)]: [p] occurs somewhere in [s]. *)
Fixpoint includes (s p : string) : bool :=
  String.prefix p s ||
  match s with
  | EmptyString => false
  | String _ s' => includes s' p
  end.

(** [s.endsWith(p)]. *)
Definition endsWith (s p : string) : bool :=
  let n := String.length s in
  let k := String.length p in
  (k <=? n)%nat && String.eqb (String.substring (n - k) k s) p.

(** A string used as a condition: only the empty string is falsy. *)
Definition truthy (s : string) : bool := negb (String.eqb s EmptyString).

(** [xs.join(sep)]. *)
Fixpoint join (sep : string) (xs : list string) : string :=
  match xs with
  | [] => EmptyString
  | [x] => x
  | x :: rest => x +:+ sep +:+ join sep rest
  end.

(** A string of the embedding holds the bytes of the UTF-8 encoding of a
    JavaScript string, whose elements are UTF-16 code units. [utf16] gives
    back the code units: a code point below U+10000 is one code unit, a
    code point from U+10000 a pair of surrogates. A byte that is part of no
    well-formed sequence stands for a code unit of its own, in
    U+DC80..U+DCFF. *)
Definition continuation (b : N) : bool := ((128 <=? b) && (b <? 192))%N.

Definition surrogates (c : N) : list N :=
  [(55296 + (c - 65536) / 1024)%N; (56320 + (c - 65536) mod 1024)%N].

Definition stray (b : N) : N := (56320 + b)%N.

Fixpoint utf16 (s : string) : list N :=
  match s with
  | EmptyString => []
  | String a0 rest0 =>
      let b0 := N_of_ascii a0 in
      if (b0 <? 128)%N then b0 :: utf16 rest0
      else
        match rest0 with
        | String a1 rest1 =>
            let b1 := N_of_ascii a1 in
            if ((194 <=? b0) && (b0 <? 224))%N && continuation b1 then
              ((b0 - 192) * 64 + (b1 - 128))%N :: utf16 rest1
            else
              match rest1 with
              | String a2 rest2 =>
                  let b2 := N_of_ascii a2 in
                  let c3 :=
                    ((b0 - 224) * 4096 + (b1 - 128) * 64 + (b2 - 128))%N in
                  if ((224 <=? b0) && (b0 <? 240))%N
                     && continuation b1 && continuation b2
                     && (2048 <=? c3)%N
                     && negb ((55296 <=? c3) && (c3 <? 57344))%N
                  then c3 :: utf16 rest2
                  else
                    match rest2 with
                    | String a3 rest3 =>
                        let b3 := N_of_ascii a3 in
                        let c4 :=
                          ((b0 - 240) * 262144 + (b1 - 128) * 4096 +
                           (b2 - 128) * 64 + (b3 - 128))%N in
                        if ((240 <=? b0) && (b0 <? 245))%N
                           && continuation b1 && continuation b2
                           && continuation b3
                           && ((65536 <=? c4) && (c4 <? 1114112))%N
                        then surrogates c4 ++ utf16 rest3
                        else stray b0 :: utf16 rest0
                    | EmptyString => stray b0 :: utf16 rest0
                    end
              | EmptyString => stray b0 :: utf16 rest0
              end
        | EmptyString => [stray b0]
        end
  end.

(** The order of [xs.sort()], which is called without a comparator: the
    strings are compared code unit by code unit, and a string comes before
    the strings it is a proper prefix of. *)
Fixpoint code_units_leb (xs ys : list N) : bool :=
  match xs, ys with
  | [], _ => true
  | _ :: _, [] => false
  | x :: xs', y :: ys' =>
      if (x <? y)%N then true
      else if (y <? x)%N then false
      else code_units_leb xs' ys'
  end.

Definition sort_leb (x y : string) : bool :=
  code_units_leb (utf16 x) (utf16 y).

(** [xs.sort()] on strings: ascending in the order of the code units. *)
Fixpoint sort_insert (x : string) (xs : list string) : list string :=
  match xs with
  | [] => [x]
  | y :: ys => if sort_leb x y then x :: xs else y :: sort_insert x ys
  end.

Definition sort (xs : list string) : list string := foldr sort_insert [] xs.

(** ** The symbol graph ([scip.ts]) *)

Module scip.

Inductive Constant :=
| string_constant (value : string)
| boolean_constant (value : bool)
| int_constant (value : Z)
| null_constant.

(** [scip.Type]: one variant is set, or none ([no_type]). *)
Inductive Type_ :=
| type_ref (symbol : string) (type_arguments : list Type_)
| structural_type (symlinks : list string)
| intersection_type (types : list Type_)
| union_type (types : list Type_)
| constant_type (constant : Constant)
| lambda_type (parameters : list string) (return_type : Type_)
| no_type.

Definition has_type_ref (t : Type_) : bool :=
  match t with type_ref _ _ => true | _ => false end.
Definition has_structural_type (t : Type_) : bool :=
  match t with structural_type _ => true | _ => false end.
Definition has_intersection_type (t : Type_) : bool :=
  match t with intersection_type _ => true | _ => false end.
Definition has_union_type (t : Type_) : bool :=
  match t with union_type _ => true | _ => false end.
Definition has_constant_type (t : Type_) : bool :=
  match t with constant_type _ => true | _ => false end.
Definition has_lambda_type (t : Type_) : bool :=
  match t with lambda_type _ _ => true | _ => false end.

(** [scip.Signature]: the message fields [lower_bound] and [tpe] are
    [undefined] when unset. *)
Inductive Signature :=
| class_signature (symlinks : list string)
| method_signature
| type_signature (lower_bound : option Type_)
| value_signature (tpe : option Type_).

Definition has_class_signature (s : Signature) : bool :=
  match s with class_signature _ => true | _ => false end.
Definition has_type_signature (s : Signature) : bool :=
  match s with type_signature _ => true | _ => false end.
Definition has_value_signature (s : Signature) : bool :=
  match s with value_signature _ => true | _ => false end.

(** [scip.SymbolInformation.Kind]: only [Class] is ever inspected. *)
Inductive Kind := Class | OtherKind.

Record SymbolInformation := {
  symbol : string;
  display_name : string;
  kind : Kind;
  signature : option Signature
}.

Definition has_signature (i : SymbolInformation) : bool :=
  match signature i with Some _ => true | None => false end.

(** Induction on types that reaches the members of the nested lists. *)
Section Type_induction.
Variable P : Type_ -> Prop.
Hypothesis Href : forall s args, Forall P args -> P (type_ref s args).
Hypothesis Hstruct : forall ls, P (structural_type ls).
Hypothesis Hinter : forall ts, Forall P ts -> P (intersection_type ts).
Hypothesis Hunion : forall ts, Forall P ts -> P (union_type ts).
Hypothesis Hconst : forall c, P (constant_type c).
Hypothesis Hlambda : forall ps r, P r -> P (lambda_type ps r).
Hypothesis Hnone : P no_type.

Fixpoint Type_nested_ind (t : Type_) : P t :=
  let fix all (ts : list Type_) : Forall P ts :=
    match ts with
    | [] => @List.Forall_nil _ P
    | t' :: ts' => @List.Forall_cons _ P t' ts' (Type_nested_ind t') (all ts')
    end in
  match t with
  | type_ref s args => Href s args (all args)
  | structural_type ls => Hstruct ls
  | intersection_type ts => Hinter ts (all ts)
  | union_type ts => Hunion ts (all ts)
  | constant_type c => Hconst c
  | lambda_type ps r => Hlambda ps r (Type_nested_ind r)
  | no_type => Hnone
  end.
End Type_induction.

End scip.

(** ** Exceptions

    [Thrown] is a [throw new C(message)] written in [Codegen.ts]; [Runtime] is
    the [TypeError] the JavaScript runtime raises when a property of
    [undefined] is read; [Lookup] is the symbol table's failure on an unknown
    symbol; [StackOverflow] is the [RangeError] of a recursion that exceeds
    the call stack. *)

Inductive ErrorClass := TypeError | Error | RangeError | LookupError.

Inductive Exn :=
| Thrown (class : ErrorClass) (message : string)
| Runtime (property : string)
| Lookup (symbol : string)
| StackOverflow.

Definition exn_class (e : Exn) : ErrorClass :=
  match e with
  | Thrown c _ => c
  | Runtime _ => TypeError
  | Lookup _ => LookupError
  | StackOverflow => RangeError
  end.

Definition class_name (c : ErrorClass) : string :=
  match c with
  | TypeError => "TypeError"
  | Error => "Error"
  | RangeError => "RangeError"
  | LookupError => "LookupError"
  end.

Definition exn_message (e : Exn) : string :=
  match e with
  | Thrown _ m => m
  | Runtime p => "Cannot read properties of undefined (reading '" +:+ p +:+ "')"
  | Lookup s => s
  | StackOverflow => "Maximum call stack size exceeded"
  end.

(** [`${e}`]. *)
Definition exn_toString (e : Exn) : string :=
  class_name (exn_class e) +:+ ": " +:+ exn_message e.

(** Results of code that reads the symbol graph but changes nothing. *)
Definition Res (A : Type) : Type := Exn + A.

Definition res_bind {A B} (r : Res A) (k : A -> Res B) : Res B :=
  match r with
  | inl e => inl e
  | inr a => k a
  end.

(** Reading a message field that may be [undefined]. *)
Definition defined {A} (property : string) (o : option A) : Res A :=
  match o with
  | Some a => inr a
  | None => inl (Runtime property)
  end.

(** ** Values handed to the reporter and to the emitters *)

Module Severity.
Inductive t := Error | Warning.
End Severity.

(** [Diagnostic] ([Diagnostic.ts]); an absent [additionalInformation] is the
    empty list. *)
Inductive Diagnostic := mkDiagnostic {
  severity : Severity.t;
  diag_symbol : string;
  diag_message : string;
  additionalInformation : list Diagnostic
}.

Record DiscriminatedUnionMember := {
  value : string;
  member_type : scip.Type_
}.

Record DiscriminatedUnion := {
  du_symbol : string;
  discriminatorDisplayName : string;
  du_members : list DiscriminatedUnionMember
}.

Record EnumMember := {
  serializedName : string;
  enum_formattedName : string
}.

Record Enum := {
  enum_name : string;
  enum_members : list EnumMember
}.

Record Member := {
  member_info : scip.SymbolInformation;
  typeSyntax : string;
  formattedName : string;
  oneOfComment : string;
  member_isNullable : bool
}.

(** [Partial<DataClassOptions>]. *)
Record DataClassParams := {
  innerClass : option bool;
  parentClass : option string
}.

Definition no_params : DataClassParams :=
  {| innerClass := None; parentClass := None |}.

(** What an emitter is asked to print. An [Emitter] renders each request
    into the [CodePrinter] it is given; the embedding keeps the requests, in
    the order they are made. *)
Inductive Emitted :=
| NullAlias
| StartType (name : string) (info : scip.SymbolInformation)
| CloseType (name : string) (info : scip.SymbolInformation)
| TypeAlias (name alias : string) (isStringType : bool)
    (info : scip.SymbolInformation) (enum : option Enum)
| StartSealedClass (name : string) (info : scip.SymbolInformation)
    (union : DiscriminatedUnion)
| CloseSealedClass (name : string) (info : scip.SymbolInformation)
    (union : DiscriminatedUnion)
| DataClass (params : DataClassParams) (name : string)
    (info : scip.SymbolInformation) (members : list Member) (enums : list Enum)
| ProtocolInterface (name : string)
    (requests notifications : list scip.SymbolInformation)
| SerializationAdapter (discriminatedUnions : list string)
| StringLiteralConstants (constants : list string).

(** The role of a type in a JSON-RPC method: ['parameter' | 'result']. *)
Inductive Role := parameter | result.

Definition role_string (k : Role) : string :=
  match k with
  | parameter => "parameter"
  | result => "result"
  end.

(** ** The collaborators of the engine

    Their code is not part of the sources at hand; the engine is verified for
    every implementation of them. *)

(** [Formatter] ([Formatter.ts]), one per target language. Its methods are
    taken to return normally. *)
Record Formatter := {
  typeName : scip.SymbolInformation -> string;
  isIgnoredInfo : scip.SymbolInformation -> bool;
  isIgnoredType : scip.Type_ -> bool;
  jsonrpcTypeName : scip.SymbolInformation -> scip.Type_ -> Role -> string;
  jsonrpcMethodParameter : scip.SymbolInformation -> scip.Type_;
  isRecord : string -> bool;
  isNullable : scip.Type_ -> bool;
  nullableSyntax : scip.Type_ -> string;
  (** the [{ prefix, index }] entries, in order *)
  unionTypeExceptionIndex : list (string * nat);
  ignoredProperties : list string;
  formatEnumType : string -> string;
  formatFieldName : string -> string;
  discriminatedUnionTypeName :
    DiscriminatedUnion -> DiscriminatedUnionMember -> string
}.

(** [Emitter] ([emitters/Emitter.ts]): besides the rendering requests, an
    emitter has a formatter and names the files. [closeSealedClass] is an
    optional method. *)
Record Emitter := {
  formatter : Formatter;
  getFileType : string;
  getFileNameForType : string -> string;
  hasCloseSealedClass : bool
}.

(** Modelled from the spec: [SymbolTable] ([SymbolTable.ts]) is missing. The
    spec has [info(symbol)] resolve a symbol to its definition and fail with
    [LookupError] if absent: a finite map from symbols to their
    [SymbolInformation]. [canonicalSymbol] and [structuralType] are taken as
    given. *)
Record SymbolTable := {
  symbols : gmap string scip.SymbolInformation;
  canonicalSymbol : string -> string;
  structuralType : string -> list scip.SymbolInformation
}.

Definition symtab_info (symtab : SymbolTable) (symbol : string)
  : Res scip.SymbolInformation :=
  match symbols symtab !! symbol with
  | Some info => inr info
  | None => inl (Lookup symbol)
  end.

(** The helpers inherited from [BaseCodegen] ([BaseCodegen.ts]), the
    functions of [utils.ts] and [stringLiteralType.ts], and what the runtime
    provides. They are taken to be functions of their arguments that return
    normally. [typescriptKeywordSyntax] and [stringLiteralType] return a string
    or [undefined]. *)
Record Helpers := {
  infoProperties : scip.SymbolInformation -> list string;
  properties : scip.Type_ -> list string;
  isStringTypeInfo : scip.SymbolInformation -> bool;
  stringConstantsFromInfo : scip.SymbolInformation -> list string;
  compatibleSignatures :
    scip.SymbolInformation -> scip.SymbolInformation -> bool;
  debugType : scip.Type_ -> string;
  debugInfo : scip.SymbolInformation -> string;
  typescriptKeyword : string -> string;
  isTypescriptKeyword : string -> bool;
  typescriptKeywordSyntax : string -> option string;
  capitalize : string -> string;
  stringLiteralType : scip.Type_ -> option string;
  (** [JSON.stringify(info.toObject(), null, 2)] *)
  stringify : scip.SymbolInformation -> string;
  (** [error.stack] *)
  stack : Exn -> string;
  (** [path.join] *)
  path_join : string -> string -> string;
  (** how deep the recursion of [unionTypes] can go before the call stack
      is exhausted *)
  callStackDepth : nat
}.

(** [BaseCodegen.protocolSymbols]. *)
Record ProtocolSymbols := {
  client_requests : string;
  client_notifications : string;
  server_requests : string;
  server_notifications : string
}.

(** Everything a [Codegen] object is constructed from and does not change. *)
Record Env := {
  emitter : Emitter;
  symtab : SymbolTable;
  helpers : Helpers;
  (** [options.output] *)
  output : string;
  isNestedDiscriminatedUnion : bool;
  protocolSymbols : ProtocolSymbols
}.

(** ** The mutable state of a [Codegen] object

    [queue] grows at its end ([push]) and shrinks there ([pop]). [reporter]
    holds the diagnostics collected so far. [printer] is the [CodePrinter] of
    the document being written: only one document is open at a time. [files]
    lists the [writeFile] calls. [microtasks] holds the error reports of
    [writeDataClass] calls that were not awaited: their [catch] handlers run
    when the caller next yields. [writeTypeCalls] is not in the source: it
    logs the symbols [writeType] was called on. *)
Record Codegen := {
  queue : list scip.SymbolInformation;
  generatedSymbols : gset string;
  stringLiteralConstants : gset string;
  discriminatedUnions : gmap string DiscriminatedUnion;
  siblingDiscriminatedUnionProperties : gmap string (list string);
  reporter : list Diagnostic;
  printer : list Emitted;
  files : list (string * list Emitted);
  microtasks : list Diagnostic;
  writeTypeCalls : list string
}.

(** A freshly constructed [Codegen]. *)
Definition new_Codegen : Codegen :=
  {| queue := [];
     generatedSymbols := ∅;
     stringLiteralConstants := ∅;
     discriminatedUnions := ∅;
     siblingDiscriminatedUnionProperties := ∅;
     reporter := [];
     printer := [];
     files := [];
     microtasks := [];
     writeTypeCalls := [] |}.

Definition set_queue (f : list scip.SymbolInformation -> list scip.SymbolInformation)
  (st : Codegen) : Codegen :=
  {| queue := f (queue st);
     generatedSymbols := generatedSymbols st;
     stringLiteralConstants := stringLiteralConstants st;
     discriminatedUnions := discriminatedUnions st;
     siblingDiscriminatedUnionProperties := siblingDiscriminatedUnionProperties st;
     reporter := reporter st;
     printer := printer st;
     files := files st;
     microtasks := microtasks st;
     writeTypeCalls := writeTypeCalls st |}.

Definition set_generatedSymbols (f : gset string -> gset string)
  (st : Codegen) : Codegen :=
  {| queue := queue st;
     generatedSymbols := f (generatedSymbols st);
     stringLiteralConstants := stringLiteralConstants st;
     discriminatedUnions := discriminatedUnions st;
     siblingDiscriminatedUnionProperties := siblingDiscriminatedUnionProperties st;
     reporter := reporter st;
     printer := printer st;
     files := files st;
     microtasks := microtasks st;
     writeTypeCalls := writeTypeCalls st |}.

Definition set_stringLiteralConstants (f : gset string -> gset string)
  (st : Codegen) : Codegen :=
  {| queue := queue st;
     generatedSymbols := generatedSymbols st;
     stringLiteralConstants := f (stringLiteralConstants st);
     discriminatedUnions := discriminatedUnions st;
     siblingDiscriminatedUnionProperties := siblingDiscriminatedUnionProperties st;
     reporter := reporter st;
     printer := printer st;
     files := files st;
     microtasks := microtasks st;
     writeTypeCalls := writeTypeCalls st |}.

Definition set_discriminatedUnions
  (f : gmap string DiscriminatedUnion -> gmap string DiscriminatedUnion)
  (st : Codegen) : Codegen :=
  {| queue := queue st;
     generatedSymbols := generatedSymbols st;
     stringLiteralConstants := stringLiteralConstants st;
     discriminatedUnions := f (discriminatedUnions st);
     siblingDiscriminatedUnionProperties := siblingDiscriminatedUnionProperties st;
     reporter := reporter st;
     printer := printer st;
     files := files st;
     microtasks := microtasks st;
     writeTypeCalls := writeTypeCalls st |}.

Definition set_siblingDiscriminatedUnionProperties
  (f : gmap string (list string) -> gmap string (list string))
  (st : Codegen) : Codegen :=
  {| queue := queue st;
     generatedSymbols := generatedSymbols st;
     stringLiteralConstants := stringLiteralConstants st;
     discriminatedUnions := discriminatedUnions st;
     siblingDiscriminatedUnionProperties := f (siblingDiscriminatedUnionProperties st);
     reporter := reporter st;
     printer := printer st;
     files := files st;
     microtasks := microtasks st;
     writeTypeCalls := writeTypeCalls st |}.

Definition set_reporter (f : list Diagnostic -> list Diagnostic)
  (st : Codegen) : Codegen :=
  {| queue := queue st;
     generatedSymbols := generatedSymbols st;
     stringLiteralConstants := stringLiteralConstants st;
     discriminatedUnions := discriminatedUnions st;
     siblingDiscriminatedUnionProperties := siblingDiscriminatedUnionProperties st;
     reporter := f (reporter st);
     printer := printer st;
     files := files st;
     microtasks := microtasks st;
     writeTypeCalls := writeTypeCalls st |}.

Definition set_printer (f : list Emitted -> list Emitted)
  (st : Codegen) : Codegen :=
  {| queue := queue st;
     generatedSymbols := generatedSymbols st;
     stringLiteralConstants := stringLiteralConstants st;
     discriminatedUnions := discriminatedUnions st;
     siblingDiscriminatedUnionProperties := siblingDiscriminatedUnionProperties st;
     reporter := reporter st;
     printer := f (printer st);
     files := files st;
     microtasks := microtasks st;
     writeTypeCalls := writeTypeCalls st |}.

Definition set_files
  (f : list (string * list Emitted) -> list (string * list Emitted))
  (st : Codegen) : Codegen :=
  {| queue := queue st;
     generatedSymbols := generatedSymbols st;
     stringLiteralConstants := stringLiteralConstants st;
     discriminatedUnions := discriminatedUnions st;
     siblingDiscriminatedUnionProperties := siblingDiscriminatedUnionProperties st;
     reporter := reporter st;
     printer := printer st;
     files := f (files st);
     microtasks := microtasks st;
     writeTypeCalls := writeTypeCalls st |}.

Definition set_microtasks (f : list Diagnostic -> list Diagnostic)
  (st : Codegen) : Codegen :=
  {| queue := queue st;
     generatedSymbols := generatedSymbols st;
     stringLiteralConstants := stringLiteralConstants st;
     discriminatedUnions := discriminatedUnions st;
     siblingDiscriminatedUnionProperties := siblingDiscriminatedUnionProperties st;
     reporter := reporter st;
     printer := printer st;
     files := files st;
     microtasks := f (microtasks st);
     writeTypeCalls := writeTypeCalls st |}.

Definition set_writeTypeCalls (f : list string -> list string)
  (st : Codegen) : Codegen :=
  {| queue := queue st;
     generatedSymbols := generatedSymbols st;
     stringLiteralConstants := stringLiteralConstants st;
     discriminatedUnions := discriminatedUnions st;
     siblingDiscriminatedUnionProperties := siblingDiscriminatedUnionProperties st;
     reporter := reporter st;
     printer := printer st;
     files := files st;
     microtasks := microtasks st;
     writeTypeCalls := f (writeTypeCalls st) |}.

(** ** The monad of the engine's methods

    A method takes the state of the object and returns its result, or the
    exception it raised, with the state it left behind: what was changed
    before an exception stays changed. *)

Definition M (A : Type) : Type := Codegen -> Res A * Codegen.

Definition ret {A} (a : A) : M A := fun st => (inr a, st).

Definition raise {A} (e : Exn) : M A := fun st => (inl e, st).

Definition bind {A B} (m : M A) (k : A -> M B) : M B :=
  fun st =>
    match m st with
    | (inr a, st') => k a st'
    | (inl e, st') => (inl e, st')
    end.

(** [try { m } catch (e) { handler e }]. *)
Definition try_catch {A} (m : M A) (handler : Exn -> M A) : M A :=
  fun st =>
    match m st with
    | (inr a, st') => (inr a, st')
    | (inl e, st') => handler e st'
    end.

Definition lift {A} (r : Res A) : M A := fun st => (r, st).

Definition get : M Codegen := fun st => (inr st, st).

Definition modify (f : Codegen -> Codegen) : M unit := fun st => (inr tt, f st).

Declare Scope codegen_scope.
Delimit Scope codegen_scope with M.

Notation "'let*' x ':=' m 'in' k" := (bind m (fun x => k))
  (at level 10, x pattern, m at level 100, k at level 200) : codegen_scope.
Notation "m ;; k" := (bind m (fun _ => k))
  (at level 100, k at level 200, right associativity) : codegen_scope.
Notation "'let?' x ':=' r 'in' k" := (res_bind r (fun x => k))
  (at level 10, x pattern, r at level 100, k at level 200) : codegen_scope.

Local Open Scope codegen_scope.

(** [for (const x of xs) { acc = body acc x }]: a loop over an array with
    the variables it updates. *)
Fixpoint for_of {A S} (xs : list A) (body : S -> A -> M S) (acc : S) : M S :=
  match xs with
  | [] => ret acc
  | x :: rest => let* acc' := body acc x in for_of rest body acc'
  end.

(** The same for code that only reads the symbol graph. *)
Fixpoint res_for_of {A S} (xs : list A) (body : S -> A -> Res S) (acc : S)
  : Res S :=
  match xs with
  | [] => inr acc
  | x :: rest => let? acc' := body acc x in res_for_of rest body acc'
  end.

(** A JavaScript [Map] keeps its keys in the order of their first insertion. *)
Definition Map_get {V} (m : list (string * V)) (k : string) : option V :=
  snd <$> List.find (fun e => String.eqb (fst e) k) m.

Fixpoint Map_set {V} (m : list (string * V)) (k : string) (v : V)
  : list (string * V) :=
  match m with
  | [] => [(k, v)]
  | (k', v') :: m' =>
      if String.eqb k' k then (k, v) :: m' else (k', v') :: Map_set m' k v
  end.

(** [xs.pop()]: the last element and the array without it. *)
Fixpoint pop {A} (xs : list A) : option (A * list A) :=
  match xs with
  | [] => None
  | x :: rest =>
      match pop rest with
      | None => Some (x, [])
      | Some (y, rest') => Some (y, x :: rest')
      end
  end.

(** ** The reporter *)

(** Modelled from the spec: [ConsoleReporter] ([ConsoleReporter.ts]) is
    missing. The spec has it collect [Diagnostic] values of severity
    [Warning] or [Error], each against a symbol: [report] appends the
    diagnostic it is given, [warn] and [error] one of their severity. *)
Definition report (d : Diagnostic) : M unit :=
  modify (set_reporter (fun ds => ds ++ [d])).

Definition warning (symbol message : string) : Diagnostic :=
  {| severity := Severity.Warning; diag_symbol := symbol;
     diag_message := message; additionalInformation := [] |}.

Definition failure (symbol message : string) : Diagnostic :=
  {| severity := Severity.Error; diag_symbol := symbol;
     diag_message := message; additionalInformation := [] |}.

Definition warn (symbol message : string) : M unit :=
  report (warning symbol message).

Definition error (symbol message : string) : M unit :=
  report (failure symbol message).

(** ** Effects on the printer and on the output directory *)

(** [startDocument()]: a new, empty [CodePrinter]. *)
Definition startDocument : M unit := modify (set_printer (fun _ => [])).

(** A call of one of the emitter's methods on the open document. *)
Definition emit (e : Emitted) : M unit :=
  modify (set_printer (fun p => p ++ [e])).

(** [fspromises.writeFile(path, p.build())]: what was printed so far. *)
Definition writeFile (path : string) : M unit :=
  modify (fun st => set_files (fun fs => fs ++ [(path, printer st)]) st).

(** Modelled from the spec: [resetOutputPath] ([resetOutputPath.ts]) is
    missing. The spec has it reset the output directory so that no stale file
    remains. *)
Definition resetOutputPath : M unit := modify (set_files (fun _ => [])).

(** The error report of a [writeDataClass] call that nobody awaits: its
    [catch] block runs later, as a microtask. *)
Definition defer (d : Diagnostic) : M unit :=
  modify (set_microtasks (fun ds => ds ++ [d])).

(** The caller yields at an [await] on pending input or output: the queued
    microtasks run, in order. *)
Definition run_microtasks : M unit :=
  modify (fun st =>
    set_microtasks (fun _ => [])
      (set_reporter (fun ds => ds ++ microtasks st) st)).

(** A call of an async method whose promise is dropped: the caller goes on
    whether the promise is fulfilled or rejected. What the process does about
    the unhandled rejection is outside the embedding. *)
Definition not_awaited (m : M unit) : M unit :=
  fun st => (inr tt, snd (m st)).

Definition queue_push (info : scip.SymbolInformation) : M unit :=
  modify (set_queue (fun q => q ++ [info])).

(** ** The engine *)

(** An entry of the [declarations] map of [queueClassLikeInfo]. *)
Record Declaration := {
  decl_info : scip.SymbolInformation;
  decl_diagnostic : Diagnostic;
  decl_siblings : list string
}.

(** The variables of the loop of [writeDataClassUnsafe]. *)
Record DataClassLoop := {
  generatedName : gset string;
  enums : list Enum;
  members : list Member
}.

Definition incompatibleSignatures : string :=
  "Incompatible signatures. For discriminated unions, each property name must map to a unique type." +:+ newline +:+
  "For example, it's not allowed to have a property named 'result', which is a string for one type in the" +:+ newline +:+
  "discrimated union and a number for another type in the union. To fix this problem, give one of the" +:+ newline +:+
  "following properties a unique name and try running the code generator again.".

Section Engine.

Variable env : Env.

Local Abbreviation f := (formatter (emitter env)).
Local Abbreviation h := (helpers env).

(** [info.signature.value_signature.tpe]. *)
Definition value_signature_tpe (info : scip.SymbolInformation)
  : Res (option scip.Type_) :=
  let? signature := defined "value_signature" (scip.signature info) in
  match signature with
  | scip.value_signature tpe => inr tpe
  | _ => inl (Runtime "tpe")
  end.

(** The inner function [loop] of [unionTypes], with the array [result] it
    fills; [depth] is the room left on the call stack. *)
Fixpoint unionTypes_loop (depth : nat) (t : scip.Type_)
  (result : list scip.Type_) : Res (list scip.Type_) :=
  match depth with
  | O => inl StackOverflow
  | S depth' =>
      match t with
      | scip.union_type types =>
          res_for_of types (fun result unionType =>
            match unionType with
            | scip.type_ref symbol _ =>
                let? info := symtab_info (symtab env) symbol in
                let? signature :=
                  defined "has_type_signature" (scip.signature info) in
                match signature with
                | scip.type_signature lower_bound =>
                    let? lower_bound := defined "has_union_type" lower_bound in
                    if scip.has_union_type lower_bound
                    then unionTypes_loop depth' lower_bound result
                    else inr (result ++ [unionType])
                | _ => inr (result ++ [unionType])
                end
            | _ => inr (result ++ [unionType])
            end) result
      | _ => inr result
      end
  end.

Definition unionTypes (type : scip.Type_) : Res (list scip.Type_) :=
  unionTypes_loop (callStackDepth h) type [].

(** The body of the inner loop of [discriminatedUnion]: one property of one
    member of the union, and the maps [candidates] and [memberss].
    [stringLiteralType] is taken to read its argument. *)
Definition discriminatedUnion_property (unionType : scip.Type_)
  (maps : list (string * nat) * list (string * list DiscriminatedUnionMember))
  (propertySymbol : string)
  : Res (list (string * nat) * list (string * list DiscriminatedUnionMember)) :=
  let '(candidates, memberss) := maps in
  let? property := symtab_info (symtab env) propertySymbol in
  let? tpe := value_signature_tpe property in
  let? tpe := defined "has_constant_type" tpe in
  match stringLiteralType h tpe with
  | Some stringLiteral =>
      if truthy stringLiteral then
        let count :=
          default 0 (Map_get candidates (scip.display_name property)) in
        let candidates :=
          Map_set candidates (scip.display_name property) (count + 1) in
        let members :=
          default [] (Map_get memberss (scip.display_name property)) in
        let memberss :=
          Map_set memberss (scip.display_name property)
            (members ++ [{| value := stringLiteral; member_type := unionType |}]) in
        inr (candidates, memberss)
      else inr (candidates, memberss)
  | None => inr (candidates, memberss)
  end.

(** The two nested loops of [discriminatedUnion]. *)
Definition discriminatedUnion_tally (unionTypes : list scip.Type_)
  : Res (list (string * nat) * list (string * list DiscriminatedUnionMember)) :=
  res_for_of unionTypes (fun maps unionType =>
    res_for_of (properties h unionType)
      (discriminatedUnion_property unionType) maps) ([], []).

Definition discriminatedUnion (info : scip.SymbolInformation)
  : Res (option DiscriminatedUnion) :=
  let? signature := defined "has_type_signature" (scip.signature info) in
  match signature with
  | scip.type_signature lower_bound =>
      let? type := defined "has_union_type" lower_bound in
      match type with
      | scip.union_type types =>
          if (length types =? 0)%nat then inr None
          else
            let? unionTypes := unionTypes type in
            let? maps := discriminatedUnion_tally unionTypes in
            let '(candidates, memberss) := maps in
            match List.find (fun entry => (snd entry =? length unionTypes)%nat)
                    candidates with
            | Some (candidate, _) =>
                inr (Some {| du_symbol := scip.symbol info;
                             discriminatorDisplayName := candidate;
                             du_members :=
                               default [] (Map_get memberss candidate) |})
            | None => inr None
            end
      | _ => inr None
      end
  | _ => inr None
  end.

(** The loop of [queueClassLikeInfo] over the properties of a type alias:
    one property and the map [declarations]. *)
Definition queueClassLikeInfo_property (declarations : list (string * Declaration))
  (property : string) : Res (list (string * Declaration)) :=
  let? propertyInfo := symtab_info (symtab env) property in
  match Map_get declarations (scip.display_name propertyInfo) with
  | None =>
      inr (Map_set declarations (scip.display_name propertyInfo)
             {| decl_info := propertyInfo;
                decl_diagnostic :=
                  {| severity := Severity.Error;
                     diag_symbol := property;
                     diag_message := incompatibleSignatures;
                     additionalInformation := [] |};
                decl_siblings := [] |})
  | Some sibling =>
      if negb (compatibleSignatures h (decl_info sibling) propertyInfo) then
        let diagnostic := decl_diagnostic sibling in
        inr (Map_set declarations (scip.display_name propertyInfo)
               {| decl_info := decl_info sibling;
                  decl_diagnostic :=
                    {| severity := severity diagnostic;
                       diag_symbol := diag_symbol diagnostic;
                       diag_message := diag_message diagnostic;
                       additionalInformation :=
                         additionalInformation diagnostic ++
                         [failure property "conflict here"] |};
                  decl_siblings := decl_siblings sibling |})
      else
        inr (Map_set declarations (scip.display_name propertyInfo)
               {| decl_info := decl_info sibling;
                  decl_diagnostic := decl_diagnostic sibling;
                  decl_siblings := decl_siblings sibling ++ [property] |})
  end.

(** The end of [queueClassLikeInfo] for a type alias: what is done with the
    map [declarations] once it is filled. *)
Definition queueClassLikeInfo_declarations
  (jsonrpcMethod : scip.SymbolInformation)
  (declarations : list (string * Declaration)) : M unit :=
  if (0 <? length declarations)%nat then
    for_of declarations (fun _ entry =>
      let declaration := snd entry in
      modify (set_siblingDiscriminatedUnionProperties
                (fun m => <[scip.symbol (decl_info declaration)
                            := decl_siblings declaration]> m)) ;;
      if (0 <? length (additionalInformation
                         (decl_diagnostic declaration)))%nat
      then report (decl_diagnostic declaration)
      else ret tt) tt ;;
    queue_push
      {| scip.display_name := scip.display_name jsonrpcMethod;
         scip.symbol := scip.symbol jsonrpcMethod;
         scip.kind := scip.OtherKind;
         scip.signature :=
           Some (scip.class_signature
                   (map (fun entry => scip.symbol (decl_info (snd entry)))
                      declarations)) |}
  else
    warn (scip.symbol jsonrpcMethod) "no properties found for this type".

(** The case of [queueClassLikeInfo] for a type alias that is neither a
    string type nor a discriminated union. [properties] is taken to read its
    argument, so that an unset [lower_bound] raises. *)
Definition queueClassLikeInfo_alias (jsonrpcMethod : scip.SymbolInformation)
  (lower_bound : option scip.Type_) : M unit :=
  let* lower_bound := lift (defined "lower_bound" lower_bound) in
  let* declarations :=
    lift (res_for_of (properties h lower_bound)
            queueClassLikeInfo_property []) in
  queueClassLikeInfo_declarations jsonrpcMethod declarations.

(** Same as [queueClassLikeType] but for [scip.SymbolInformation]. *)
Definition queueClassLikeInfo (jsonrpcMethod : scip.SymbolInformation) : M unit :=
  match scip.signature jsonrpcMethod with
  | None => ret tt
  | Some signature =>
      if scip.has_class_signature signature then queue_push jsonrpcMethod
      else if isStringTypeInfo h jsonrpcMethod then queue_push jsonrpcMethod
      else
        let* discriminatedUnion :=
          if isNestedDiscriminatedUnion env
          then lift (discriminatedUnion jsonrpcMethod)
          else ret None in
        match discriminatedUnion with
        | Some discriminatedUnion =>
            modify (set_discriminatedUnions
                      (fun m => <[scip.symbol jsonrpcMethod := discriminatedUnion]> m)) ;;
            queue_push jsonrpcMethod
        | None =>
            match signature with
            | scip.type_signature lower_bound =>
                queueClassLikeInfo_alias jsonrpcMethod lower_bound
            | _ =>
                raise (Thrown TypeError
                         ("unknown info: " +:+ stringify h jsonrpcMethod))
            end
        end
  end.

(** [tpe.has_type_ref && isTypescriptKeyword(tpe.type_ref.symbol)]. *)
Definition isKeywordRef (tpe : scip.Type_) : bool :=
  match tpe with
  | scip.type_ref symbol _ => isTypescriptKeyword h symbol
  | _ => false
  end.

(** [unionTypeExceptionIndex.find(({ prefix }) =>
    jsonrpcMethod.symbol.startsWith(prefix))?.index]. *)
Definition exceptionIndex (jsonrpcMethod : scip.SymbolInformation) : option nat :=
  snd <$> List.find (fun entry => startsWith (scip.symbol jsonrpcMethod) (fst entry))
            (unionTypeExceptionIndex f).

(** The information the engine makes up for an anonymous structural or
    intersection type. *)
Definition synthesized (type : scip.Type_) (jsonrpcMethod : scip.SymbolInformation)
  (kind : Role) : scip.SymbolInformation :=
  {| scip.display_name := jsonrpcTypeName f jsonrpcMethod type kind;
     scip.symbol := scip.symbol jsonrpcMethod +:+ "(" +:+ role_string kind +:+ ").";
     scip.kind := scip.OtherKind;
     scip.signature := Some (scip.class_signature (properties h type)) |}.

(** [queueClassLikeType]. In the case of a union the members are paired
    with the recursive call on them before the nullable ones are filtered
    out, so that the recursion stays on the members of the type;
    [queueClassLikeType_union] below states the case on the filtered array
    itself. An index outside an array gives [undefined], and the call on it
    fails when it reads [has_type_ref]. *)
Fixpoint queueClassLikeType (type : scip.Type_)
  (jsonrpcMethod : scip.SymbolInformation) (kind : Role) {struct type} : M unit :=
  match type with
  | scip.type_ref symbol type_arguments =>
      if String.eqb symbol (typescriptKeyword h "array") then
        match type_arguments with
        | t0 :: _ => queueClassLikeType t0 jsonrpcMethod kind
        | [] => raise (Runtime "has_type_ref")
        end
      else if isRecord f symbol then
        match type_arguments with
        | [t0; t1] =>
            queueClassLikeType t0 jsonrpcMethod kind ;;
            queueClassLikeType t1 jsonrpcMethod kind
        | _ =>
            raise (Thrown TypeError
                     ("record must have 2 type arguments: " +:+ debugType h type))
        end
      else if from_option truthy false (typescriptKeywordSyntax h symbol) then
        ret tt
      else
        let* info := lift (symtab_info (symtab env) symbol) in
        queueClassLikeInfo info
  | scip.structural_type _ | scip.intersection_type _ =>
      queueClassLikeInfo (synthesized type jsonrpcMethod kind)
  | scip.union_type types =>
      if forallb scip.has_constant_type types then ret tt
      else
        let calls :=
          map (fun t => (t, queueClassLikeType t jsonrpcMethod kind)) types in
        let nonNullableTypes :=
          List.filter (fun call => negb (isNullable f (fst call))) calls in
        if forallb (fun call => isKeywordRef (fst call)) nonNullableTypes then
          ret tt
        else if (length nonNullableTypes =? 1)%nat then
          match nonNullableTypes with
          | call :: _ => snd call
          | [] => raise (Runtime "has_type_ref")
          end
        else
          match exceptionIndex jsonrpcMethod with
          | Some exceptionIndex =>
              warn (scip.symbol jsonrpcMethod)
                ("resolving unsupported union by picking type " +:+
                 pretty exceptionIndex +:+ ". " +:+ debugInfo h jsonrpcMethod) ;;
              match nth_error nonNullableTypes exceptionIndex with
              | Some call => snd call
              | None => raise (Runtime "has_type_ref")
              end
          | None =>
              raise (Thrown Error
                       ("unsupported union type: " +:+ stringify h jsonrpcMethod))
          end
  | scip.constant_type _ => ret tt
  | _ => raise (Thrown Error ("unsupported type: " +:+ debugType h type))
  end.

End Engine.

(** The diagnostic of the [catch] block of [writeDataClass]. *)
Definition failedToHandleClass (info : scip.SymbolInformation) (e : Exn)
  : Diagnostic :=
  failure (scip.symbol info)
    ("Failed to handle class " +:+ scip.symbol info +:+
     ". To fix this problem, consider skipping this type by adding the symbol to " +:+
     dquote +:+ "ignoredInfoSymbol" +:+ dquote +:+
     " in Formatter.ts" +:+ newline +:+ exn_toString e).

Section Writing.

Variable env : Env.

Local Abbreviation f := (formatter (emitter env)).
Local Abbreviation h := (helpers env).

(** [ignoredProperties.find(p => memberSymbol.includes(p))] used as a
    condition. *)
Definition isIgnoredProperty (memberSymbol : string) : bool :=
  from_option truthy false
    (List.find (fun ignoredProperty => includes memberSymbol ignoredProperty)
       (ignoredProperties f)).

(** [constants.map(constant => ({ serializedName, formattedName }))]. *)
Definition enumMembers (constants : list string) : list EnumMember :=
  map (fun constant =>
         {| serializedName := constant;
            enum_formattedName := formatFieldName f (capitalize h constant) |})
    constants.

(** The loop of [writeDataClassUnsafe], after the name of the member is
    added to [generatedName]: the field of one member. *)
Definition writeDataClassUnsafe_field (acc : DataClassLoop)
  (memberSymbol : string) (member : scip.SymbolInformation) : M DataClassLoop :=
  let* signature :=
    lift (defined "has_value_signature" (scip.signature member)) in
  match signature with
  | scip.value_signature tpe =>
      let* memberType := lift (defined "has_lambda_type" tpe) in
      if scip.has_lambda_type memberType then
        warn memberSymbol
          ("ignoring property '" +:+ scip.display_name member +:+
           "' because it does not serialize correctly to JSON. " +:+
           "To fix this warning, don't expose this lambda type to the protocol") ;;
        ret acc
      else if isIgnoredType f memberType then ret acc
      else
        (* [memberType === undefined] cannot hold here *)
        let memberTypeSyntax := jsonrpcTypeName f member memberType parameter in
        let constants := stringConstantsFromInfo h member in
        modify (set_stringLiteralConstants
                  (fun s => s ∪ list_to_set constants)) ;;
        let oneofSyntax :=
          if (0 <? length constants)%nat
          then " // Oneof: " +:+ join ", " constants
          else EmptyString in
        let push memberTypeSyntax enums :=
          ret {| generatedName := generatedName acc;
                 enums := enums;
                 members :=
                   members acc ++
                   [{| member_info := member;
                       typeSyntax := memberTypeSyntax;
                       formattedName := formatFieldName f (scip.display_name member);
                       oneOfComment := oneofSyntax;
                       member_isNullable := isNullable f memberType |}] |} in
        if (0 <? length constants)%nat && startsWith memberTypeSyntax "String"
        then
          let enumTypeName := formatEnumType f (scip.display_name member) in
          push (enumTypeName +:+ nullableSyntax f memberType)
            (enums acc ++
             [{| enum_name := enumTypeName;
                 enum_members := enumMembers constants |}])
        else
          let* queued :=
            try_catch
              (queueClassLikeType env memberType member parameter ;; ret true)
              (fun error_ =>
                 error memberSymbol
                   ("error handling member: " +:+ scip.symbol member +:+
                    ". To fix this problem, you may want to ignore it from code generation by adding the symbol name to the " +:+
                    dquote +:+ "ignoredProperties" +:+ dquote +:+
                    " in the Formatter.ts file." +:+ newline +:+
                    exn_toString error_ +:+ newline +:+ stack h error_) ;;
                 ret false) in
          if queued then push memberTypeSyntax (enums acc) else ret acc
  | _ =>
      raise (Thrown TypeError
               ("not a value signature: " +:+ stringify h member))
  end.

(** The body of the loop of [writeDataClassUnsafe]: one member symbol, and
    the variables [generatedName], [enums] and [members]. *)
Definition writeDataClassUnsafe_member (acc : DataClassLoop)
  (memberSymbol : string) : M DataClassLoop :=
  if isIgnoredProperty memberSymbol then ret acc
  else if endsWith memberSymbol "()." then ret acc
  else
    let* member := lift (symtab_info (symtab env) memberSymbol) in
    if bool_decide (scip.display_name member ∈ generatedName acc) then ret acc
    else
      writeDataClassUnsafe_field
        {| generatedName := {[scip.display_name member]} ∪ generatedName acc;
           enums := enums acc;
           members := members acc |}
        memberSymbol member.

(** The loop of [writeDataClassUnsafe] over the member symbols. *)
Definition writeDataClassUnsafe_members (memberSymbols : list string)
  : M DataClassLoop :=
  for_of memberSymbols writeDataClassUnsafe_member
    {| generatedName := ∅; enums := []; members := [] |}.

Definition writeDataClassUnsafe (name : string) (info : scip.SymbolInformation)
  (params : DataClassParams) : M unit :=
  (match scip.kind info with
   | scip.Class =>
       warn (scip.symbol info)
         "classes should not be exposed in the agent protocol because they don't serialize to JSON."
   | _ => ret tt
   end) ;;
  let* loop := writeDataClassUnsafe_members (infoProperties h info) in
  emit (DataClass params name info (members loop) (enums loop)).

(** No caller awaits [writeDataClass]: the body of [writeDataClassUnsafe]
    runs at once, and the [catch] block, when the body raised, as a
    microtask. *)
Definition writeDataClass (name : string) (info : scip.SymbolInformation)
  (params : DataClassParams) : M unit :=
  try_catch (writeDataClassUnsafe name info params)
    (fun e => defer (failedToHandleClass info e)).

(** The first loop of [writeSealedClass]: one member, and the variables
    [isHandledCase] and [union.members]. *)
Definition writeSealedClass_member (info : scip.SymbolInformation)
  (acc : gset string * list DiscriminatedUnionMember)
  (member : DiscriminatedUnionMember)
  : M (gset string * list DiscriminatedUnionMember) :=
  if bool_decide (value member ∈ fst acc) then
    warn (scip.symbol info)
      ("duplicate discriminator value " +:+ value member) ;;
    ret acc
  else ret ({[value member]} ∪ fst acc, snd acc ++ [member]).

(** The information of the inner class of a member of a sealed class. *)
Definition writeSealedClass_info (typeName : string)
  (member : DiscriminatedUnionMember) : Res scip.SymbolInformation :=
  match member_type member with
  | scip.type_ref symbol _ => symtab_info (symtab env) symbol
  | type =>
      inr {| scip.display_name := typeName;
             scip.symbol := EmptyString;
             scip.kind := scip.OtherKind;
             scip.signature := Some (scip.value_signature (Some type)) |}
  end.

(** The second loop of [writeSealedClass]: the inner class of one member. *)
Definition writeSealedClass_inner (name : string) (union : DiscriminatedUnion)
  (member : DiscriminatedUnionMember) : M unit :=
  let typeName := discriminatedUnionTypeName f union member in
  let* info := lift (writeSealedClass_info typeName member) in
  writeDataClass typeName info
    {| innerClass := Some true; parentClass := Some name |}.

Definition writeSealedClass (name : string) (info : scip.SymbolInformation)
  (discriminatedUnion : DiscriminatedUnion) : M unit :=
  let* handled :=
    for_of (du_members discriminatedUnion) (writeSealedClass_member info) (∅, []) in
  let union :=
    {| du_symbol := du_symbol discriminatedUnion;
       discriminatorDisplayName := discriminatorDisplayName discriminatedUnion;
       du_members := snd handled |} in
  emit (StartSealedClass name info union) ;;
  for_of (du_members union)
    (fun _ member => writeSealedClass_inner name union member) tt ;;
  if hasCloseSealedClass (emitter env)
  then emit (CloseSealedClass name info union)
  else ret tt.

(** [aliasType]; the strings it returns are not empty. *)
Definition aliasType (info : scip.SymbolInformation) : M (option string) :=
  if String.eqb (scip.display_name info) "Date" then ret (Some "String")
  else if isStringTypeInfo h info then
    let constants := stringConstantsFromInfo h info in
    modify (set_stringLiteralConstants (fun s => s ∪ list_to_set constants)) ;;
    ret (Some ("String // One of: " +:+ join ", " constants))
  else ret None.

(** What [writeType] prints between the opening and the closing of the
    type: a type alias, a sealed class or a data class. [writeSealedClass]
    and [writeDataClass] are not awaited. *)
Definition writeType_body (name : string) (info : scip.SymbolInformation)
  (alias : option string) : M unit :=
  match alias with
  | Some alias =>
      let isStringType := isStringTypeInfo h info in
      let enum_ :=
        if isStringType then
          let constants := stringConstantsFromInfo h info in
          if (0 <? length constants)%nat
          then Some {| enum_name := name; enum_members := enumMembers constants |}
          else None
        else None in
      emit (TypeAlias name alias isStringType info enum_)
  | None =>
      let* this := get in
      match discriminatedUnions this !! scip.symbol info with
      | Some discriminatedUnion =>
          not_awaited (writeSealedClass name info discriminatedUnion)
      | None => not_awaited (writeDataClass name info no_params)
      end
  end.

(** [writeType]. It yields only at [await fspromises.writeFile(...)]. *)
Definition writeType (info : scip.SymbolInformation) : M unit :=
  modify (set_writeTypeCalls (fun log => log ++ [scip.symbol info])) ;;
  startDocument ;;
  let name := typeName f info in
  let* alias := aliasType info in
  if isIgnoredInfo f info then ret tt
  else
    emit (StartType name info) ;;
    writeType_body name info alias ;;
    emit (CloseType name info) ;;
    writeFile (path_join h (output env)
                 (getFileNameForType (emitter env) (scip.display_name info))) ;;
    run_microtasks.

(** [request.signature.value_signature.tpe.type_ref.type_arguments?.[1]]. *)
Definition resultType (request : scip.SymbolInformation)
  : Res (option scip.Type_) :=
  let? tpe := value_signature_tpe request in
  let? tpe := defined "type_ref" tpe in
  match tpe with
  | scip.type_ref _ type_arguments => inr (nth_error type_arguments 1)
  | _ => inl (Runtime "type_arguments")
  end.

Definition writeProtocolInterface (name requestSymbol notificationSymbol : string)
  : M unit :=
  startDocument ;;
  let* requests :=
    for_of (structuralType (symtab env)
              (canonicalSymbol (symtab env) requestSymbol))
      (fun requests request =>
         if String.eqb (scip.display_name request) "webview/receiveMessage"
            || String.eqb (scip.display_name request) "chat/submitMessage"
            || String.eqb (scip.display_name request) "chat/editMessage"
         then ret requests
         else
           let* resultType := lift (resultType request) in
           match resultType with
           | None =>
               error (scip.symbol request)
                 "missing result type for request. To fix this problem, add a second element to the array type like this: 'example/method: [RequestParams, RequestResult]'" ;;
               ret requests
           | Some resultType =>
               let parameterType := jsonrpcMethodParameter f request in
               queueClassLikeType env parameterType request parameter ;;
               queueClassLikeType env resultType request result ;;
               ret (requests ++ [request])
           end) [] in
  let* notifications :=
    for_of (structuralType (symtab env)
              (canonicalSymbol (symtab env) notificationSymbol))
      (fun notifications notification =>
         if String.eqb (scip.display_name notification) "webview/postMessage"
         then ret notifications
         else
           let parameterType := jsonrpcMethodParameter f notification in
           queueClassLikeType env parameterType notification parameter ;;
           ret (notifications ++ [notification])) [] in
  emit (ProtocolInterface name requests notifications) ;;
  writeFile (path_join h (output env) (name +:+ "." +:+ getFileType (emitter env))).

Definition writeNullAlias : M unit :=
  startDocument ;;
  emit NullAlias ;;
  writeFile (path_join h (output env) ("Null." +:+ getFileType (emitter env))).

Definition writeSerializationAdapters : M unit :=
  let* this := get in
  if (size (discriminatedUnions this) =? 0)%nat then ret tt
  else
    startDocument ;;
    let* discriminatedUnions :=
      for_of (sort (elements (dom (discriminatedUnions this))))
        (fun names symbol =>
           let* info := lift (symtab_info (symtab env) symbol) in
           ret (names ++ [scip.display_name info])) [] in
    emit (SerializationAdapter discriminatedUnions) ;;
    writeFile (path_join h (output env)
                 ("ProtocolTypeAdapters." +:+ getFileType (emitter env))).

Definition writeStringLiteralConstants : M unit :=
  let* this := get in
  if (size (stringLiteralConstants this) =? 0)%nat then ret tt
  else
    startDocument ;;
    let constants := sort (elements (stringLiteralConstants this)) in
    emit (StringLiteralConstants constants) ;;
    writeFile (path_join h (output env)
                 ("Constants." +:+ getFileType (emitter env))).

(** The [while] loop of [run]. It returns [true] when the queue is empty and
    [false] when [fuel] iterations did not empty it. *)
Fixpoint drain (fuel : nat) : M bool :=
  let* this := get in
  match pop (queue this) with
  | None => ret true
  | Some (info, rest) =>
      match fuel with
      | O => ret false
      | S fuel' =>
          modify (set_queue (fun _ => rest)) ;;
          (if bool_decide (scip.symbol info ∈ generatedSymbols this) then ret tt
           else
             writeType info ;;
             modify (set_generatedSymbols (fun g => {[scip.symbol info]} ∪ g))) ;;
          drain fuel'
      end
  end.

(** [run], with [fuel] iterations for its loop; the final [mkdir] of the
    output directory changes nothing that is modelled. *)
Definition run (fuel : nat) : M bool :=
  resetOutputPath ;;
  writeNullAlias ;;
  writeProtocolInterface "CodyAgentServer"
    (client_requests (protocolSymbols env))
    (client_notifications (protocolSymbols env)) ;;
  writeProtocolInterface "CodyAgentClient"
    (server_requests (protocolSymbols env))
    (server_notifications (protocolSymbols env)) ;;
  let* emptied := drain fuel in
  if emptied then
    writeSerializationAdapters ;;
    writeStringLiteralConstants ;;
    ret true
  else ret false.

End Writing.

(** ** A small symbol graph and its collaborators

    The graph and the collaborators below are the concrete inputs on which
    the theorems are instantiated. The helpers follow the shapes the engine
    relies on: a keyword symbol is [scip-typescript npm typescript . k#], a
    type is nullable when it refers to the keywords [null] or [undefined], and
    the literal of a string constant type is its value. *)

Module Sample.

Definition keyword (k : string) : string :=
  "scip-typescript npm typescript . " +:+ k +:+ "#".

Definition prop (symbol name : string) (tpe : scip.Type_) : scip.SymbolInformation :=
  {| scip.symbol := symbol; scip.display_name := name;
     scip.kind := scip.OtherKind;
     scip.signature := Some (scip.value_signature (Some tpe)) |}.

Definition interface (symbol name : string) (symlinks : list string)
  : scip.SymbolInformation :=
  {| scip.symbol := symbol; scip.display_name := name;
     scip.kind := scip.OtherKind;
     scip.signature := Some (scip.class_signature symlinks) |}.

Definition alias (symbol name : string) (lower_bound : scip.Type_)
  : scip.SymbolInformation :=
  {| scip.symbol := symbol; scip.display_name := name;
     scip.kind := scip.OtherKind;
     scip.signature := Some (scip.type_signature (Some lower_bound)) |}.

Definition literal (s : string) : scip.Type_ :=
  scip.constant_type (scip.string_constant s).

Definition ref (symbol : string) : scip.Type_ := scip.type_ref symbol [].

Definition string_ : scip.Type_ := ref (keyword "string").
Definition number_ : scip.Type_ := ref (keyword "number").
Definition null_ : scip.Type_ := ref (keyword "null").
Definition array_ (t : scip.Type_) : scip.Type_ :=
  scip.type_ref (keyword "array") [t].

(** [interface FileInfo { path: string }], a method [ping] and an
    interface [Broken] one of whose members is a method signature. *)
Definition FileInfo : scip.SymbolInformation :=
  interface "FileInfo#" "FileInfo" ["FileInfo#path."].

Definition ping : scip.SymbolInformation :=
  prop "Requests#ping." "ping" (scip.type_ref "Array#" [ref "FileInfo#"; string_]).

Definition Broken : scip.SymbolInformation :=
  interface "Broken#" "Broken" ["Broken#run."].

Definition Broken_run : scip.SymbolInformation :=
  {| scip.symbol := "Broken#run."; scip.display_name := "run";
     scip.kind := scip.OtherKind; scip.signature := Some scip.method_signature |}.

(** [type Result = { kind: 'ok', value: string } | { kind: 'error' }]. *)
Definition Ok_ : scip.Type_ := scip.structural_type ["Ok#kind."; "Ok#value."].
Definition Err_ : scip.Type_ := scip.structural_type ["Err#kind."].
Definition Result : scip.SymbolInformation :=
  alias "Result#" "Result" (scip.union_type [Ok_; Err_]).

(** [type Blank = { kind: '' } | { kind: 'b' }]: the literal of the first
    member is the empty string. *)
Definition Blank : scip.SymbolInformation :=
  alias "Blank#" "Blank"
    (scip.union_type [scip.structural_type ["Blank1#kind."];
                      scip.structural_type ["Blank2#kind."]]).

(** [interface Shadow] lists a method [name()] before a property [name]. *)
Definition Shadow : scip.SymbolInformation :=
  interface "Shadow#" "Shadow" ["Shadow#name()."; "Shadow#name."].

Definition graph : gmap string scip.SymbolInformation :=
  list_to_map
    [("FileInfo#", FileInfo);
     ("FileInfo#path.", prop "FileInfo#path." "path" string_);
     ("Legacy#path.", prop "Legacy#path." "path" number_);
     ("Requests#ping.", ping);
     ("Broken#", Broken);
     ("Broken#run.", Broken_run);
     ("Result#", Result);
     ("Ok#kind.", prop "Ok#kind." "kind" (literal "ok"));
     ("Ok#value.", prop "Ok#value." "value" string_);
     ("Err#kind.", prop "Err#kind." "kind" (literal "error"));
     ("Blank#", Blank);
     ("Blank1#kind.", prop "Blank1#kind." "kind" (literal EmptyString));
     ("Blank2#kind.", prop "Blank2#kind." "kind" (literal "b"));
     ("Shadow#", Shadow);
     ("Shadow#name().", prop "Shadow#name()." "name" string_);
     ("Shadow#name.", prop "Shadow#name." "name" string_)].

Definition table : SymbolTable :=
  {| symbols := graph;
     canonicalSymbol := fun s => s;
     structuralType := fun _ => [] |}.

Definition kotlinFormatter : Formatter :=
  {| typeName := scip.display_name;
     isIgnoredInfo := fun _ => false;
     isIgnoredType := fun _ => false;
     jsonrpcTypeName := fun method type kind =>
       match type with
       | scip.type_ref symbol _ => symbol
       | scip.structural_type _ | scip.intersection_type _ =>
           scip.symbol method +:+
           match kind with parameter => "Params" | result => "Result" end
       | _ => "Any"
       end;
     jsonrpcMethodParameter := fun _ => scip.no_type;
     isRecord := fun s => endsWith s "Record#";
     isNullable := fun t =>
       match t with
       | scip.type_ref s _ =>
           String.eqb s (keyword "null") || String.eqb s (keyword "undefined")
       | _ => false
       end;
     nullableSyntax := fun _ => "?";
     unionTypeExceptionIndex := [("vscode ", 0)];
     ignoredProperties := [];
     formatEnumType := fun s => s +:+ "Enum";
     formatFieldName := fun s => s;
     discriminatedUnionTypeName := fun union member =>
       discriminatorDisplayName union +:+ "_" +:+ value member |}.

Definition kotlinEmitter : Emitter :=
  {| formatter := kotlinFormatter;
     getFileType := "kt";
     getFileNameForType := fun name => name +:+ ".kt";
     hasCloseSealedClass := true |}.

Definition base : Helpers :=
  {| infoProperties := fun info =>
       match scip.signature info with
       | Some (scip.class_signature symlinks) => symlinks
       | _ => []
       end;
     properties := fun t =>
       match t with
       | scip.structural_type symlinks => symlinks
       | _ => []
       end;
     isStringTypeInfo := fun _ => false;
     stringConstantsFromInfo := fun _ => [];
     compatibleSignatures := fun _ _ => true;
     debugType := fun _ => "type";
     debugInfo := scip.symbol;
     typescriptKeyword := keyword;
     isTypescriptKeyword := fun s => startsWith s "scip-typescript npm typescript . ";
     typescriptKeywordSyntax := fun s =>
       if String.eqb s (keyword "string") then Some "String"
       else if String.eqb s (keyword "number") then Some "Int"
       else if String.eqb s (keyword "null") then Some "Null"
       else None;
     capitalize := fun s => s;
     stringLiteralType := fun t =>
       match t with
       | scip.constant_type (scip.string_constant v) => Some v
       | _ => None
       end;
     stringify := scip.symbol;
     stack := fun _ => EmptyString;
     path_join := fun a b => a +:+ "/" +:+ b;
     callStackDepth := 64 |}.

Definition env : Env :=
  {| emitter := kotlinEmitter;
     symtab := table;
     helpers := base;
     output := "out";
     isNestedDiscriminatedUnion := true;
     protocolSymbols :=
       {| client_requests := "Requests#";
          client_notifications := "Notifications#";
          server_requests := "ServerRequests#";
          server_notifications := "ServerNotifications#" |} |}.

End Sample.

(** ** Notions used to state the properties *)

Section Notions.

Variable env : Env.

Local Abbreviation f := (formatter (emitter env)).
Local Abbreviation h := (helpers env).

(** [type.union_type.types.filter(type => !isNullable(type))]. *)
Definition nonNullableTypes (types : list scip.Type_) : list scip.Type_ :=
  List.filter (fun t => negb (isNullable f t)) types.

(** The call on [types[i]], where [types[i]] may be [undefined]. *)
Definition queueClassLikeType_nth (types : list scip.Type_) (i : nat)
  (jsonrpcMethod : scip.SymbolInformation) (kind : Role) : M unit :=
  match nth_error types i with
  | Some t => queueClassLikeType env t jsonrpcMethod kind
  | None => raise (Runtime "has_type_ref")
  end.

(** The message of the warning for a union resolved by the exception table. *)
Definition pickedType (jsonrpcMethod : scip.SymbolInformation) (i : nat) : string :=
  "resolving unsupported union by picking type " +:+ pretty i +:+ ". " +:+
  debugInfo h jsonrpcMethod.

(** A structural or intersection type: a shape without a name. *)
Definition isAnonymous (type : scip.Type_) : bool :=
  scip.has_structural_type type || scip.has_intersection_type type.

(** No prefix of the exception table starts the symbol. *)
Definition noException (symbol : string) (table : list (string * nat)) : Prop :=
  Forall (fun entry => startsWith symbol (fst entry) = false) table.

End Notions.

(** The members [writeSealedClass] keeps: those whose discriminator value
    was not seen before; and the members it drops. *)
Fixpoint keepFirst (seen : gset string) (ms : list DiscriminatedUnionMember)
  : list DiscriminatedUnionMember :=
  match ms with
  | [] => []
  | m :: rest =>
      if bool_decide (value m ∈ seen) then keepFirst seen rest
      else m :: keepFirst ({[value m]} ∪ seen) rest
  end.

Fixpoint duplicates (seen : gset string) (ms : list DiscriminatedUnionMember)
  : list DiscriminatedUnionMember :=
  match ms with
  | [] => []
  | m :: rest =>
      if bool_decide (value m ∈ seen) then m :: duplicates seen rest
      else duplicates ({[value m]} ∪ seen) rest
  end.

(** The display names of the fields collected by the loop of
    [writeDataClassUnsafe]. *)
Definition fieldNames (loop : DataClassLoop) : list string :=
  map (fun field => scip.display_name (member_info field)) (members loop).

(** What the inner loop of [discriminatedUnion] reads of a property: its
    display name and its string literal, when its type is one and the
    literal is not the empty string. *)
Definition literalProperty (env : Env) (propertySymbol : string)
  : Res (option (string * string)) :=
  let? property := symtab_info (symtab env) propertySymbol in
  let? tpe := value_signature_tpe property in
  let? tpe := defined "has_constant_type" tpe in
  match stringLiteralType (helpers env) tpe with
  | Some stringLiteral =>
      if truthy stringLiteral
      then inr (Some (scip.display_name property, stringLiteral))
      else inr None
  | None => inr None
  end.

Fixpoint literalProperties (env : Env) (propertySymbols : list string)
  : Res (list (string * string)) :=
  match propertySymbols with
  | [] => inr []
  | propertySymbol :: rest =>
      let? literal := literalProperty env propertySymbol in
      let? literals := literalProperties env rest in
      inr (from_option (fun l => [l]) [] literal ++ literals)
  end.

(** The entries of a list of pairs under a name. *)
Definition named {V} (name : string) (entries : list (string * V))
  : list (string * V) :=
  List.filter (fun entry => String.eqb (fst entry) name) entries.

(** A member of a union as [discriminatedUnion] sees it: the type, the
    literal properties of the type, and the literal of its property [kind]. *)
Record KindMember := {
  km_type : scip.Type_;
  km_literals : list (string * string);
  km_kind : string
}.

(** How many literal properties of the members have the name. *)
Definition tally (name : string) (members : list KindMember) : nat :=
  length (named name (concat (map km_literals members))).

(** The update of the maps [candidates] and [memberss] for a literal
    property of a member of the union. *)
Definition register (unionType : scip.Type_)
  (maps : list (string * nat) * list (string * list DiscriminatedUnionMember))
  (literal : string * string)
  : list (string * nat) * list (string * list DiscriminatedUnionMember) :=
  (Map_set (fst maps) (fst literal)
     (default 0 (Map_get (fst maps) (fst literal)) + 1),
   Map_set (snd maps) (fst literal)
     (default [] (Map_get (snd maps) (fst literal)) ++
      [{| value := snd literal; member_type := unionType |}])).

(** The literal properties of the members of a union, each with the member
    it belongs to, in the order in which [discriminatedUnion] reads them. *)
Definition literalEntries (members : list KindMember)
  : list (scip.Type_ * (string * string)) :=
  concat (map (fun d => map (pair (km_type d)) (km_literals d)) members).

Definition entriesNamed (name : string)
  (entries : list (scip.Type_ * (string * string)))
  : list (scip.Type_ * (string * string)) :=
  List.filter (fun entry => String.eqb (fst (snd entry)) name) entries.

Definition membersNamed (name : string)
  (entries : list (scip.Type_ * (string * string)))
  : list DiscriminatedUnionMember :=
  map (fun entry => {| value := snd (snd entry); member_type := fst entry |})
    (entriesNamed name entries).

(** The maps [candidates] and [memberss] hold, for every name, the number
    of entries of that name and the members made of them. *)
Definition tallied (entries : list (scip.Type_ * (string * string)))
  (maps : list (string * nat) * list (string * list DiscriminatedUnionMember))
  : Prop :=
  List.NoDup (map fst (fst maps)) /\
  forall name,
    Map_get (fst maps) name =
      (if (length (entriesNamed name entries) =? 0)%nat then None
       else Some (length (entriesNamed name entries))) /\
    Map_get (snd maps) name =
      (if (length (entriesNamed name entries) =? 0)%nat then None
       else Some (membersNamed name entries)).

(** The state in which [writeType] calls [writeSealedClass] or
    [writeDataClass] for an information that has no alias: the call is
    logged and the new document starts with the type. *)
Definition writeType_entered (env : Env) (info : scip.SymbolInformation)
  (st : Codegen) : Codegen :=
  set_printer
    (fun _ => [StartType (typeName (formatter (emitter env)) info) info])
    (set_writeTypeCalls (fun log => log ++ [scip.symbol info]) st).

(** The file [writeType] writes for an information. *)
Definition typeFile (env : Env) (info : scip.SymbolInformation) : string :=
  path_join (helpers env) (output env)
    (getFileNameForType (emitter env) (scip.display_name info)).

(** The fields collected so far have distinct names, all of them in
    [generatedName]. *)
Definition distinctFields (loop : DataClassLoop) : Prop :=
  NoDup (fieldNames loop) /\
  forall name, name ∈ fieldNames loop -> name ∈ generatedName loop.

(** A member symbol that the loop of [writeDataClassUnsafe] does not skip
    before it looks the member up. *)
Definition isProperty (env : Env) (memberSymbol : string) : bool :=
  negb (isIgnoredProperty env memberSymbol) && negb (endsWith memberSymbol "().").

(** The warning of [writeSealedClass] for a dropped member. *)
Definition duplicateWarning (info : scip.SymbolInformation)
  (member : DiscriminatedUnionMember) : Diagnostic :=
  warning (scip.symbol info) ("duplicate discriminator value " +:+ value member).

(** The union [writeSealedClass] hands to the emitter. *)
Definition sealedUnion (discriminatedUnion : DiscriminatedUnion)
  : DiscriminatedUnion :=
  {| du_symbol := du_symbol discriminatedUnion;
     discriminatorDisplayName := discriminatorDisplayName discriminatedUnion;
     du_members := keepFirst ∅ (du_members discriminatedUnion) |}.

(** [member] occurs in [members] with no earlier member of the same
    discriminator value. *)
Definition firstOccurrence (member : DiscriminatedUnionMember)
  (members : list DiscriminatedUnionMember) : Prop :=
  exists before after,
    members = before ++ member :: after /\
    (value member ∉ map value before).

(** The names of the inner classes requested from the emitter. *)
Definition innerClassName (e : Emitted) : option string :=
  match e with
  | DataClass {| innerClass := Some true |} name _ _ _ => Some name
  | _ => None
  end.

Definition innerClassNames (p : list Emitted) : list string :=
  omap innerClassName p.

(** The symbols whose type was written to a file: the documents of
    [writeType] start with [StartType]. *)
Definition typeFileSymbol (file : string * list Emitted) : option string :=
  match snd file with
  | StartType _ info :: _ => Some (scip.symbol info)
  | _ => None
  end.

Definition typeFileSymbols (files : list (string * list Emitted)) : list string :=
  omap typeFileSymbol files.

(** A method keeps the relation [R] between the state it starts from and the
    state it leaves. *)
Definition respects {A} (R : Codegen -> Codegen -> Prop) (m : M A) : Prop :=
  forall st, R st (snd (m st)).

(** What [run] keeps track of: the symbols marked as generated, the calls
    of [writeType], and the symbols whose type was written to a file. *)
Definition log_view (st : Codegen) : gset string * list string * list string :=
  (generatedSymbols st, writeTypeCalls st, typeFileSymbols (files st)).

(** The document is only added to, and no file is written. *)
Definition document_grows (st st' : Codegen) : Prop :=
  log_view st' = log_view st /\ files st' = files st /\
  exists added, printer st' = printer st ++ added.

(** Every call of [writeType] was for a different symbol, the symbols it
    was called for are marked as generated except the last one while it is
    written, and the symbols whose type was written to a file are among
    them, in the order of the calls. *)
Definition written_once (st : Codegen) : Prop :=
  NoDup (writeTypeCalls st) /\
  (forall symbol, symbol ∈ writeTypeCalls st -> symbol ∈ generatedSymbols st) /\
  sublist (typeFileSymbols (files st)) (writeTypeCalls st).

(** What the traversal of the graph never touches. *)
Definition writer_view (st : Codegen)
  : list Emitted * list Diagnostic * list (string * list Emitted) *
    gset string * list string :=
  (printer st, microtasks st, files st, generatedSymbols st, writeTypeCalls st).

Definition same_view {X} (view : Codegen -> X) (st st' : Codegen) : Prop :=
  view st' = view st.

(** An exception raised by a [throw] statement of [Codegen.ts]. *)
Definition isThrown (e : Exn) : bool :=
  match e with
  | Thrown _ _ => true
  | _ => false
  end.

(** A computation on the symbol graph in which no [throw] statement is
    reached: it fails only by a lookup, by reading [undefined] or by
    exhausting the call stack. *)
Definition quiet {A} (r : Res A) : Prop :=
  forall e, r = inl e -> isThrown e = false.

(** Modelled from the spec: [Formatter.jsonrpcTypeName] ([Formatter.ts]) is
    missing. The spec has the name of the type synthesized for a structural
    or intersection type be a function of the owning method symbol and the
    role, and of nothing else. *)
Definition names_by_method_and_role (f : Formatter) : Prop :=
  forall (m m' : scip.SymbolInformation) (t t' : scip.Type_) (k : Role),
    scip.has_structural_type t || scip.has_intersection_type t = true ->
    scip.has_structural_type t' || scip.has_intersection_type t' = true ->
    scip.symbol m = scip.symbol m' ->
    jsonrpcTypeName f m t k = jsonrpcTypeName f m' t' k.

(** ** A second symbol graph: a protocol with nested and circular aliases

    [type Inner = { kind: 'a' } | { kind: 'b' }],
    [type Outer = Inner | { kind: 'c' }],
    [type Loop = Loop | string], a property [mode] that is one of two string
    constants, and the requests and notifications of a small protocol. *)

Module Fixture.

Definition A_ : scip.Type_ := scip.structural_type ["A#kind."].
Definition B_ : scip.Type_ := scip.structural_type ["B#kind."].
Definition C_ : scip.Type_ := scip.structural_type ["C#kind."].

Definition Inner : scip.SymbolInformation :=
  Sample.alias "Inner#" "Inner" (scip.union_type [A_; B_]).

Definition Outer : scip.SymbolInformation :=
  Sample.alias "Outer#" "Outer" (scip.union_type [Sample.ref "Inner#"; C_]).

Definition Loop : scip.SymbolInformation :=
  Sample.alias "Loop#" "Loop"
    (scip.union_type [Sample.ref "Loop#"; Sample.string_]).

(** [type Job = { run(): void } | { kind: 'b' }]: the first member has a
    method, which has no value signature. *)
Definition Job : scip.SymbolInformation :=
  Sample.alias "Job#" "Job"
    (scip.union_type [scip.structural_type ["Broken#run."]; B_]).

(** [interface First { kind: 'a'; path: string }] and
    [type Dup = First | { kind: 'a' } | { kind: 'b' }]: the first two
    members of the union have the same [kind]. *)
Definition First : scip.SymbolInformation :=
  Sample.interface "First#" "First" ["First#kind."; "First#path."].

Definition Dup : scip.SymbolInformation :=
  Sample.alias "Dup#" "Dup" (scip.union_type [Sample.ref "First#"; A_; B_]).

Definition method (symbol name : string) (types : list scip.Type_)
  : scip.SymbolInformation :=
  Sample.prop symbol name (scip.type_ref "Array#" types).

Definition ping : scip.SymbolInformation :=
  method "Requests#ping." "ping" [Sample.ref "FileInfo#"; Sample.ref "Outer#"].

Definition submitMessage : scip.SymbolInformation :=
  method "Requests#chat/submitMessage." "chat/submitMessage"
    [Sample.string_; Sample.string_].

Definition exit : scip.SymbolInformation :=
  method "Requests#exit." "exit" [Sample.null_].

Definition postMessage : scip.SymbolInformation :=
  method "Notifications#webview/postMessage." "webview/postMessage"
    [Sample.string_].

Definition debug : scip.SymbolInformation :=
  method "Notifications#debug." "debug" [Sample.string_].

Definition graph : gmap string scip.SymbolInformation :=
  list_to_map
    [("Inner#", Inner);
     ("Outer#", Outer);
     ("Loop#", Loop);
     ("A#kind.", Sample.prop "A#kind." "kind" (Sample.literal "a"));
     ("B#kind.", Sample.prop "B#kind." "kind" (Sample.literal "b"));
     ("C#kind.", Sample.prop "C#kind." "kind" (Sample.literal "c"));
     ("Settings#mode.", Sample.prop "Settings#mode." "mode" Sample.string_);
     ("First#", First);
     ("First#kind.", Sample.prop "First#kind." "kind" (Sample.literal "a"));
     ("First#path.", Sample.prop "First#path." "path" Sample.string_);
     ("Dup#", Dup)]
  ∪ Sample.graph.

Definition table : SymbolTable :=
  {| symbols := graph;
     canonicalSymbol := fun s => s;
     structuralType := fun s =>
       if String.eqb s "Requests#" then [ping; submitMessage; exit]
       else if String.eqb s "Notifications#" then [postMessage; debug]
       else [] |}.

(** The first element of the array type of a method is its parameter. *)
Definition kotlinFormatter : Formatter :=
  {| typeName := typeName Sample.kotlinFormatter;
     isIgnoredInfo := fun info => String.eqb (scip.display_name info) "Ignored";
     isIgnoredType := isIgnoredType Sample.kotlinFormatter;
     jsonrpcTypeName := fun method type kind =>
       match type with
       | scip.type_ref symbol _ =>
           if String.eqb symbol (Sample.keyword "string") then "String"
           else jsonrpcTypeName Sample.kotlinFormatter method type kind
       | _ => jsonrpcTypeName Sample.kotlinFormatter method type kind
       end;
     jsonrpcMethodParameter := fun info =>
       match scip.signature info with
       | Some (scip.value_signature (Some (scip.type_ref _ (t :: _)))) => t
       | _ => Sample.null_
       end;
     isRecord := isRecord Sample.kotlinFormatter;
     isNullable := isNullable Sample.kotlinFormatter;
     nullableSyntax := nullableSyntax Sample.kotlinFormatter;
     unionTypeExceptionIndex := unionTypeExceptionIndex Sample.kotlinFormatter;
     ignoredProperties := ignoredProperties Sample.kotlinFormatter;
     formatEnumType := formatEnumType Sample.kotlinFormatter;
     formatFieldName := formatFieldName Sample.kotlinFormatter;
     discriminatedUnionTypeName :=
       discriminatedUnionTypeName Sample.kotlinFormatter |}.

Definition kotlinEmitter : Emitter :=
  {| formatter := kotlinFormatter;
     getFileType := "kt";
     getFileNameForType := fun name => name +:+ ".kt";
     hasCloseSealedClass := true |}.

(** The property [mode] is one of two string constants. *)
Definition base : Helpers :=
  {| infoProperties := infoProperties Sample.base;
     properties := properties Sample.base;
     isStringTypeInfo := isStringTypeInfo Sample.base;
     stringConstantsFromInfo := fun info =>
       if String.eqb (scip.display_name info) "mode" then ["auto"; "manual"]
       else [];
     compatibleSignatures := compatibleSignatures Sample.base;
     debugType := debugType Sample.base;
     debugInfo := debugInfo Sample.base;
     typescriptKeyword := typescriptKeyword Sample.base;
     isTypescriptKeyword := isTypescriptKeyword Sample.base;
     typescriptKeywordSyntax := typescriptKeywordSyntax Sample.base;
     capitalize := capitalize Sample.base;
     stringLiteralType := stringLiteralType Sample.base;
     stringify := stringify Sample.base;
     stack := stack Sample.base;
     path_join := path_join Sample.base;
     callStackDepth := callStackDepth Sample.base |}.

Definition env : Env :=
  {| emitter := kotlinEmitter;
     symtab := table;
     helpers := base;
     output := "out";
     isNestedDiscriminatedUnion := true;
     protocolSymbols := protocolSymbols Sample.env |}.

(** Helpers that look through a reference: the properties of a type that
    refers to an interface are the declarations of the interface, and the
    properties of an information with a value signature are those of its
    type. *)
Definition typeProperties (t : scip.Type_) : list string :=
  match t with
  | scip.structural_type symlinks => symlinks
  | scip.type_ref symbol _ =>
      match graph !! symbol with
      | Some info => infoProperties Sample.base info
      | None => []
      end
  | _ => []
  end.

Definition nominal : Helpers :=
  {| infoProperties := fun info =>
       match scip.signature info with
       | Some (scip.class_signature symlinks) => symlinks
       | Some (scip.value_signature (Some tpe)) => typeProperties tpe
       | _ => []
       end;
     properties := typeProperties;
     isStringTypeInfo := isStringTypeInfo base;
     stringConstantsFromInfo := stringConstantsFromInfo base;
     compatibleSignatures := compatibleSignatures base;
     debugType := debugType base;
     debugInfo := debugInfo base;
     typescriptKeyword := typescriptKeyword base;
     isTypescriptKeyword := isTypescriptKeyword base;
     typescriptKeywordSyntax := typescriptKeywordSyntax base;
     capitalize := capitalize base;
     stringLiteralType := stringLiteralType base;
     stringify := stringify base;
     stack := stack base;
     path_join := path_join base;
     callStackDepth := callStackDepth base |}.

Definition nominalEnv : Env :=
  {| emitter := kotlinEmitter;
     symtab := table;
     helpers := nominal;
     output := "out";
     isNestedDiscriminatedUnion := true;
     protocolSymbols := protocolSymbols Sample.env |}.

End Fixture.

(** ** Notions used to state further properties *)

(** A reference to a type alias whose lower bound is a union: what
    [unionTypes] replaces by the members of that union. *)
Definition isUnionAlias (env : Env) (t : scip.Type_) : bool :=
  match t with
  | scip.type_ref symbol _ =>
      match symbols (symtab env) !! symbol with
      | Some info =>
          match scip.signature info with
          | Some (scip.type_signature (Some lower_bound)) =>
              scip.has_union_type lower_bound
          | _ => false
          end
      | None => false
      end
  | _ => false
  end.

(** An information [writeType] has a rendering for: a class or interface, a
    string type, or a type alias whose discriminated union is on record. *)
Definition isClassLike (env : Env) (st : Codegen)
  (info : scip.SymbolInformation) : bool :=
  from_option scip.has_class_signature false (scip.signature info)
  || isStringTypeInfo (helpers env) info
  || bool_decide (scip.symbol info ∈ dom (discriminatedUnions st)).

(** What the engine only ever adds to: the discriminated unions on record,
    the symbols marked as generated, the string constants, the diagnostics,
    the files written and the log of [writeType]. *)
Definition accumulates (st st' : Codegen) : Prop :=
  dom (discriminatedUnions st) ⊆ dom (discriminatedUnions st') /\
  generatedSymbols st ⊆ generatedSymbols st' /\
  stringLiteralConstants st ⊆ stringLiteralConstants st' /\
  reporter st `prefix_of` reporter st' /\
  files st `prefix_of` files st' /\
  writeTypeCalls st `prefix_of` writeTypeCalls st'.

(** The same, and the queue is only pushed to, with informations that
    [writeType] has a rendering for. *)
Definition grows (env : Env) (st st' : Codegen) : Prop :=
  (exists added,
     queue st' = queue st ++ added /\
     Forall (fun info => isClassLike env st' info = true) added) /\
  accumulates st st'.

(** The requests and notifications of the webview protocol, which
    [writeProtocolInterface] skips. *)
Definition isWebviewRequest (request : scip.SymbolInformation) : bool :=
  String.eqb (scip.display_name request) "webview/receiveMessage"
  || String.eqb (scip.display_name request) "chat/submitMessage"
  || String.eqb (scip.display_name request) "chat/editMessage".

Definition isWebviewNotification (notification : scip.SymbolInformation)
  : bool :=
  String.eqb (scip.display_name notification) "webview/postMessage".

(** A request whose array type has a second element. *)
Definition hasResultType (request : scip.SymbolInformation) : bool :=
  match resultType request with
  | inr (Some _) => true
  | _ => false
  end.

Definition missingResultType (request : scip.SymbolInformation) : Diagnostic :=
  failure (scip.symbol request)
    "missing result type for request. To fix this problem, add a second element to the array type like this: 'example/method: [RequestParams, RequestResult]'".

(** The path of the file of a protocol interface. *)
Definition interfaceFile (env : Env) (name : string) : string :=
  path_join (helpers env) (output env)
    (name +:+ "." +:+ getFileType (emitter env)).

(** A request to print a data class. *)
Definition isDataClass (e : Emitted) : bool :=
  match e with
  | DataClass _ _ _ _ _ => true
  | _ => false
  end.

(** The information [queueClassLikeInfo] queues for a type alias that is
    turned into a class: the alias with the merged properties as its
    declarations. *)
Definition mergedClass (jsonrpcMethod : scip.SymbolInformation)
  (properties : list scip.SymbolInformation) : scip.SymbolInformation :=
  {| scip.display_name := scip.display_name jsonrpcMethod;
     scip.symbol := scip.symbol jsonrpcMethod;
     scip.kind := scip.OtherKind;
     scip.signature :=
       Some (scip.class_signature (map scip.symbol properties)) |}.

(** The path of the file of the string constants. *)
Definition constantsFile (env : Env) : string :=
  path_join (helpers env) (output env)
    ("Constants." +:+ getFileType (emitter env)).

(** The path of the file of the null alias. *)
Definition nullFile (env : Env) : string :=
  path_join (helpers env) (output env)
    ("Null." +:+ getFileType (emitter env)).

(** Every union on record is one that [discriminatedUnion] returned for an
    information of the symbol it is recorded under. *)
Definition recorded (env : Env) (st : Codegen) : Prop :=
  forall symbol du,
    discriminatedUnions st !! symbol = Some du ->
    exists origin,
      scip.symbol origin = symbol /\
      discriminatedUnion env origin = inr (Some du).

(** A method keeps the unions on record such. *)
Definition records (env : Env) (st st' : Codegen) : Prop :=
  recorded env st -> recorded env st'.

(** A type that refers to a symbol refers to one the symbol table knows. *)
Definition resolves (env : Env) (t : scip.Type_) : Prop :=
  match t with
  | scip.type_ref symbol _ => is_Some (symbols (symtab env) !! symbol)
  | _ => True
  end.

(** Modelled from the spec: [BaseCodegen.infoProperties] and
    [BaseCodegen.properties] ([BaseCodegen.ts]) are missing. The spec has one
    notion of the properties of a member of a union: [discriminatedUnion]
    collects every member's direct properties, and the inner data class of
    a member is written by the algorithm of the data classes, from its
    member symbols. So the member symbols of the information from which
    [writeSealedClass] writes the inner class of a member are among the
    properties of the type of the member. *)
Definition inner_class_of_properties (env : Env) (du : DiscriminatedUnion)
  : Prop :=
  forall member typeName inner,
    In member (du_members du) ->
    writeSealedClass_info env typeName member = inr inner ->
    forall memberSymbol,
      In memberSymbol (infoProperties (helpers env) inner) ->
      In memberSymbol (properties (helpers env) (member_type member)).

(** The member at which the loop of [writeDataClassUnsafe] stops, and the
    exception it raises there. *)
Definition failsAt (env : Env) (memberSymbol : string) (e : Exn) : Prop :=
  match symbols (symtab env) !! memberSymbol with
  | None => e = Lookup memberSymbol
  | Some member =>
      match scip.signature member with
      | None => e = Runtime "has_value_signature"
      | Some (scip.value_signature None) => e = Runtime "has_lambda_type"
      | Some (scip.value_signature (Some _)) => False
      | Some _ =>
          e = Thrown TypeError
                ("not a value signature: " +:+ stringify (helpers env) member)
      end
  end.

(** The interface [writeProtocolInterface] prints: the requests that do not
    belong to the webview protocol and have a result type, and the
    notifications other than [webview/postMessage]. *)
Definition protocolInterface (env : Env)
  (name requestSymbol notificationSymbol : string) : Emitted :=
  ProtocolInterface name
    (List.filter
       (fun request => negb (isWebviewRequest request) && hasResultType request)
       (structuralType (symtab env)
          (canonicalSymbol (symtab env) requestSymbol)))
    (List.filter
       (fun notification => negb (isWebviewNotification notification))
       (structuralType (symtab env)
          (canonicalSymbol (symtab env) notificationSymbol))).

(** Strings in ascending order of their code units: each is at most the
    next. *)
Fixpoint ascending (xs : list string) : bool :=
  match xs with
  | x :: (y :: _) as rest => sort_leb x y && ascending rest
  | _ => true
  end.

(** The path of the file of the serialization adapters. *)
Definition adaptersFile (env : Env) : string :=
  path_join (helpers env) (output env)
    ("ProtocolTypeAdapters." +:+ getFileType (emitter env)).

(** A method raises exceptions of one kind only. *)
Definition raises_only {A} (P : Exn -> Prop) (m : M A) : Prop :=
  forall st e st', m st = (inl e, st') -> P e.

(** What the traversal of the type of a method can raise: the exceptions of
    the four [throw] statements of [queueClassLikeType] and
    [queueClassLikeInfo], and the exceptions that no [throw] statement
    raises. *)
Definition isTraversalError (env : Env) (jsonrpcMethod : scip.SymbolInformation)
  (e : Exn) : Prop :=
  match e with
  | Thrown Error message =>
      message =
        "unsupported union type: " +:+ stringify (helpers env) jsonrpcMethod
      \/ exists type,
           message = "unsupported type: " +:+ debugType (helpers env) type
  | Thrown TypeError message =>
      (exists type,
         message =
           "record must have 2 type arguments: " +:+
           debugType (helpers env) type)
      \/ exists info,
           message = "unknown info: " +:+ stringify (helpers env) info
  | Thrown _ _ => False
  | _ => True
  end.

(** * Properties *)

(** ** The monad and the loops *)

Lemma bind_run {A B} (m : M A) (k : A -> M B) (st : Codegen) :
  bind m k st =
  match m st with
  | (inr a, st') => k a st'
  | (inl e, st') => (inl e, st')
  end.
Proof. reflexivity. Qed.

Lemma for_of_app {A S} (xs ys : list A) (body : S -> A -> M S) (acc : S)
  (st : Codegen) :
  for_of (xs ++ ys) body acc st =
  bind (for_of xs body acc) (for_of ys body) st.
Proof.
  revert acc st. induction xs as [|x xs IH]; intros acc st; simpl.
  - reflexivity.
  - rewrite !bind_run. destruct (body acc x st) as [[e|acc'] st'].
    + reflexivity.
    + rewrite IH. reflexivity.
Qed.

Lemma pop_push {A} (xs : list A) (x : A) : pop (xs ++ [x]) = Some (x, xs).
Proof.
  induction xs as [|y ys IH]; simpl.
  - reflexivity.
  - rewrite IH. reflexivity.
Qed.

Lemma pop_None {A} (xs : list A) : pop xs = None -> xs = [].
Proof.
  destruct xs as [|x xs]; [reflexivity|]. simpl.
  destruct (pop xs) as [[? ?]|]; discriminate.
Qed.

Lemma pop_Some {A} (xs rest : list A) (x : A) :
  pop xs = Some (x, rest) -> xs = rest ++ [x].
Proof.
  revert rest. induction xs as [|y ys IH]; intros rest; simpl.
  - discriminate.
  - destruct (pop ys) as [[z rest']|] eqn:E.
    + intros [= -> <-]. rewrite (IH rest' eq_refl). reflexivity.
    + intros [= -> <-]. apply pop_None in E. subst. reflexivity.
Qed.

(** ** [queueClassLikeType] on a union, stated on the filtered array *)

Section Union.

Variable env : Env.

Local Abbreviation f := (formatter (emitter env)).
Local Abbreviation h := (helpers env).

Lemma filter_calls {B} (g : scip.Type_ -> B) (p : scip.Type_ -> bool)
  (types : list scip.Type_) :
  List.filter (fun call => p (fst call)) (map (fun t => (t, g t)) types) =
  map (fun t => (t, g t)) (List.filter p types).
Proof.
  induction types as [|t ts IH]; simpl; [reflexivity|].
  destruct (p t); simpl; rewrite IH; reflexivity.
Qed.

Lemma forallb_calls {B} (g : scip.Type_ -> B) (p : scip.Type_ -> bool)
  (types : list scip.Type_) :
  forallb (fun call => p (fst call)) (map (fun t => (t, g t)) types) =
  forallb p types.
Proof.
  induction types as [|t ts IH]; simpl; [reflexivity|]. rewrite IH. reflexivity.
Qed.

Lemma queueClassLikeType_union (types : list scip.Type_)
  (jsonrpcMethod : scip.SymbolInformation) (kind : Role) :
  queueClassLikeType env (scip.union_type types) jsonrpcMethod kind =
  if forallb scip.has_constant_type types then ret tt
  else if forallb (isKeywordRef env) (nonNullableTypes env types) then ret tt
  else if (length (nonNullableTypes env types) =? 1)%nat then
    queueClassLikeType_nth env (nonNullableTypes env types) 0 jsonrpcMethod kind
  else
    match exceptionIndex env jsonrpcMethod with
    | Some i =>
        bind (warn (scip.symbol jsonrpcMethod) (pickedType env jsonrpcMethod i))
          (fun _ => queueClassLikeType_nth env (nonNullableTypes env types) i
                      jsonrpcMethod kind)
    | None =>
        raise (Thrown Error
                 ("unsupported union type: " +:+ stringify h jsonrpcMethod))
    end.
Proof.
  simpl. destruct (forallb scip.has_constant_type types); [reflexivity|].
  rewrite (filter_calls _ (fun t => negb (isNullable f t))).
  fold (nonNullableTypes env types).
  rewrite (forallb_calls _ (isKeywordRef env)).
  destruct (forallb (isKeywordRef env) (nonNullableTypes env types)); [reflexivity|].
  rewrite length_map.
  unfold queueClassLikeType_nth.
  destruct (length (nonNullableTypes env types) =? 1)%nat.
  - destruct (nonNullableTypes env types); reflexivity.
  - destruct (exceptionIndex env jsonrpcMethod) as [i|]; [|reflexivity].
    unfold pickedType. f_equal.
    rewrite nth_error_map.
    destruct (nth_error (nonNullableTypes env types) i); reflexivity.
Qed.

End Union.

(** ** What [queueClassLikeType] queues *)

Section QueueClassLikeType.

Variable env : Env.

Local Abbreviation f := (formatter (emitter env)).
Local Abbreviation h := (helpers env).

Lemma exceptionIndex_first (m : scip.SymbolInformation)
  (pre post : list (string * nat)) (prefix : string) (index : nat) :
  unionTypeExceptionIndex f = pre ++ (prefix, index) :: post ->
  noException (scip.symbol m) pre ->
  startsWith (scip.symbol m) prefix = true ->
  exceptionIndex env m = Some index.
Proof.
  intros Htable Hpre Hprefix. unfold exceptionIndex. rewrite Htable.
  clear Htable. induction Hpre as [|entry pre Hentry _ IH]; simpl.
  - rewrite Hprefix. reflexivity.
  - rewrite Hentry. exact IH.
Qed.

Lemma exceptionIndex_none (m : scip.SymbolInformation) :
  noException (scip.symbol m) (unionTypeExceptionIndex f) ->
  exceptionIndex env m = None.
Proof.
  unfold exceptionIndex. intros Hnone.
  induction Hnone as [|entry table Hentry _ IH]; simpl.
  - reflexivity.
  - rewrite Hentry. exact IH.
Qed.

(** C8. A union all of whose non-nullable members are references to
    TypeScript keywords queues nothing and returns normally: the state is
    left as it was and no exception is raised. *)
Theorem queueClassLikeType_primitive_union
  (types : list scip.Type_) (m : scip.SymbolInformation) (k : Role)
  (st : Codegen) :
  (forall t, In t types -> isNullable f t = false -> isKeywordRef env t = true) ->
  queueClassLikeType env (scip.union_type types) m k st = (inr tt, st).
Proof.
  intros Hkeywords. rewrite queueClassLikeType_union.
  destruct (forallb scip.has_constant_type types); [reflexivity|].
  assert (forallb (isKeywordRef env) (nonNullableTypes env types) = true) as ->.
  { apply forallb_forall. intros t Ht. apply filter_In in Ht as [Hin Hnull].
    apply Hkeywords; [exact Hin|]. apply negb_true_iff. exact Hnull. }
  reflexivity.
Qed.

(** C6. For a structural or intersection type, [queueClassLikeType] queues
    one synthesized information whose symbol is the symbol of the owning
    method followed by the role between parentheses and a dot; with a
    formatter that names such types by method symbol and role, any other
    call with the same method symbol and role queues the same symbol and the
    same display name. *)
Theorem queueClassLikeType_synthesized
  (type : scip.Type_) (m : scip.SymbolInformation) (k : Role) (st : Codegen) :
  isAnonymous type = true ->
  names_by_method_and_role f ->
  queueClassLikeType env type m k st =
    (inr tt, set_queue (fun q => q ++ [synthesized env type m k]) st)
  /\ scip.symbol (synthesized env type m k) =
       scip.symbol m +:+ "(" +:+ role_string k +:+ ")."
  /\ forall (type' : scip.Type_) (m' : scip.SymbolInformation) (st' : Codegen),
       isAnonymous type' = true ->
       scip.symbol m' = scip.symbol m ->
       queueClassLikeType env type' m' k st' =
         (inr tt, set_queue (fun q => q ++ [synthesized env type' m' k]) st')
       /\ scip.symbol (synthesized env type' m' k) =
            scip.symbol (synthesized env type m k)
       /\ scip.display_name (synthesized env type' m' k) =
            scip.display_name (synthesized env type m k).
Proof.
  assert (Hqueue : forall t m0 st0, isAnonymous t = true ->
            queueClassLikeType env t m0 k st0 =
            (inr tt, set_queue (fun q => q ++ [synthesized env t m0 k]) st0)).
  { intros t m0 st0 Ht. destruct t; try discriminate Ht; reflexivity. }
  intros Htype Hnames. split; [apply Hqueue; exact Htype|].
  split; [reflexivity|].
  intros type' m' st' Htype' Hsymbol. split; [apply Hqueue; exact Htype'|].
  split.
  - simpl. rewrite Hsymbol. reflexivity.
  - simpl. apply Hnames; assumption.
Qed.

(** C3, as the code has it. For a union that is not made of constants only,
    with more than one non-nullable member, not all of them references to
    keywords: when an entry of the exception table has a prefix of the
    method symbol, the first such entry decides: a [Warning] is recorded and
    the call goes on with the non-nullable member at the index of the entry;
    when no entry has, an [Error] for the unsupported union is raised and
    nothing is changed. *)
Theorem queueClassLikeType_unsupported_union
  (types : list scip.Type_) (m : scip.SymbolInformation) (k : Role)
  (st : Codegen) :
  forallb scip.has_constant_type types = false ->
  (1 < length (nonNullableTypes env types))%nat ->
  forallb (isKeywordRef env) (nonNullableTypes env types) = false ->
  (forall pre prefix index post,
      unionTypeExceptionIndex f = pre ++ (prefix, index) :: post ->
      noException (scip.symbol m) pre ->
      startsWith (scip.symbol m) prefix = true ->
      queueClassLikeType env (scip.union_type types) m k st =
      queueClassLikeType_nth env (nonNullableTypes env types) index m k
        (set_reporter
           (fun ds => ds ++ [warning (scip.symbol m) (pickedType env m index)])
           st))
  /\ (noException (scip.symbol m) (unionTypeExceptionIndex f) ->
      queueClassLikeType env (scip.union_type types) m k st =
      (inl (Thrown Error ("unsupported union type: " +:+ stringify h m)), st)).
Proof.
  intros Hconstants Hlength Hkeywords.
  rewrite queueClassLikeType_union, Hconstants, Hkeywords.
  assert ((length (nonNullableTypes env types) =? 1)%nat = false) as ->.
  { apply Nat.eqb_neq. lia. }
  split.
  - intros pre prefix index post Htable Hpre Hprefix.
    rewrite (exceptionIndex_first m pre post prefix index Htable Hpre Hprefix).
    reflexivity.
  - intros Hnone. rewrite (exceptionIndex_none m Hnone). reflexivity.
Qed.

(** When the only non-nullable member of a union is not a reference to a
    keyword, the union queues what that member queues, in whatever order the
    members of the union come. *)
Lemma queueClassLikeType_nullable_union
  (types types' : list scip.Type_) (t : scip.Type_)
  (m : scip.SymbolInformation) (k : Role) :
  nonNullableTypes env types = [t] ->
  isKeywordRef env t = false ->
  Permutation types types' ->
  queueClassLikeType env (scip.union_type types') m k =
  queueClassLikeType env t m k.
Proof.
  intros Hone Hkeyword Hperm.
  assert (Hone' : nonNullableTypes env types' = [t]).
  { symmetry. apply Permutation_singleton_l. rewrite <- Hone.
    unfold nonNullableTypes.
    clear Hone. induction Hperm; simpl.
    - constructor.
    - destruct (negb (isNullable f x)); [constructor|]; exact IHHperm.
    - destruct (negb (isNullable f x)), (negb (isNullable f y));
        try reflexivity. apply perm_swap.
    - etransitivity; eassumption. }
  rewrite queueClassLikeType_union, Hone'. simpl. rewrite Hkeyword. simpl.
  destruct (forallb scip.has_constant_type types') eqn:Hconstants;
    [|reflexivity].
  assert (Hin : In t types').
  { assert (In t (nonNullableTypes env types')) as Ht
      by (rewrite Hone'; left; reflexivity).
    apply filter_In in Ht as [Ht _]. exact Ht. }
  rewrite forallb_forall in Hconstants. specialize (Hconstants t Hin).
  destruct t; try discriminate Hconstants. reflexivity.
Qed.

(** When the only non-nullable member of a union is a reference to a
    keyword, the union queues nothing, whatever that member queues. *)
Lemma queueClassLikeType_nullable_keyword
  (types : list scip.Type_) (t : scip.Type_)
  (m : scip.SymbolInformation) (k : Role) (st : Codegen) :
  nonNullableTypes env types = [t] ->
  isKeywordRef env t = true ->
  queueClassLikeType env (scip.union_type types) m k st = (inr tt, st).
Proof.
  intros Hone Hkeyword. rewrite queueClassLikeType_union, Hone. simpl.
  rewrite Hkeyword. simpl.
  destruct (forallb scip.has_constant_type types); reflexivity.
Qed.

End QueueClassLikeType.

Lemma queueClassLikeType_primitive_union_witness :
  queueClassLikeType Sample.env
    (scip.union_type [Sample.string_; Sample.number_; Sample.null_])
    Sample.ping parameter new_Codegen = (inr tt, new_Codegen).
Proof.
  apply queueClassLikeType_primitive_union.
  intros t [<-|[<-|[<-|[]]]] _; reflexivity.
Defined.

Lemma queueClassLikeType_synthesized_witness :
  scip.symbol
    (synthesized Sample.env Sample.Ok_ Sample.ping result) =
  "Requests#ping.(result)." /\
  queueClassLikeType Sample.env Sample.Ok_ Sample.ping result new_Codegen =
  (inr tt,
   set_queue (fun q => q ++ [synthesized Sample.env Sample.Ok_ Sample.ping result])
     new_Codegen).
Proof.
  assert (Hnames : names_by_method_and_role (formatter (emitter Sample.env))).
  { intros m m' t t' k Ht Ht' Hsymbol. simpl.
    destruct t; try discriminate Ht; destruct t'; try discriminate Ht';
      rewrite Hsymbol; reflexivity. }
  destruct (queueClassLikeType_synthesized Sample.env Sample.Ok_ Sample.ping
              result new_Codegen eq_refl Hnames) as [Hqueue [Hsymbol _]].
  split; [exact Hsymbol | exact Hqueue].
Defined.

Lemma queueClassLikeType_unsupported_union_witness :
  queueClassLikeType Sample.env
    (scip.union_type [Sample.ref "FileInfo#"; Sample.string_; Sample.null_])
    Sample.ping parameter new_Codegen =
  (inl (Thrown Error "unsupported union type: Requests#ping."), new_Codegen).
Proof.
  apply (queueClassLikeType_unsupported_union Sample.env
           [Sample.ref "FileInfo#"; Sample.string_; Sample.null_]
           Sample.ping parameter new_Codegen).
  - reflexivity.
  - simpl. lia.
  - reflexivity.
  - repeat constructor.
Defined.

(** C3, as the claim has it, fails on a union of string literals: it has two
    non-nullable members, none of them a reference to a keyword, no entry of
    the exception table matches, and yet nothing is raised. *)
Lemma queueClassLikeType_union_of_literals :
  let types := [Sample.literal "a"; Sample.literal "b"] in
  (1 < length (nonNullableTypes Sample.env types))%nat /\
  forallb (isKeywordRef Sample.env) (nonNullableTypes Sample.env types) = false /\
  noException (scip.symbol Sample.ping)
    (unionTypeExceptionIndex (formatter (emitter Sample.env))) /\
  queueClassLikeType Sample.env (scip.union_type types) Sample.ping parameter
    new_Codegen = (inr tt, new_Codegen).
Proof.
  simpl. repeat split; try lia. repeat constructor.
Qed.

(** C7 at [FileInfo[] | null]: the array is the only non-nullable member of
    the union and queues [FileInfo] on its own, but the union queues nothing,
    because the symbol of the array is a keyword symbol. *)
Theorem queueClassLikeType_array_or_null :
  let array := Sample.array_ (Sample.ref "FileInfo#") in
  nonNullableTypes Sample.env [array; Sample.null_] = [array] /\
  queue (snd (queueClassLikeType Sample.env array Sample.ping parameter
                new_Codegen)) = [Sample.FileInfo] /\
  queue (snd (queueClassLikeType Sample.env
                (scip.union_type [array; Sample.null_]) Sample.ping parameter
                new_Codegen)) = [].
Proof.
  vm_compute. repeat split.
Qed.

(** ** Failures that are not [throw] statements *)

Lemma quiet_inr {A} (a : A) : quiet (inr a : Res A).
Proof. intros e He. discriminate He. Qed.

Lemma quiet_bind {A B} (r : Res A) (k : A -> Res B) :
  quiet r -> (forall a, quiet (k a)) -> quiet (res_bind r k).
Proof.
  intros Hr Hk e. destruct r as [e'|a]; simpl.
  - intros [= <-]. apply Hr. reflexivity.
  - apply Hk.
Qed.

Lemma quiet_for_of {A S} (xs : list A) (body : S -> A -> Res S) (acc : S) :
  (forall acc x, quiet (body acc x)) -> quiet (res_for_of xs body acc).
Proof.
  intros Hbody. revert acc.
  induction xs as [|x xs IH]; intros acc; simpl.
  - apply quiet_inr.
  - apply quiet_bind; [apply Hbody | exact IH].
Qed.

Lemma quiet_defined {A} (property : string) (o : option A) :
  quiet (defined property o).
Proof. intros e. destruct o; simpl; [discriminate|]. intros [= <-]. reflexivity. Qed.

Lemma quiet_symtab_info (symtab : SymbolTable) (symbol : string) :
  quiet (symtab_info symtab symbol).
Proof.
  intros e. unfold symtab_info.
  destruct (symbols symtab !! symbol); [discriminate|].
  intros [= <-]. reflexivity.
Qed.

Create HintDb quiet.

#[local] Hint Resolve quiet_inr quiet_defined quiet_symtab_info : quiet.

Section Quiet.

Variable env : Env.

Local Abbreviation h := (helpers env).

Lemma quiet_value_signature_tpe (info : scip.SymbolInformation) :
  quiet (value_signature_tpe info).
Proof.
  unfold value_signature_tpe. apply quiet_bind; [auto with quiet|].
  intros [| | |tpe]; try apply quiet_inr; intros e [= <-]; reflexivity.
Qed.

Lemma quiet_unionTypes_loop (depth : nat) (t : scip.Type_)
  (result : list scip.Type_) :
  quiet (unionTypes_loop env depth t result).
Proof.
  revert t result. induction depth as [|depth IH]; intros t result; simpl.
  - intros e [= <-]. reflexivity.
  - destruct t; try apply quiet_inr.
    apply quiet_for_of. intros acc unionType.
    destruct unionType; try apply quiet_inr.
    apply quiet_bind; [auto with quiet|]. intros info.
    apply quiet_bind; [auto with quiet|]. intros signature.
    destruct signature; try apply quiet_inr.
    apply quiet_bind; [auto with quiet|]. intros lb.
    destruct (scip.has_union_type lb); [apply IH | apply quiet_inr].
Qed.

Lemma quiet_discriminatedUnion_tally (unionTypes : list scip.Type_) :
  quiet (discriminatedUnion_tally env unionTypes).
Proof.
  apply quiet_for_of. intros maps unionType.
  apply quiet_for_of. intros [candidates memberss] propertySymbol.
  unfold discriminatedUnion_property.
  apply quiet_bind; [auto with quiet|]. intros property.
  apply quiet_bind; [apply quiet_value_signature_tpe|]. intros tpe.
  apply quiet_bind; [auto with quiet|]. intros tpe'.
  destruct (stringLiteralType h tpe') as [literal|]; [|apply quiet_inr].
  destruct (truthy literal); apply quiet_inr.
Qed.

Lemma quiet_discriminatedUnion (info : scip.SymbolInformation) :
  quiet (discriminatedUnion env info).
Proof.
  unfold discriminatedUnion.
  apply quiet_bind; [auto with quiet|]. intros signature.
  destruct signature; try apply quiet_inr.
  apply quiet_bind; [auto with quiet|]. intros type.
  destruct type; try apply quiet_inr.
  destruct (length types =? 0)%nat; [apply quiet_inr|].
  apply quiet_bind; [apply quiet_unionTypes_loop|]. intros unionTypes.
  apply quiet_bind; [apply quiet_discriminatedUnion_tally|].
  intros [candidates memberss].
  destruct (List.find _ candidates) as [[candidate count]|]; apply quiet_inr.
Qed.

Lemma quiet_queueClassLikeInfo_property
  (declarations : list (string * Declaration)) (property : string) :
  quiet (queueClassLikeInfo_property env declarations property).
Proof.
  unfold queueClassLikeInfo_property.
  apply quiet_bind; [auto with quiet|]. intros propertyInfo.
  destruct (Map_get declarations (scip.display_name propertyInfo));
    [|apply quiet_inr].
  destruct (negb _); apply quiet_inr.
Qed.

End Quiet.

(** ** [queueClassLikeInfo] and the signature of what it is given *)

Lemma for_of_returns {A S} (xs : list A) (body : S -> A -> M S) (acc : S)
  (st : Codegen) :
  (forall acc x st, exists acc' st', body acc x st = (inr acc', st')) ->
  exists acc' st', for_of xs body acc st = (inr acc', st').
Proof.
  intros Hbody. revert acc st.
  induction xs as [|x xs IH]; intros acc st; simpl.
  - eexists _, _. reflexivity.
  - rewrite bind_run. destruct (Hbody acc x st) as (acc' & st' & ->).
    apply IH.
Qed.

Section QueueClassLikeInfo.

Variable env : Env.

Local Abbreviation h := (helpers env).

Lemma queueClassLikeInfo_declarations_returns
  (info : scip.SymbolInformation)
  (declarations : list (string * Declaration)) (st : Codegen) :
  exists st', queueClassLikeInfo_declarations info declarations st = (inr tt, st').
Proof.
  unfold queueClassLikeInfo_declarations.
  destruct (0 <? length declarations)%nat; [|eexists; reflexivity].
  rewrite bind_run.
  match goal with
  | |- context [for_of declarations ?body tt st] =>
      destruct (for_of_returns declarations body tt st) as (u & st1 & ->)
  end.
  - intros _ entry st1. rewrite bind_run. simpl.
    destruct (0 <? _)%nat; eexists _, _; reflexivity.
  - eexists. reflexivity.
Qed.

(** The case of a type alias reaches no [throw] statement. *)
Lemma queueClassLikeInfo_alias_quiet (info : scip.SymbolInformation)
  (lower_bound : option scip.Type_) (st st' : Codegen) (e : Exn) :
  queueClassLikeInfo_alias env info lower_bound st = (inl e, st') ->
  isThrown e = false.
Proof.
  unfold queueClassLikeInfo_alias. rewrite bind_run. unfold lift.
  destruct (defined "lower_bound" lower_bound) as [e'|lb] eqn:Hdefined.
  { intros [= <- _]. apply quiet_defined in Hdefined. exact Hdefined. }
  rewrite bind_run.
  destruct (res_for_of _ _ _) as [e'|declarations] eqn:Hloop.
  { intros [= <- _].
    apply (quiet_for_of _ _ _ (quiet_queueClassLikeInfo_property env)) in Hloop.
    exact Hloop. }
  destruct (queueClassLikeInfo_declarations_returns info declarations st)
    as [st1 ->].
  discriminate.
Qed.

(** C10, as the code has it. Without a signature, [queueClassLikeInfo]
    returns and leaves the state as it was: nothing is queued, nothing
    reported, nothing raised. With a class signature or a string type it
    queues the information and returns. With a signature that is no class
    signature, no type signature, and of no string type, it raises the
    [TypeError] for an unknown info and changes nothing. Whenever a [throw]
    statement is reached in [queueClassLikeInfo], the information has such a
    signature. And a [TypeError] comes out of [queueClassLikeInfo] in two
    ways only: as that [TypeError] for an unknown info, or, for a type
    alias, as the [TypeError] of the runtime for reading a field of
    [undefined]. *)
Theorem queueClassLikeInfo_signature (info : scip.SymbolInformation)
  (st : Codegen) :
  (scip.signature info = None ->
   queueClassLikeInfo env info st = (inr tt, st))
  /\ (forall signature,
        scip.signature info = Some signature ->
        scip.has_class_signature signature || isStringTypeInfo h info = true ->
        queueClassLikeInfo env info st =
        (inr tt, set_queue (fun q => q ++ [info]) st))
  /\ (forall signature,
        scip.signature info = Some signature ->
        scip.has_class_signature signature = false ->
        isStringTypeInfo h info = false ->
        scip.has_type_signature signature = false ->
        queueClassLikeInfo env info st =
        (inl (Thrown TypeError ("unknown info: " +:+ stringify h info)), st))
  /\ (forall class message st',
        queueClassLikeInfo env info st = (inl (Thrown class message), st') ->
        exists signature,
          scip.signature info = Some signature /\
          scip.has_class_signature signature = false /\
          isStringTypeInfo h info = false /\
          scip.has_type_signature signature = false)
  /\ (forall e st',
        queueClassLikeInfo env info st = (inl e, st') ->
        exn_class e = TypeError ->
        (e = Thrown TypeError ("unknown info: " +:+ stringify h info) /\
         exists signature,
           scip.signature info = Some signature /\
           scip.has_class_signature signature = false /\
           isStringTypeInfo h info = false /\
           scip.has_type_signature signature = false)
        \/ (exists property lower_bound,
              e = Runtime property /\
              scip.signature info =
                Some (scip.type_signature lower_bound))).
Proof.
  assert (Hunknown : forall signature,
            scip.signature info = Some signature ->
            scip.has_class_signature signature = false ->
            isStringTypeInfo h info = false ->
            scip.has_type_signature signature = false ->
            queueClassLikeInfo env info st =
            (inl (Thrown TypeError ("unknown info: " +:+ stringify h info)),
             st)).
  { unfold queueClassLikeInfo.
    intros signature Hsignature Hclass Hstring Htype.
    rewrite Hsignature, Hclass, Hstring, bind_run.
    assert (discriminatedUnion env info = inr None) as Hunion.
    { unfold discriminatedUnion. rewrite Hsignature. simpl.
      destruct signature; try reflexivity. discriminate Htype. }
    destruct (isNestedDiscriminatedUnion env).
    + unfold lift. rewrite Hunion.
      destruct signature; try reflexivity. discriminate Htype.
    + destruct signature; try reflexivity. discriminate Htype. }
  assert (Hthrown : forall class message st',
            queueClassLikeInfo env info st =
              (inl (Thrown class message), st') ->
            exists signature,
              scip.signature info = Some signature /\
              scip.has_class_signature signature = false /\
              isStringTypeInfo h info = false /\
              scip.has_type_signature signature = false).
  { unfold queueClassLikeInfo. intros class message st'.
    destruct (scip.signature info) as [signature|] eqn:Hsignature;
      [|discriminate].
    destruct (scip.has_class_signature signature) eqn:Hclass; [discriminate|].
    destruct (isStringTypeInfo h info) eqn:Hstring; [discriminate|].
    rewrite bind_run. intros Hraised.
    exists signature. split; [reflexivity|]. split; [exact Hclass|].
    split; [reflexivity|].
    destruct (isNestedDiscriminatedUnion env).
    + unfold lift in Hraised.
      destruct (discriminatedUnion env info) as [e|[found|]] eqn:Hunion.
      * injection Hraised as He _. apply quiet_discriminatedUnion in Hunion.
        rewrite He in Hunion. discriminate Hunion.
      * discriminate Hraised.
      * destruct signature as [| |lb|]; try reflexivity.
        apply queueClassLikeInfo_alias_quiet in Hraised. discriminate Hraised.
    + simpl in Hraised. destruct signature as [| |lb|]; try reflexivity.
      apply queueClassLikeInfo_alias_quiet in Hraised. discriminate Hraised. }
  split; [|split; [|split; [exact Hunknown|split; [exact Hthrown|]]]].
  - unfold queueClassLikeInfo. intros ->. reflexivity.
  - unfold queueClassLikeInfo. intros signature -> Hknown.
    destruct (scip.has_class_signature signature); [reflexivity|].
    simpl in Hknown. rewrite Hknown. reflexivity.
  - intros e st' Hraised Hkind.
    destruct e as [class message|property| |]; try discriminate Hkind.
    + left.
      destruct (Hthrown _ _ _ Hraised)
        as (signature & Hsignature & Hclass & Hstring & Htype).
      rewrite (Hunknown _ Hsignature Hclass Hstring Htype) in Hraised.
      injection Hraised as <- <- _.
      split; [reflexivity|]. exists signature. auto.
    + right. exists property.
      destruct (scip.signature info) as [signature|] eqn:Hsignature.
      * destruct (scip.has_class_signature signature) eqn:Hclass.
        { unfold queueClassLikeInfo in Hraised.
          rewrite Hsignature, Hclass in Hraised. discriminate Hraised. }
        destruct (isStringTypeInfo h info) eqn:Hstring.
        { unfold queueClassLikeInfo in Hraised.
          rewrite Hsignature, Hclass, Hstring in Hraised.
          discriminate Hraised. }
        destruct (scip.has_type_signature signature) eqn:Htype.
        { destruct signature as [| |lower_bound|]; try discriminate Htype.
          exists lower_bound. split; reflexivity. }
        rewrite (Hunknown _ eq_refl Hclass eq_refl Htype) in Hraised.
        discriminate Hraised.
      * unfold queueClassLikeInfo in Hraised. rewrite Hsignature in Hraised.
        discriminate Hraised.
Qed.

End QueueClassLikeInfo.

(** C10 on [Job]: the [TypeError] it raises is that of the runtime. *)
Lemma queueClassLikeInfo_signature_witness :
  queueClassLikeInfo Fixture.env Fixture.Job new_Codegen =
    (inl (Runtime "tpe"), new_Codegen) /\
  exn_class (Runtime "tpe") = TypeError /\
  ((Runtime "tpe" =
      Thrown TypeError
        ("unknown info: " +:+ stringify (helpers Fixture.env) Fixture.Job) /\
    exists signature,
      scip.signature Fixture.Job = Some signature /\
      scip.has_class_signature signature = false /\
      isStringTypeInfo (helpers Fixture.env) Fixture.Job = false /\
      scip.has_type_signature signature = false)
   \/ (exists property lower_bound,
         Runtime "tpe" = Runtime property /\
         scip.signature Fixture.Job =
           Some (scip.type_signature lower_bound))).
Proof.
  split; [vm_compute; reflexivity|]. split; [reflexivity|].
  apply (proj2 (proj2 (proj2 (proj2
           (queueClassLikeInfo_signature Fixture.env Fixture.Job new_Codegen))))
           (Runtime "tpe") new_Codegen).
  - vm_compute. reflexivity.
  - reflexivity.
Defined.

(** C10, as the claim has it, fails on
    [type Job = { run(): void } | { kind: 'b' }]. Its signature is a type
    signature, one of the recognized shapes, and [queueClassLikeInfo] raises
    a [TypeError] all the same: [discriminatedUnion] reads [tpe] of the
    value signature of every property, and the method [run] has none. *)
Lemma queueClassLikeInfo_alias_TypeError :
  scip.signature Fixture.Job =
    Some (scip.type_signature
            (Some (scip.union_type
                     [scip.structural_type ["Broken#run."]; Fixture.B_]))) /\
  symbols (symtab Fixture.env) !! "Broken#run." = Some Sample.Broken_run /\
  scip.signature Sample.Broken_run = Some scip.method_signature /\
  exists e,
    queueClassLikeInfo Fixture.env Fixture.Job new_Codegen =
      (inl e, new_Codegen) /\
    isThrown e = false /\
    exn_class e = TypeError /\
    exn_toString e =
      "TypeError: Cannot read properties of undefined (reading 'tpe')".
Proof.
  split; [reflexivity|]. split; [vm_compute; reflexivity|].
  split; [reflexivity|].
  exists (Runtime "tpe"). vm_compute. repeat split.
Qed.

(** ** Relations that the methods keep between the states *)

Section Respects.

Context {R : Codegen -> Codegen -> Prop} `{!PreOrder R}.

Lemma respects_ret {A} (a : A) : respects R (ret a).
Proof. intros st. simpl. reflexivity. Qed.

Lemma respects_raise {A} (e : Exn) : respects R (raise e : M A).
Proof. intros st. simpl. reflexivity. Qed.

Lemma respects_lift {A} (r : Res A) : respects R (lift r).
Proof. intros st. simpl. reflexivity. Qed.

Lemma respects_get : respects R get.
Proof. intros st. simpl. reflexivity. Qed.

Lemma respects_modify (g : Codegen -> Codegen) :
  (forall st, R st (g st)) -> respects R (modify g).
Proof. intros Hg st. apply Hg. Qed.

Lemma respects_bind {A B} (m : M A) (k : A -> M B) :
  respects R m -> (forall a, respects R (k a)) -> respects R (bind m k).
Proof.
  intros Hm Hk st. rewrite bind_run. specialize (Hm st).
  destruct (m st) as [[e|a] st']; simpl in *.
  - exact Hm.
  - etransitivity; [exact Hm | apply Hk].
Qed.

Lemma respects_try_catch {A} (m : M A) (handler : Exn -> M A) :
  respects R m -> (forall e, respects R (handler e)) ->
  respects R (try_catch m handler).
Proof.
  intros Hm Hhandler st. unfold try_catch. specialize (Hm st).
  destruct (m st) as [[e|a] st']; simpl in *.
  - etransitivity; [exact Hm | apply Hhandler].
  - exact Hm.
Qed.

Lemma respects_not_awaited (m : M unit) :
  respects R m -> respects R (not_awaited m).
Proof. intros Hm st. apply Hm. Qed.

Lemma respects_for_of {A S} (xs : list A) (body : S -> A -> M S) (acc : S) :
  (forall acc x, In x xs -> respects R (body acc x)) ->
  respects R (for_of xs body acc).
Proof.
  revert acc. induction xs as [|x xs IH]; intros acc Hbody; simpl.
  - apply respects_ret.
  - apply respects_bind.
    + apply Hbody. left. reflexivity.
    + intros acc'. apply IH. intros acc'' y Hy. apply Hbody. right. exact Hy.
Qed.

End Respects.

#[local] Instance same_view_preorder {X} (view : Codegen -> X) :
  PreOrder (same_view view).
Proof.
  split.
  - intros st. reflexivity.
  - intros st1 st2 st3 H12 H23. unfold same_view in *. congruence.
Qed.

(** The steps of a proof that a method respects a relation: the structure
    of the method is followed down to its changes of the state. *)
Ltac respects_step :=
  lazymatch goal with
  | |- respects _ (ret _) => apply respects_ret
  | |- respects _ (raise _) => apply respects_raise
  | |- respects _ (lift _) => apply respects_lift
  | |- respects _ get => apply respects_get
  | |- respects _ (modify _) =>
      apply respects_modify; intros ?; unfold same_view; reflexivity
  | |- respects _ (bind _ _) => apply respects_bind; [|intros ?]
  | |- respects _ (try_catch _ _) => apply respects_try_catch; [|intros ?]
  | |- respects _ (not_awaited _) => apply respects_not_awaited
  | |- respects _ (if ?b then _ else _) => destruct b
  | |- respects _ (match ?o with Some _ => _ | None => _ end) => destruct o
  end.

Ltac respects_auto := repeat respects_step.

(** ** What the traversal of the graph leaves alone *)

Section Traversal.

Variable env : Env.

Local Abbreviation f := (formatter (emitter env)).
Local Abbreviation h := (helpers env).

Local Abbreviation untouched := (respects (same_view writer_view)).

Lemma report_untouched (d : Diagnostic) : untouched (report d).
Proof. unfold report. respects_auto. Qed.

Lemma warn_untouched (symbol message : string) : untouched (warn symbol message).
Proof. apply report_untouched. Qed.

Lemma error_untouched (symbol message : string) : untouched (error symbol message).
Proof. apply report_untouched. Qed.

Lemma queue_push_untouched (info : scip.SymbolInformation) :
  untouched (queue_push info).
Proof. unfold queue_push. respects_auto. Qed.

Lemma queueClassLikeInfo_untouched (info : scip.SymbolInformation) :
  untouched (queueClassLikeInfo env info).
Proof.
  unfold queueClassLikeInfo.
  destruct (scip.signature info) as [signature|]; [|respects_auto].
  destruct (scip.has_class_signature signature); [apply queue_push_untouched|].
  destruct (isStringTypeInfo h info); [apply queue_push_untouched|].
  apply respects_bind.
  { destruct (isNestedDiscriminatedUnion env); respects_auto. }
  intros [found|].
  { respects_auto. apply queue_push_untouched. }
  destruct signature; try solve [respects_auto].
  unfold queueClassLikeInfo_alias, queueClassLikeInfo_declarations.
  respects_auto.
  - apply respects_for_of. intros _ entry _.
    respects_auto; apply report_untouched.
  - apply queue_push_untouched.
  - apply warn_untouched.
Qed.

Lemma queueClassLikeType_untouched (type : scip.Type_)
  (m : scip.SymbolInformation) (k : Role) :
  untouched (queueClassLikeType env type m k).
Proof.
  induction type as [symbol args IH|ls|ts IH|ts IH|c|ps r IH|]
    using scip.Type_nested_ind.
  - simpl. destruct (String.eqb symbol _).
    { destruct IH; [respects_auto | assumption]. }
    destruct (isRecord f symbol).
    { destruct IH as [|t0 ? H0 [|t1 ? H1 [|]]]; respects_auto; assumption. }
    destruct (from_option truthy false _); respects_auto.
    apply queueClassLikeInfo_untouched.
  - apply queueClassLikeInfo_untouched.
  - apply queueClassLikeInfo_untouched.
  - rewrite queueClassLikeType_union.
    assert (Hnth : forall i,
              untouched (queueClassLikeType_nth env (nonNullableTypes env ts) i m k)).
    { intros i. unfold queueClassLikeType_nth.
      destruct (nth_error _ i) as [t|] eqn:Hi; [|respects_auto].
      apply nth_error_In, filter_In in Hi as [Hin _].
      rewrite List.Forall_forall in IH. apply IH. exact Hin. }
    respects_auto; first [apply Hnth | apply warn_untouched].
  - simpl. respects_auto.
  - simpl. respects_auto.
  - simpl. respects_auto.
Qed.

End Traversal.

(** ** The members of a data class *)

Set Warnings "-clear-no-such-hyp".

(** Case analysis on the run of a method given as a hypothesis. *)
Ltac run_cases H :=
  repeat
    first
      [ progress
          (unfold bind, lift, try_catch, ret, raise, modify, warn, error, report,
             defined in H)
      | match type of H with
        | context [match ?x with _ => _ end] => destruct x eqn:?
        end
      | progress simpl in H ];
  try discriminate H.

Section DataClass.

Variable env : Env.

Local Abbreviation f := (formatter (emitter env)).
Local Abbreviation h := (helpers env).

Lemma writeDataClassUnsafe_field_result (acc acc' : DataClassLoop)
  (memberSymbol : string) (member : scip.SymbolInformation)
  (st st' : Codegen) :
  writeDataClassUnsafe_field env acc memberSymbol member st = (inr acc', st') ->
  generatedName acc' = generatedName acc /\
  (fieldNames acc' = fieldNames acc \/
   fieldNames acc' = fieldNames acc ++ [scip.display_name member]).
Proof.
  unfold writeDataClassUnsafe_field, fieldNames. intros H. run_cases H.
  all: injection H as <- _; simpl; split; try reflexivity.
  all: first [left; reflexivity | right; rewrite map_app; reflexivity].
Qed.


Lemma writeDataClassUnsafe_member_skipped (acc : DataClassLoop)
  (memberSymbol : string) (member : scip.SymbolInformation) (st : Codegen) :
  symbols (symtab env) !! memberSymbol = Some member ->
  scip.display_name member ∈ generatedName acc ->
  writeDataClassUnsafe_member env acc memberSymbol st = (inr acc, st).
Proof.
  intros Hlookup Hseen. unfold writeDataClassUnsafe_member.
  destruct (isIgnoredProperty env memberSymbol); [reflexivity|].
  destruct (endsWith memberSymbol "()."); [reflexivity|].
  rewrite bind_run. unfold lift, symtab_info. rewrite Hlookup.
  rewrite bool_decide_eq_true_2 by exact Hseen. reflexivity.
Qed.

Lemma writeDataClassUnsafe_member_result (acc acc' : DataClassLoop)
  (memberSymbol : string) (st st' : Codegen) :
  writeDataClassUnsafe_member env acc memberSymbol st = (inr acc', st') ->
  generatedName acc ⊆ generatedName acc' /\
  (fieldNames acc' = fieldNames acc \/
   exists name, (name ∉ generatedName acc) /\ (name ∈ generatedName acc') /\
                fieldNames acc' = fieldNames acc ++ [name]) /\
  (isProperty env memberSymbol = true ->
   forall member, symbols (symtab env) !! memberSymbol = Some member ->
                  scip.display_name member ∈ generatedName acc').
Proof.
  unfold writeDataClassUnsafe_member, isProperty.
  destruct (isIgnoredProperty env memberSymbol).
  { intros [= <- _]. split; [reflexivity|]. split; [left; reflexivity|].
    discriminate. }
  destruct (endsWith memberSymbol "().").
  { intros [= <- _]. split; [reflexivity|]. split; [left; reflexivity|].
    discriminate. }
  rewrite bind_run. unfold lift, symtab_info.
  destruct (symbols (symtab env) !! memberSymbol) as [member|]; [|discriminate].
  destruct (bool_decide (scip.display_name member ∈ generatedName acc)) eqn:Hseen.
  { intros [= <- _]. apply bool_decide_eq_true in Hseen.
    split; [reflexivity|]. split; [left; reflexivity|].
    intros _ member' [= <-]. exact Hseen. }
  apply bool_decide_eq_false in Hseen. intros Hfield.
  apply writeDataClassUnsafe_field_result in Hfield as [Hnames Hfields].
  simpl in Hnames. unfold fieldNames in Hfields. simpl in Hfields.
  fold (fieldNames acc) in Hfields. fold (fieldNames acc') in Hfields.
  split; [rewrite Hnames; set_solver|]. split.
  - destruct Hfields as [Hsame|Hmore]; [left; exact Hsame|].
    right. exists (scip.display_name member).
    split; [exact Hseen|]. split; [rewrite Hnames; set_solver | exact Hmore].
  - intros _ member' [= <-]. rewrite Hnames. set_solver.
Qed.

Lemma writeDataClassUnsafe_loop_result (memberSymbols : list string)
  (acc acc' : DataClassLoop) (st st' : Codegen) :
  for_of memberSymbols (writeDataClassUnsafe_member env) acc st = (inr acc', st') ->
  generatedName acc ⊆ generatedName acc' /\
  (distinctFields acc -> distinctFields acc') /\
  (forall memberSymbol member,
     memberSymbol ∈ memberSymbols ->
     isProperty env memberSymbol = true ->
     symbols (symtab env) !! memberSymbol = Some member ->
     scip.display_name member ∈ generatedName acc').
Proof.
  revert acc st.
  induction memberSymbols as [|memberSymbol rest IH]; intros acc st; simpl.
  - intros [= <- _]. split; [reflexivity|]. split; [tauto|].
    intros ? ? Hin. inversion Hin.
  - rewrite bind_run.
    destruct (writeDataClassUnsafe_member env acc memberSymbol st)
      as [[e|acc1] st1] eqn:Hmember; [discriminate|].
    intros Hrest.
    apply writeDataClassUnsafe_member_result in Hmember
      as (Hnames1 & Hfields1 & Hseen1).
    apply IH in Hrest as (Hnames & Hdistinct & Hseen).
    split; [set_solver|]. split.
    + intros [Hnodup Hsubset]. apply Hdistinct. unfold distinctFields.
      destruct Hfields1 as [->|(name & Hfresh & Hname & ->)].
      * split; [exact Hnodup|]. intros name Hname. set_solver.
      * split.
        { apply NoDup_app. split; [exact Hnodup|]. split.
          - intros name' Hold Hnew. apply list_elem_of_singleton in Hnew.
            subst name'. apply Hfresh, Hsubset, Hold.
          - apply NoDup_singleton. }
        intros name' Hin. apply elem_of_app in Hin as [Hold|Hnew].
        { set_solver. }
        apply list_elem_of_singleton in Hnew. subst name'. exact Hname.
    + intros memberSymbol' member Hin Hproperty Hlookup.
      apply elem_of_cons in Hin as [->|Hin].
      * apply Hnames. eapply Hseen1; eassumption.
      * eapply Hseen; eassumption.
Qed.

(** C9, as the code has it. Among the member symbols that are neither on
    the ignore list nor methods, a member whose display name is that of an
    earlier one is skipped silently: the loop runs as if the member were not
    listed, so that it gets no field and no diagnostic. And the fields of a
    data class have distinct display names. *)
Theorem writeDataClassUnsafe_duplicate_name
  (before after : list string) (memberSymbol earlier : string)
  (member first : scip.SymbolInformation) (st : Codegen) :
  earlier ∈ before ->
  isProperty env earlier = true ->
  symbols (symtab env) !! earlier = Some first ->
  symbols (symtab env) !! memberSymbol = Some member ->
  scip.display_name member = scip.display_name first ->
  writeDataClassUnsafe_members env (before ++ memberSymbol :: after) st =
  writeDataClassUnsafe_members env (before ++ after) st
  /\ forall loop st',
       writeDataClassUnsafe_members env (before ++ memberSymbol :: after) st =
       (inr loop, st') ->
       NoDup (fieldNames loop).
Proof.
  intros Hearlier Hproperty Hfirst Hmember Hname.
  unfold writeDataClassUnsafe_members. split.
  - rewrite !for_of_app, !bind_run.
    destruct (for_of before _ _ st) as [[e|acc1] st1] eqn:Hbefore;
      [reflexivity|].
    apply writeDataClassUnsafe_loop_result in Hbefore as (_ & _ & Hseen).
    simpl. rewrite bind_run.
    rewrite (writeDataClassUnsafe_member_skipped acc1 memberSymbol member st1
               Hmember).
    + reflexivity.
    + rewrite Hname. eapply Hseen; eassumption.
  - intros loop st' Hloop.
    apply writeDataClassUnsafe_loop_result in Hloop as (_ & Hdistinct & _).
    apply Hdistinct. split; [constructor|]. intros name Hin. inversion Hin.
Qed.

End DataClass.

Lemma writeDataClassUnsafe_duplicate_name_witness :
  writeDataClassUnsafe_members Sample.env ["FileInfo#path."; "Legacy#path."]
    new_Codegen =
  writeDataClassUnsafe_members Sample.env ["FileInfo#path."] new_Codegen.
Proof.
  apply (writeDataClassUnsafe_duplicate_name Sample.env ["FileInfo#path."] []
           "Legacy#path." "FileInfo#path."
           (Sample.prop "Legacy#path." "path" Sample.number_)
           (Sample.prop "FileInfo#path." "path" Sample.string_) new_Codegen).
  - apply list_elem_of_singleton. reflexivity.
  - reflexivity.
  - reflexivity.
  - reflexivity.
  - reflexivity.
Defined.

(** C9, as the claim has it, fails on [Shadow]: its two members have the
    display name [name]; the first one in declaration order is a method and
    is skipped before its name is recorded, and the field is emitted for the
    second one. *)
Lemma writeDataClassUnsafe_field_for_later_member :
  infoProperties Sample.base Sample.Shadow = ["Shadow#name()."; "Shadow#name."] /\
  scip.display_name <$> symbols Sample.table !! "Shadow#name()." = Some "name" /\
  scip.display_name <$> symbols Sample.table !! "Shadow#name." = Some "name" /\
  exists field,
    writeDataClassUnsafe Sample.env "Shadow" Sample.Shadow no_params new_Codegen =
    (inr tt,
     set_printer
       (fun _ => [DataClass no_params "Shadow" Sample.Shadow [field] []])
       new_Codegen) /\
    scip.symbol (member_info field) = "Shadow#name.".
Proof.
  split; [reflexivity|]. split; [reflexivity|]. split; [reflexivity|].
  eexists. split; [vm_compute; reflexivity | reflexivity].
Qed.

(** ** The members of a sealed class *)

Lemma set_reporter_nil (st : Codegen) :
  set_reporter (fun ds => ds ++ []) st = st.
Proof. destruct st. unfold set_reporter. simpl. rewrite app_nil_r. reflexivity. Qed.

Lemma set_reporter_app (l1 l2 : list Diagnostic) (st : Codegen) :
  set_reporter (fun ds => ds ++ l2) (set_reporter (fun ds => ds ++ l1) st) =
  set_reporter (fun ds => ds ++ (l1 ++ l2)) st.
Proof. unfold set_reporter. simpl. rewrite app_assoc. reflexivity. Qed.

Lemma keepFirst_unseen (seen : gset string) (ms : list DiscriminatedUnionMember)
  (m : DiscriminatedUnionMember) :
  m ∈ keepFirst seen ms -> value m ∉ seen.
Proof.
  revert seen. induction ms as [|m' ms IH]; intros seen; simpl.
  - intros Hin. inversion Hin.
  - destruct (bool_decide (value m' ∈ seen)) eqn:Hseen.
    + apply IH.
    + apply bool_decide_eq_false in Hseen.
      intros Hin. apply elem_of_cons in Hin as [->|Hin]; [exact Hseen|].
      apply IH in Hin. set_solver.
Qed.

Lemma keepFirst_NoDup (seen : gset string) (ms : list DiscriminatedUnionMember) :
  NoDup (map value (keepFirst seen ms)).
Proof.
  revert seen. induction ms as [|m ms IH]; intros seen; simpl.
  - constructor.
  - destruct (bool_decide (value m ∈ seen)); [apply IH|].
    simpl. constructor; [|apply IH].
    intros Hin. apply list_elem_of_fmap in Hin as (m' & Hvalue & Hin).
    apply keepFirst_unseen in Hin. set_solver.
Qed.

Lemma keepFirst_first (seen : gset string) (ms : list DiscriminatedUnionMember)
  (m : DiscriminatedUnionMember) :
  m ∈ keepFirst seen ms <->
  exists before after,
    ms = before ++ m :: after /\
    (value m ∉ seen) /\ (value m ∉ map value before).
Proof.
  revert seen. induction ms as [|m' ms IH]; intros seen; simpl.
  - split; [intros Hin; inversion Hin|].
    intros (before & after & Hnil & _). destruct before; discriminate Hnil.
  - destruct (bool_decide (value m' ∈ seen)) eqn:Hseen.
    + apply bool_decide_eq_true in Hseen. rewrite IH. split.
      * intros (before & after & -> & Hnew & Hfirst).
        exists (m' :: before), after. split; [reflexivity|].
        split; [exact Hnew|]. simpl. intros Hin.
        apply elem_of_cons in Hin as [Heq|Hin]; [|exact (Hfirst Hin)].
        apply Hnew. rewrite Heq. exact Hseen.
      * intros (before & after & Hsplit & Hnew & Hfirst).
        destruct before as [|b before]; simpl in Hsplit.
        { injection Hsplit as -> _. contradiction. }
        injection Hsplit as -> ->. exists before, after.
        split; [reflexivity|]. split; [exact Hnew|].
        intros Hin. apply Hfirst. simpl. apply elem_of_cons. right. exact Hin.
    + apply bool_decide_eq_false in Hseen. rewrite elem_of_cons, IH. split.
      * intros [->|(before & after & -> & Hnew & Hfirst)].
        { exists [], ms. split; [reflexivity|]. split; [exact Hseen|].
          simpl. intros Hin. inversion Hin. }
        exists (m' :: before), after. split; [reflexivity|].
        split; [set_solver|]. simpl. intros Hin.
        apply elem_of_cons in Hin as [Heq|Hin]; [|exact (Hfirst Hin)].
        set_solver.
      * intros (before & after & Hsplit & Hnew & Hfirst).
        destruct before as [|b before]; simpl in Hsplit.
        { injection Hsplit as -> _. left. reflexivity. }
        injection Hsplit as -> ->. right. exists before, after.
        split; [reflexivity|]. simpl in Hfirst.
        split; [|intros Hin; apply Hfirst; apply elem_of_cons; right; exact Hin].
        intros Hin. apply elem_of_union in Hin as [Hin|Hin]; [|exact (Hnew Hin)].
        apply elem_of_singleton in Hin. apply Hfirst, elem_of_cons. left.
        exact Hin.
Qed.

Lemma keepFirst_duplicates_length (seen : gset string)
  (ms : list DiscriminatedUnionMember) :
  length ms = (length (keepFirst seen ms) + length (duplicates seen ms))%nat.
Proof.
  revert seen. induction ms as [|m ms IH]; intros seen; simpl.
  - reflexivity.
  - destruct (bool_decide (value m ∈ seen)); simpl.
    + rewrite (IH seen) at 1. lia.
    + rewrite (IH ({[value m]} ∪ seen)) at 1. lia.
Qed.

(** The first loop of [writeSealedClass] keeps the first occurrences and
    warns about the others. *)
Lemma writeSealedClass_first_loop (info : scip.SymbolInformation)
  (ms : list DiscriminatedUnionMember) (seen : gset string)
  (kept : list DiscriminatedUnionMember) (st : Codegen) :
  exists seen',
    for_of ms (writeSealedClass_member info) (seen, kept) st =
    (inr (seen', kept ++ keepFirst seen ms),
     set_reporter (fun ds => ds ++ map (duplicateWarning info) (duplicates seen ms))
       st).
Proof.
  revert seen kept st. induction ms as [|m ms IH]; intros seen kept st; simpl.
  - exists seen. rewrite app_nil_r, set_reporter_nil. reflexivity.
  - rewrite bind_run. unfold writeSealedClass_member at 1. simpl.
    destruct (bool_decide (value m ∈ seen)); simpl.
    + destruct (IH seen kept
                  (set_reporter (fun ds => ds ++ [duplicateWarning info m]) st))
        as [seen' Hrest].
      exists seen'. unfold bind, warn, report, modify, ret. simpl.
      unfold duplicateWarning at 1 in Hrest. rewrite Hrest.
      rewrite set_reporter_app. reflexivity.
    + destruct (IH ({[value m]} ∪ seen) (kept ++ [m]) st) as [seen' Hrest].
      exists seen'. unfold ret. rewrite Hrest, <- app_assoc. reflexivity.
Qed.

Lemma sublist_same_length {A} (l1 l2 : list A) :
  sublist l1 l2 -> length l1 = length l2 -> l1 = l2.
Proof.
  induction 1 as [|x l1 l2 _ IH|x l1 l2 Hsub _]; simpl; intros Hlength.
  - reflexivity.
  - f_equal. apply IH. lia.
  - apply sublist_length in Hsub. lia.
Qed.

Section SealedClass.

Variable env : Env.

Local Abbreviation f := (formatter (emitter env)).
Local Abbreviation h := (helpers env).

Local Abbreviation untouched := (respects (same_view writer_view)).

Lemma writeDataClassUnsafe_field_untouched (acc : DataClassLoop)
  (memberSymbol : string) (member : scip.SymbolInformation) :
  untouched (writeDataClassUnsafe_field env acc memberSymbol member).
Proof.
  unfold writeDataClassUnsafe_field. respects_step; [respects_auto|].
  destruct a; try solve [respects_auto].
  respects_auto;
    first [apply warn_untouched | apply error_untouched
          | apply queueClassLikeType_untouched].
Qed.

Lemma writeDataClassUnsafe_members_untouched (memberSymbols : list string) :
  untouched (writeDataClassUnsafe_members env memberSymbols).
Proof.
  unfold writeDataClassUnsafe_members. apply respects_for_of.
  intros acc memberSymbol _. unfold writeDataClassUnsafe_member.
  respects_auto. apply writeDataClassUnsafe_field_untouched.
Qed.

(** [writeDataClassUnsafe] prints the data class, as its last step, or
    raises and leaves the document as it was. *)
Lemma writeDataClassUnsafe_outcome (name : string)
  (info : scip.SymbolInformation) (params : DataClassParams) (st : Codegen) :
  match writeDataClassUnsafe env name info params st with
  | (inl _, st') => writer_view st' = writer_view st
  | (inr _, st') =>
      exists fields enums,
        writer_view st' =
        (printer st ++ [DataClass params name info fields enums],
         microtasks st, files st, generatedSymbols st, writeTypeCalls st)
  end.
Proof.
  unfold writeDataClassUnsafe. rewrite bind_run.
  assert (Hkind : exists st0,
            (match scip.kind info with
             | scip.Class =>
                 warn (scip.symbol info)
                   "classes should not be exposed in the agent protocol because they don't serialize to JSON."
             | _ => ret tt
             end) st = (inr tt, st0) /\ writer_view st0 = writer_view st).
  { destruct (scip.kind info); eexists; split; reflexivity. }
  destruct Hkind as (st0 & -> & Hview0). rewrite bind_run.
  pose proof (writeDataClassUnsafe_members_untouched (infoProperties h info) st0)
    as Hloop.
  unfold same_view in Hloop.
  destruct (writeDataClassUnsafe_members env (infoProperties h info) st0)
    as [[e|loop] st1]; simpl in Hloop.
  - congruence.
  - exists (members loop), (enums loop). unfold emit, modify. simpl.
    unfold writer_view in *. simpl. congruence.
Qed.

(** [writeDataClass] returns normally: either the data class is printed, or
    an [Error] against the symbol of the class is left for later. *)
Lemma writeDataClass_outcome (name : string) (info : scip.SymbolInformation)
  (params : DataClassParams) (st : Codegen) :
  exists st',
    writeDataClass env name info params st = (inr tt, st') /\
    ((exists fields enums,
        writer_view st' =
        (printer st ++ [DataClass params name info fields enums],
         microtasks st, files st, generatedSymbols st, writeTypeCalls st))
     \/ (fst (writeDataClassUnsafe env name info params st) <> inr tt /\
         exists d,
           severity d = Severity.Error /\ diag_symbol d = scip.symbol info /\
           writer_view st' =
           (printer st, microtasks st ++ [d], files st, generatedSymbols st,
            writeTypeCalls st))).
Proof.
  unfold writeDataClass, try_catch.
  pose proof (writeDataClassUnsafe_outcome name info params st) as Hunsafe.
  destruct (writeDataClassUnsafe env name info params st) as [[e|[]] st1].
  - eexists. split; [reflexivity|]. right. split; [discriminate|].
    eexists. split; [|split]; cycle 2.
    + unfold writer_view in *. simpl.
      injection Hunsafe as -> -> -> -> ->. reflexivity.
    + reflexivity.
    + reflexivity.
  - eexists. split; [reflexivity|]. left. exact Hunsafe.
Qed.

(** The second loop of [writeSealedClass]: an inner class is printed for the
    members of a sublist of the members, and the loop ends normally with
    nothing left for later only if that is all of them. *)
Lemma writeSealedClass_second_loop (name : string) (union : DiscriminatedUnion)
  (ms : list DiscriminatedUnionMember) (st : Codegen) :
  exists written ds,
    sublist written ms /\
    innerClassNames
      (printer (snd (for_of ms
                       (fun _ m => writeSealedClass_inner env name union m) tt st))) =
    innerClassNames (printer st) ++
    map (discriminatedUnionTypeName f union) written /\
    microtasks (snd (for_of ms
                       (fun _ m => writeSealedClass_inner env name union m) tt st)) =
    microtasks st ++ ds /\
    (fst (for_of ms (fun _ m => writeSealedClass_inner env name union m) tt st) =
     inr tt ->
     (length written + length ds)%nat = length ms).
Proof.
  revert st. induction ms as [|m ms IH]; intros st; simpl.
  - exists [], []. rewrite !app_nil_r. repeat split. constructor.
  - rewrite bind_run. unfold writeSealedClass_inner at 1 3 5.
    rewrite bind_run. unfold lift.
    destruct (writeSealedClass_info env _ m) as [e|info].
    { exists [], []. rewrite !app_nil_r. simpl.
      split; [apply sublist_nil_l|]. repeat split. discriminate. }
    destruct (writeDataClass_outcome
                (discriminatedUnionTypeName f union m) info
                {| innerClass := Some true; parentClass := Some name |} st)
      as (st1 & -> & Houtcome).
    destruct (IH st1) as (written & ds & Hsub & Hnames & Htasks & Hlength).
    unfold writer_view in Houtcome.
    destruct Houtcome as [(fields & es & Hview)|(_ & d & _ & _ & Hview)];
      injection Hview as Hprinter Hmicrotasks _ _ _.
    + exists (m :: written), ds. split; [constructor; exact Hsub|].
      rewrite Hnames, Htasks, Hprinter, Hmicrotasks.
      unfold innerClassNames. rewrite omap_app. simpl.
      rewrite <- app_assoc. repeat split. intros Hok.
      specialize (Hlength Hok). simpl. lia.
    + exists written, (d :: ds). split; [constructor; exact Hsub|].
      rewrite Hnames, Htasks, Hprinter, Hmicrotasks.
      rewrite <- app_assoc. repeat split. intros Hok.
      specialize (Hlength Hok). simpl. lia.
Qed.

(** For any union whatever, [writeSealedClass] keeps the members that are
    the first with their discriminator value, so that the values of the kept
    members are distinct; it records a [Warning] for each dropped member
    before anything is printed; it hands the kept members to the emitter and
    goes through them: an inner class is printed for at most one member of
    each value, and for every kept member when the call ends normally and no
    failure of [writeDataClass] is left to be reported. *)
Lemma writeSealedClass_duplicates (name : string)
  (info : scip.SymbolInformation) (du : DiscriminatedUnion) (st : Codegen) :
  let kept := keepFirst ∅ (du_members du) in
  let dropped := duplicates ∅ (du_members du) in
  let warned :=
    set_reporter (fun ds => ds ++ map (duplicateWarning info) dropped) st in
  NoDup (map value kept)
  /\ (forall m, m ∈ kept <-> firstOccurrence m (du_members du))
  /\ length (du_members du) = (length kept + length dropped)%nat
  /\ Forall (fun d => severity d = Severity.Warning)
       (map (duplicateWarning info) dropped)
  /\ writeSealedClass env name info du st =
     bind (emit (StartSealedClass name info (sealedUnion du)))
       (fun _ =>
          bind (for_of kept
                  (fun _ m => writeSealedClass_inner env name (sealedUnion du) m)
                  tt)
            (fun _ =>
               if hasCloseSealedClass (emitter env)
               then emit (CloseSealedClass name info (sealedUnion du))
               else ret tt))
       warned
  /\ exists written,
       sublist written kept /\
       innerClassNames (printer (snd (writeSealedClass env name info du st))) =
       innerClassNames (printer st) ++
       map (discriminatedUnionTypeName f (sealedUnion du)) written /\
       (fst (writeSealedClass env name info du st) = inr tt ->
        microtasks (snd (writeSealedClass env name info du st)) = microtasks st ->
        written = kept).
Proof.
  intros kept dropped warned.
  split; [apply keepFirst_NoDup|].
  split.
  { intros m. unfold kept, firstOccurrence. rewrite keepFirst_first.
    split.
    - intros (before & after & Hsplit & _ & Hfirst). eauto.
    - intros (before & after & Hsplit & Hfirst).
      exists before, after. repeat split; [exact Hsplit| |exact Hfirst].
      set_solver. }
  split; [apply keepFirst_duplicates_length|].
  split.
  { apply List.Forall_forall. intros d Hd. apply in_map_iff in Hd as (m & <- & _).
    reflexivity. }
  assert (Hrun : writeSealedClass env name info du st =
     bind (emit (StartSealedClass name info (sealedUnion du)))
       (fun _ =>
          bind (for_of kept
                  (fun _ m => writeSealedClass_inner env name (sealedUnion du) m)
                  tt)
            (fun _ =>
               if hasCloseSealedClass (emitter env)
               then emit (CloseSealedClass name info (sealedUnion du))
               else ret tt))
       warned).
  { unfold writeSealedClass. rewrite bind_run.
    destruct (writeSealedClass_first_loop info (du_members du) ∅ [] st)
      as [seen' ->].
    reflexivity. }
  split; [exact Hrun|].
  set (st2 := set_printer
                (fun p => p ++ [StartSealedClass name info (sealedUnion du)])
                warned).
  assert (Hrun2 : writeSealedClass env name info du st =
     bind (for_of kept
             (fun _ m => writeSealedClass_inner env name (sealedUnion du) m) tt)
       (fun _ =>
          if hasCloseSealedClass (emitter env)
          then emit (CloseSealedClass name info (sealedUnion du))
          else ret tt)
       st2).
  { rewrite Hrun. reflexivity. }
  rewrite Hrun2, bind_run. clear Hrun Hrun2.
  destruct (writeSealedClass_second_loop name (sealedUnion du) kept st2)
    as (written & ds & Hsub & Hnames & Htasks & Hlength).
  exists written. split; [exact Hsub|].
  assert (Hstart : innerClassNames (printer st2) = innerClassNames (printer st)).
  { unfold st2, warned, innerClassNames. simpl. rewrite omap_app. simpl.
    apply app_nil_r. }
  assert (Htasks2 : microtasks st2 = microtasks st) by reflexivity.
  destruct (for_of kept _ tt st2) as [[e|[]] st3]; simpl in *.
  - split; [congruence|]. discriminate.
  - assert (Hall : microtasks st3 = microtasks st -> written = kept).
    { intros Hsame. apply sublist_same_length; [exact Hsub|].
      rewrite Htasks in Hsame.
      assert (ds = []) as ->.
      { apply (f_equal length) in Hsame. rewrite length_app in Hsame.
        destruct ds; [reflexivity|simpl in Hsame; lia]. }
      specialize (Hlength eq_refl). simpl in Hlength. lia. }
    destruct (hasCloseSealedClass (emitter env)); simpl.
    + unfold innerClassNames in *. rewrite omap_app. simpl.
      rewrite app_nil_r. split; [congruence|]. intros _. exact Hall.
    + split; [congruence|]. intros _. exact Hall.
Qed.

End SealedClass.

(** ** A data class that cannot be written *)

Section FailedDataClass.

Variable env : Env.

Local Abbreviation f := (formatter (emitter env)).
Local Abbreviation h := (helpers env).

Lemma writeType_failed (info : scip.SymbolInformation) (st st1 : Codegen)
  (e : Exn) :
  String.eqb (scip.display_name info) "Date" = false ->
  isStringTypeInfo h info = false ->
  isIgnoredInfo f info = false ->
  discriminatedUnions st !! scip.symbol info = None ->
  writeDataClassUnsafe env (typeName f info) info no_params
    (writeType_entered env info st) = (inl e, st1) ->
  writeType env info st =
  (inr tt,
   set_microtasks (fun _ => [])
     (set_reporter
        (fun ds => ds ++ (microtasks st ++ [failedToHandleClass info e]))
        (set_files
           (fun fs => fs ++ [(typeFile env info,
                              [StartType (typeName f info) info;
                               CloseType (typeName f info) info])])
           (set_printer
              (fun _ => [StartType (typeName f info) info;
                         CloseType (typeName f info) info])
              st1)))).
Proof.
  intros Hdate Hstring Hignored Hunion Hunsafe.
  pose proof (writeDataClassUnsafe_outcome env (typeName f info) info no_params
                (writeType_entered env info st)) as Hview.
  rewrite Hunsafe in Hview. unfold writer_view in Hview.
  injection Hview as Hprinter Hmicrotasks Hfiles _ _.
  unfold writeType, aliasType. rewrite Hdate, Hstring, Hignored.
  unfold writeType_body, bind, modify, startDocument, emit, get, ret,
    not_awaited, writeDataClass, try_catch, writeFile, run_microtasks, defer.
  simpl. rewrite Hunion.
  change (set_printer _ (set_printer _ (set_writeTypeCalls _ st)))
    with (writeType_entered env info st).
  rewrite Hunsafe. simpl.
  unfold set_microtasks, set_reporter, set_files, set_printer, typeFile. simpl.
  rewrite Hprinter, Hmicrotasks, Hfiles. simpl. reflexivity.
Qed.

(** C2, as the code has it. When the writing of the data class of a queued
    symbol raises, [writeDataClass] catches the exception; an [Error]
    against the symbol is recorded when [writeType] yields; the file of the
    symbol is written all the same, with the opening and the closing of the
    type and no data class in between; the symbol is marked as generated and
    the loop of [run] goes on with the rest of the queue. *)
Theorem drain_failed_data_class (fuel : nat) (st st1 : Codegen)
  (rest : list scip.SymbolInformation) (info : scip.SymbolInformation)
  (e : Exn) :
  queue st = rest ++ [info] ->
  scip.symbol info ∉ generatedSymbols st ->
  String.eqb (scip.display_name info) "Date" = false ->
  isStringTypeInfo h info = false ->
  isIgnoredInfo f info = false ->
  discriminatedUnions st !! scip.symbol info = None ->
  writeDataClassUnsafe env (typeName f info) info no_params
    (writeType_entered env info (set_queue (fun _ => rest) st)) = (inl e, st1) ->
  exists st2,
    drain env (S fuel) st = drain env fuel st2
    /\ writeDataClass env (typeName f info) info no_params
         (writeType_entered env info (set_queue (fun _ => rest) st)) =
       (inr tt, set_microtasks (fun ds => ds ++ [failedToHandleClass info e]) st1)
    /\ reporter st2 =
       reporter st1 ++ microtasks st ++ [failedToHandleClass info e]
    /\ severity (failedToHandleClass info e) = Severity.Error
    /\ diag_symbol (failedToHandleClass info e) = scip.symbol info
    /\ files st2 =
       files st ++ [(typeFile env info,
                     [StartType (typeName f info) info;
                      CloseType (typeName f info) info])]
    /\ generatedSymbols st2 = {[scip.symbol info]} ∪ generatedSymbols st
    /\ queue st2 = queue st1.
Proof.
  intros Hqueue Hnew Hdate Hstring Hignored Hunion Hunsafe.
  pose proof (writeDataClassUnsafe_outcome env (typeName f info) info no_params
                (writeType_entered env info (set_queue (fun _ => rest) st)))
    as Hview.
  rewrite Hunsafe in Hview. unfold writer_view in Hview.
  injection Hview as _ _ Hfiles Hgenerated _.
  eexists. split.
  - cbn [drain]. rewrite bind_run. unfold get at 1. cbn beta iota.
    rewrite Hqueue, pop_push. rewrite bind_run. unfold modify at 1.
    cbn beta iota. rewrite bool_decide_eq_false_2 by exact Hnew.
    rewrite !bind_run.
    rewrite (writeType_failed info (set_queue (fun _ => rest) st) st1 e
               Hdate Hstring Hignored Hunion Hunsafe).
    unfold modify at 1. cbn beta iota. reflexivity.
  - split.
    { unfold writeDataClass, try_catch. rewrite Hunsafe. reflexivity. }
    simpl. rewrite Hfiles, Hgenerated. repeat split.
Qed.

End FailedDataClass.

Lemma drain_failed_data_class_witness :
  exists st2,
    drain Sample.env 1 (set_queue (fun _ => [Sample.Broken]) new_Codegen) =
    drain Sample.env 0 st2 /\
    files st2 =
    [("out/Broken.kt",
      [StartType "Broken" Sample.Broken; CloseType "Broken" Sample.Broken])].
Proof.
  destruct (drain_failed_data_class Sample.env 0
              (set_queue (fun _ => [Sample.Broken]) new_Codegen)
              (writeType_entered Sample.env Sample.Broken new_Codegen)
              [] Sample.Broken
              (Thrown TypeError "not a value signature: Broken#run."))
    as (st2 & Hdrain & _ & _ & _ & _ & Hfiles & _).
  - reflexivity.
  - vm_compute. set_solver.
  - reflexivity.
  - reflexivity.
  - reflexivity.
  - reflexivity.
  - vm_compute. reflexivity.
  - exists st2. split; [exact Hdrain | exact Hfiles].
Defined.

(** C2, as the claim has it, fails on [Broken]: the writing of its data
    class raises, and its file is written nonetheless. *)
Lemma writeType_file_of_failed_class :
  fst (writeDataClassUnsafe Sample.env "Broken" Sample.Broken no_params
         (writeType_entered Sample.env Sample.Broken new_Codegen)) =
  inl (Thrown TypeError "not a value signature: Broken#run.") /\
  files (snd (writeType Sample.env Sample.Broken new_Codegen)) =
  [("out/Broken.kt",
    [StartType "Broken" Sample.Broken; CloseType "Broken" Sample.Broken])].
Proof.
  vm_compute. split; reflexivity.
Qed.

(** ** Each symbol is written once *)

Lemma respects_weaken {A} (R R' : Codegen -> Codegen -> Prop) (m : M A) :
  (forall st st', R st st' -> R' st st') -> respects R m -> respects R' m.
Proof. intros HR Hm st. apply HR, Hm. Qed.

#[local] Instance document_grows_preorder : PreOrder document_grows.
Proof.
  split.
  - intros st. split; [reflexivity|]. split; [reflexivity|].
    exists []. rewrite app_nil_r. reflexivity.
  - intros st1 st2 st3 (Hlog1 & Hfiles1 & added1 & Hp1)
      (Hlog2 & Hfiles2 & added2 & Hp2).
    split; [congruence|]. split; [congruence|].
    exists (added1 ++ added2). rewrite Hp2, Hp1, app_assoc. reflexivity.
Qed.

Lemma untouched_grows (st st' : Codegen) :
  same_view writer_view st st' -> document_grows st st'.
Proof.
  unfold same_view, writer_view, document_grows, log_view.
  intros [= Hprinter _ Hfiles Hgenerated Hcalls].
  rewrite Hprinter, Hfiles, Hgenerated, Hcalls.
  split; [reflexivity|]. split; [reflexivity|].
  exists []. rewrite app_nil_r. reflexivity.
Qed.

Lemma emit_grows (e : Emitted) : respects document_grows (emit e).
Proof.
  intros st. split; [reflexivity|]. split; [reflexivity|].
  exists [e]. reflexivity.
Qed.

Lemma defer_grows (d : Diagnostic) : respects document_grows (defer d).
Proof.
  intros st. split; [reflexivity|]. split; [reflexivity|].
  exists []. simpl. rewrite app_nil_r. reflexivity.
Qed.

Section Once.

Variable env : Env.

Local Abbreviation f := (formatter (emitter env)).
Local Abbreviation h := (helpers env).

Lemma writeDataClassUnsafe_grows (name : string) (info : scip.SymbolInformation)
  (params : DataClassParams) :
  respects document_grows (writeDataClassUnsafe env name info params).
Proof.
  unfold writeDataClassUnsafe. apply respects_bind.
  { apply (respects_weaken _ _ _ untouched_grows).
    destruct (scip.kind info); [apply warn_untouched | respects_auto]. }
  intros _. apply respects_bind.
  { apply (respects_weaken _ _ _ untouched_grows).
    apply writeDataClassUnsafe_members_untouched. }
  intros loop. apply emit_grows.
Qed.

Lemma writeDataClass_grows (name : string) (info : scip.SymbolInformation)
  (params : DataClassParams) :
  respects document_grows (writeDataClass env name info params).
Proof.
  unfold writeDataClass. apply respects_try_catch.
  - apply writeDataClassUnsafe_grows.
  - intros e. apply defer_grows.
Qed.

Lemma writeSealedClass_grows (name : string) (info : scip.SymbolInformation)
  (du : DiscriminatedUnion) :
  respects document_grows (writeSealedClass env name info du).
Proof.
  unfold writeSealedClass. apply respects_bind.
  { apply (respects_weaken _ _ _ untouched_grows). apply respects_for_of.
    intros acc member _. unfold writeSealedClass_member.
    respects_auto. apply warn_untouched. }
  intros handled. apply respects_bind; [apply emit_grows|]. intros _.
  apply respects_bind.
  { apply respects_for_of. intros _ member _. unfold writeSealedClass_inner.
    apply respects_bind; [apply respects_lift|]. intros info'.
    apply writeDataClass_grows. }
  intros _. destruct (hasCloseSealedClass (emitter env));
    [apply emit_grows | apply respects_ret].
Qed.

(** What [writeType] prints for a type is added to its document, and
    [writeType] goes on after it, whatever happened. *)
Lemma writeType_body_grows (name : string) (info : scip.SymbolInformation)
  (alias : option string) (st : Codegen) :
  exists st',
    writeType_body env name info alias st = (inr tt, st') /\
    document_grows st st'.
Proof.
  unfold writeType_body. destruct alias as [alias|].
  - eexists. split; [reflexivity|]. apply emit_grows.
  - rewrite bind_run. unfold get at 1. cbn beta iota.
    destruct (discriminatedUnions st !! scip.symbol info) as [du|].
    + eexists. split; [reflexivity|]. apply (writeSealedClass_grows name info du st).
    + eexists. split; [reflexivity|].
      apply (writeDataClass_grows name info no_params st).
Qed.

(** [writeType] returns normally; it logs its call, marks nothing as
    generated, and writes at most one file, for the symbol it was called
    on. *)
Lemma writeType_effect (info : scip.SymbolInformation) (st : Codegen) :
  exists st',
    writeType env info st = (inr tt, st') /\
    generatedSymbols st' = generatedSymbols st /\
    writeTypeCalls st' = writeTypeCalls st ++ [scip.symbol info] /\
    (typeFileSymbols (files st') = typeFileSymbols (files st) \/
     typeFileSymbols (files st') =
     typeFileSymbols (files st) ++ [scip.symbol info]).
Proof.
  unfold writeType. rewrite bind_run. unfold modify at 1. cbn beta iota.
  rewrite bind_run. unfold startDocument at 1, modify at 1. cbn beta iota.
  rewrite bind_run.
  set (st0 := set_printer (fun _ => [])
                (set_writeTypeCalls (fun log => log ++ [scip.symbol info]) st)).
  assert (Halias : exists alias st1,
            aliasType env info st0 = (inr alias, st1) /\
            log_view st1 = log_view st0 /\ files st1 = files st0 /\
            printer st1 = []).
  { unfold aliasType. destruct (String.eqb _ "Date").
    { eexists _, _. split; [reflexivity|]. repeat split. }
    destruct (isStringTypeInfo h info); eexists _, _;
      (split; [reflexivity|]); repeat split. }
  destruct Halias as (alias & st1 & -> & Hlog1 & Hfiles1 & Hprinter1).
  destruct (isIgnoredInfo f info).
  { eexists. split; [reflexivity|]. unfold log_view in Hlog1.
    injection Hlog1 as -> -> ->. simpl. repeat split. left. reflexivity. }
  rewrite bind_run. unfold emit at 1, modify at 1. cbn beta iota.
  rewrite bind_run.
  destruct (writeType_body_grows (typeName f info) info alias
              (set_printer (fun p => p ++ [StartType (typeName f info) info]) st1))
    as (st2 & -> & Hlog2 & Hfiles2 & added & Hprinter2).
  eexists. split; [reflexivity|].
  unfold log_view in Hlog1, Hlog2. simpl in Hlog2, Hfiles2, Hprinter2.
  injection Hlog2 as Hgenerated2 Hcalls2 _.
  injection Hlog1 as Hgenerated1 Hcalls1 _.
  simpl. rewrite Hgenerated2, Hgenerated1, Hcalls2, Hcalls1.
  split; [reflexivity|]. split; [reflexivity|]. right.
  unfold typeFileSymbols. rewrite omap_app, Hfiles2, Hfiles1. simpl.
  unfold typeFileSymbol. simpl. rewrite Hprinter2, Hprinter1. reflexivity.
Qed.

Lemma written_once_snoc (st st' : Codegen) (symbol : string) :
  written_once st ->
  symbol ∉ generatedSymbols st ->
  generatedSymbols st' = {[symbol]} ∪ generatedSymbols st ->
  writeTypeCalls st' = writeTypeCalls st ++ [symbol] ->
  (typeFileSymbols (files st') = typeFileSymbols (files st) \/
   typeFileSymbols (files st') = typeFileSymbols (files st) ++ [symbol]) ->
  written_once st'.
Proof.
  intros (Hnodup & Hgenerated & Hfiles) Hnew Hgenerated' Hcalls' Hfiles'.
  unfold written_once. rewrite Hgenerated', Hcalls'. split; [|split].
  - apply NoDup_app. split; [exact Hnodup|]. split; [|apply NoDup_singleton].
    intros symbol' Hold Hin. apply list_elem_of_singleton in Hin. subst symbol'.
    apply Hnew, Hgenerated, Hold.
  - intros symbol' Hin. apply elem_of_app in Hin as [Hold|Hin].
    + apply elem_of_union. right. apply Hgenerated, Hold.
    + apply list_elem_of_singleton in Hin. subst symbol'. set_solver.
  - destruct Hfiles' as [->| ->].
    + apply sublist_inserts_r. exact Hfiles.
    + apply sublist_app; [exact Hfiles | reflexivity].
Qed.

(** The loop of [run] keeps [written_once], however long it runs. *)
Lemma drain_written_once (fuel : nat) (st : Codegen) :
  written_once st -> written_once (snd (drain env fuel st)).
Proof.
  revert st. induction fuel as [|fuel IH]; intros st Hst.
  - simpl. rewrite bind_run. unfold get. cbn beta iota.
    destruct (pop (queue st)) as [[info rest]|]; exact Hst.
  - cbn [drain]. rewrite bind_run. unfold get at 1. cbn beta iota.
    destruct (pop (queue st)) as [[info rest]|]; [|exact Hst].
    rewrite bind_run. unfold modify at 1. cbn beta iota. rewrite bind_run.
    destruct (bool_decide (scip.symbol info ∈ generatedSymbols st)) eqn:Hseen.
    + unfold ret at 1. cbn beta iota. apply IH. exact Hst.
    + apply bool_decide_eq_false in Hseen. rewrite bind_run.
      destruct (writeType_effect info (set_queue (fun _ => rest) st))
        as (st1 & -> & Hgenerated & Hcalls & Hfiles).
      unfold modify at 1. cbn beta iota. apply IH.
      eapply (written_once_snoc (set_queue (fun _ => rest) st)).
      * exact Hst.
      * exact Hseen.
      * simpl. rewrite Hgenerated. reflexivity.
      * simpl. rewrite Hcalls. reflexivity.
      * simpl. exact Hfiles.
Qed.

Lemma typeFileSymbols_other (fs : list (string * list Emitted))
  (file : string * list Emitted) :
  typeFileSymbol file = None ->
  typeFileSymbols (fs ++ [file]) = typeFileSymbols fs.
Proof.
  intros Hfile. unfold typeFileSymbols. rewrite omap_app. simpl.
  rewrite Hfile. apply app_nil_r.
Qed.

Lemma written_once_log_view (st st' : Codegen) :
  log_view st' = log_view st -> written_once st -> written_once st'.
Proof.
  unfold log_view, written_once. intros [= -> -> ->]. tauto.
Qed.

Lemma resetOutputPath_written_once (st : Codegen) :
  written_once st -> written_once (snd (resetOutputPath st)).
Proof.
  intros (Hnodup & Hgenerated & _). split; [exact Hnodup|].
  split; [exact Hgenerated|]. apply sublist_nil_l.
Qed.

Lemma writeNullAlias_log_view (st : Codegen) :
  log_view (snd (writeNullAlias env st)) = log_view st.
Proof.
  unfold log_view. simpl. rewrite typeFileSymbols_other; reflexivity.
Qed.

Lemma writeProtocolInterface_log_view
  (name requestSymbol notificationSymbol : string) (st : Codegen) :
  log_view (snd (writeProtocolInterface env name requestSymbol
                   notificationSymbol st)) = log_view st.
Proof.
  unfold writeProtocolInterface. rewrite bind_run.
  unfold startDocument at 1, modify at 1. cbn beta iota. rewrite bind_run.
  set (st0 := set_printer (fun _ => []) st).
  assert (Hstart : writer_view st0 =
                   ([], microtasks st, files st, generatedSymbols st,
                    writeTypeCalls st)) by reflexivity.
  match goal with
  | |- context [for_of ?xs ?body [] st0] =>
      assert (Hrequests : respects (same_view writer_view) (for_of xs body []))
  end.
  { apply respects_for_of. intros requests request _. respects_step.
    { respects_auto. }
    respects_step; [respects_auto|]. destruct a as [resultType|].
    - respects_auto; apply queueClassLikeType_untouched.
    - respects_auto. apply error_untouched. }
  specialize (Hrequests st0). unfold same_view in Hrequests.
  destruct (for_of _ _ [] st0) as [[e|requests] st1]; simpl in Hrequests.
  { unfold log_view. unfold writer_view in *. simpl. congruence. }
  rewrite bind_run.
  match goal with
  | |- context [for_of ?xs ?body [] st1] =>
      assert (Hnotifications :
                respects (same_view writer_view) (for_of xs body []))
  end.
  { apply respects_for_of. intros notifications notification _.
    respects_auto. apply queueClassLikeType_untouched. }
  specialize (Hnotifications st1). unfold same_view in Hnotifications.
  destruct (for_of _ _ [] st1) as [[e|notifications] st2];
    simpl in Hnotifications.
  { unfold log_view. unfold writer_view in *. simpl. congruence. }
  rewrite Hrequests, Hstart in Hnotifications.
  unfold writer_view in Hnotifications.
  injection Hnotifications as Hprinter _ Hfiles Hgenerated Hcalls.
  unfold log_view. simpl.
  rewrite typeFileSymbols_other; [congruence|].
  unfold typeFileSymbol. simpl. rewrite Hprinter. reflexivity.
Qed.

Lemma writeSerializationAdapters_log_view (st : Codegen) :
  log_view (snd (writeSerializationAdapters env st)) = log_view st.
Proof.
  unfold writeSerializationAdapters. rewrite bind_run. unfold get at 1.
  cbn beta iota. destruct (size (discriminatedUnions st) =? 0)%nat;
    [reflexivity|].
  rewrite bind_run. unfold startDocument at 1, modify at 1. cbn beta iota.
  rewrite bind_run.
  set (st0 := set_printer (fun _ => []) st).
  match goal with
  | |- context [for_of ?xs ?body [] st0] =>
      assert (Hnames : respects (same_view (fun st => st)) (for_of xs body []))
  end.
  { apply respects_for_of. intros names symbol _. respects_auto. }
  specialize (Hnames st0). unfold same_view in Hnames.
  destruct (for_of _ _ [] st0) as [[e|names] st1]; simpl in Hnames;
    subst st1; [reflexivity|].
  unfold log_view. simpl. rewrite typeFileSymbols_other; reflexivity.
Qed.

Lemma writeStringLiteralConstants_log_view (st : Codegen) :
  log_view (snd (writeStringLiteralConstants env st)) = log_view st.
Proof.
  unfold writeStringLiteralConstants. rewrite bind_run. unfold get at 1.
  cbn beta iota. destruct (size (stringLiteralConstants st) =? 0)%nat;
    [reflexivity|].
  unfold log_view. simpl. rewrite typeFileSymbols_other; reflexivity.
Qed.

(** C1. During [run], every call of [writeType] is for a symbol it was not
    called for before, and the symbols whose type is written to a file are
    among those calls, in their order: no symbol is written to more than one
    file, however often it was queued and however long the loop runs. *)
Theorem run_writes_each_symbol_once (fuel : nat) (st : Codegen) :
  written_once st ->
  NoDup (writeTypeCalls (snd (run env fuel st)))
  /\ sublist (typeFileSymbols (files (snd (run env fuel st))))
       (writeTypeCalls (snd (run env fuel st)))
  /\ NoDup (typeFileSymbols (files (snd (run env fuel st)))).
Proof.
  intros Hst.
  assert (Honce : written_once (snd (run env fuel st))).
  { unfold run. rewrite bind_run.
    apply resetOutputPath_written_once in Hst.
    destruct (resetOutputPath st) as [[e|[]] st1]; [exact Hst|].
    simpl in Hst. rewrite bind_run.
    apply (written_once_log_view _ _ (writeNullAlias_log_view st1)) in Hst.
    destruct (writeNullAlias env st1) as [[e|[]] st2]; [exact Hst|].
    simpl in Hst. rewrite bind_run.
    apply (written_once_log_view _ _
             (writeProtocolInterface_log_view "CodyAgentServer"
                (client_requests (protocolSymbols env))
                (client_notifications (protocolSymbols env)) st2)) in Hst.
    destruct (writeProtocolInterface env "CodyAgentServer" _ _ st2)
      as [[e|[]] st3]; [exact Hst|].
    simpl in Hst. rewrite bind_run.
    apply (written_once_log_view _ _
             (writeProtocolInterface_log_view "CodyAgentClient"
                (server_requests (protocolSymbols env))
                (server_notifications (protocolSymbols env)) st3)) in Hst.
    destruct (writeProtocolInterface env "CodyAgentClient" _ _ st3)
      as [[e|[]] st4]; [exact Hst|].
    simpl in Hst. rewrite bind_run.
    apply (drain_written_once fuel) in Hst.
    destruct (drain env fuel st4) as [[e|emptied] st5]; [exact Hst|].
    simpl in Hst. destruct emptied; [|exact Hst].
    rewrite bind_run.
    apply (written_once_log_view _ _
             (writeSerializationAdapters_log_view st5)) in Hst.
    destruct (writeSerializationAdapters env st5) as [[e|[]] st6];
      [exact Hst|].
    simpl in Hst. rewrite bind_run.
    apply (written_once_log_view _ _
             (writeStringLiteralConstants_log_view st6)) in Hst.
    destruct (writeStringLiteralConstants env st6) as [[e|[]] st7]; exact Hst. }
  destruct Honce as (Hnodup & _ & Hfiles).
  split; [exact Hnodup|]. split; [exact Hfiles|].
  eapply sublist_NoDup; eassumption.
Qed.

End Once.

Lemma run_writes_each_symbol_once_witness :
  NoDup (writeTypeCalls
           (snd (run Sample.env 3
                   (set_queue (fun _ => [Sample.FileInfo; Sample.FileInfo])
                      new_Codegen)))).
Proof.
  apply (run_writes_each_symbol_once Sample.env 3
           (set_queue (fun _ => [Sample.FileInfo; Sample.FileInfo]) new_Codegen)).
  split; [constructor|]. split; [intros symbol Hin; inversion Hin|].
  constructor.
Defined.

(** ** The discriminator of a union *)

Section Maps.

Context {V : Type}.

Implicit Types (m : list (string * V)) (k : string) (v : V).

Lemma Map_get_cons m k k' v :
  Map_get ((k', v) :: m) k = if String.eqb k' k then Some v else Map_get m k.
Proof. unfold Map_get. simpl. destruct (String.eqb k' k); reflexivity. Qed.

Lemma Map_get_set m k k' v :
  Map_get (Map_set m k v) k' =
  if String.eqb k k' then Some v else Map_get m k'.
Proof.
  induction m as [|[k0 v0] m IH]; simpl.
  - rewrite Map_get_cons. reflexivity.
  - destruct (String.eqb k0 k) eqn:Hk0.
    + apply String.eqb_eq in Hk0. subst k0. rewrite !Map_get_cons.
      destruct (String.eqb k k'); reflexivity.
    + rewrite !Map_get_cons, IH.
      destruct (String.eqb k0 k') eqn:Hk0'; [|reflexivity].
      apply String.eqb_eq in Hk0'. subst k0.
      rewrite String.eqb_sym, Hk0. reflexivity.
Qed.

Lemma Map_get_key m k v : Map_get m k = Some v -> In k (map fst m).
Proof.
  induction m as [|[k0 v0] m IH]; [discriminate|].
  rewrite Map_get_cons. destruct (String.eqb k0 k) eqn:Hk0.
  - apply String.eqb_eq in Hk0. left. exact Hk0.
  - intros Hget. right. apply IH, Hget.
Qed.

Lemma Map_set_keys m k v :
  List.NoDup (map fst m) -> List.NoDup (map fst (Map_set m k v)).
Proof.
  induction m as [|[k0 v0] m IH]; simpl.
  - intros _. constructor; [intros []|constructor].
  - intros Hnodup. inversion Hnodup as [|? ? Hfresh Hrest]; subst.
    destruct (String.eqb k0 k) eqn:Hk0.
    + apply String.eqb_eq in Hk0. subst k0. simpl. constructor; assumption.
    + simpl. constructor; [|apply IH, Hrest].
      intros Hin. apply Hfresh. clear -Hin Hk0.
      induction m as [|[k1 v1] m IH]; simpl in *.
      * destruct Hin as [Heq|[]]. subst k0.
        rewrite String.eqb_refl in Hk0. discriminate.
      * destruct (String.eqb k1 k) eqn:Hk1; simpl in Hin.
        { apply String.eqb_eq in Hk1. subst k1.
          destruct Hin as [Heq|Hin]; [|right; exact Hin].
          subst k0. rewrite String.eqb_refl in Hk0. discriminate. }
        destruct Hin as [Heq|Hin]; [left; exact Heq|right; apply IH, Hin].
Qed.

(** The first entry whose value passes a test, when the entry of one key
    passes it and no entry of another key does. *)
Lemma Map_find_only m k v (test : V -> bool) :
  List.NoDup (map fst m) ->
  Map_get m k = Some v ->
  test v = true ->
  (forall k' v', k' <> k -> Map_get m k' = Some v' -> test v' = false) ->
  List.find (fun entry => test (snd entry)) m = Some (k, v).
Proof.
  induction m as [|[k0 v0] m IH]; [discriminate|].
  intros Hnodup Hget Htest Hothers.
  inversion Hnodup as [|? ? Hfresh Hrest]; subst.
  rewrite Map_get_cons in Hget. simpl.
  destruct (String.eqb k0 k) eqn:Hk0.
  - apply String.eqb_eq in Hk0. subst k0. injection Hget as ->.
    rewrite Htest. reflexivity.
  - assert (Hk0' : k0 <> k).
    { intros ->. rewrite String.eqb_refl in Hk0. discriminate. }
    rewrite (Hothers k0 v0 Hk0').
    + apply IH; [exact Hrest | exact Hget | exact Htest |].
      intros k' v' Hk' Hget'. apply (Hothers k' v' Hk').
      rewrite Map_get_cons. destruct (String.eqb k0 k') eqn:Hk0k'; [|exact Hget'].
      apply String.eqb_eq in Hk0k'. subst k'.
      apply Map_get_key in Hget'. contradiction.
    + rewrite Map_get_cons, String.eqb_refl. reflexivity.
Qed.

End Maps.

Section Discriminator.

Variable env : Env.

Local Abbreviation h := (helpers env).

Lemma discriminatedUnion_property_literal (unionType : scip.Type_)
  (maps : list (string * nat) * list (string * list DiscriminatedUnionMember))
  (propertySymbol : string) :
  discriminatedUnion_property env unionType maps propertySymbol =
  res_bind (literalProperty env propertySymbol)
    (fun literal => inr (from_option (register unionType maps) maps literal)).
Proof.
  destruct maps as [candidates memberss].
  unfold discriminatedUnion_property, literalProperty.
  destruct (symtab_info (symtab env) propertySymbol) as [e|property];
    [reflexivity|]. simpl.
  destruct (value_signature_tpe property) as [e|tpe]; [reflexivity|]. simpl.
  destruct (defined "has_constant_type" tpe) as [e|tpe']; [reflexivity|]. simpl.
  destruct (stringLiteralType h tpe') as [literal|]; [|reflexivity].
  destruct (truthy literal); reflexivity.
Qed.

Lemma discriminatedUnion_member_loop (unionType : scip.Type_)
  (propertySymbols : list string) (literals : list (string * string))
  (maps : list (string * nat) * list (string * list DiscriminatedUnionMember)) :
  literalProperties env propertySymbols = inr literals ->
  res_for_of propertySymbols (discriminatedUnion_property env unionType) maps =
  inr (fold_left (register unionType) literals maps).
Proof.
  revert literals maps.
  induction propertySymbols as [|propertySymbol rest IH];
    intros literals maps; simpl.
  - intros [= <-]. reflexivity.
  - rewrite discriminatedUnion_property_literal.
    destruct (literalProperty env propertySymbol) as [e|literal];
      [discriminate|]. simpl.
    destruct (literalProperties env rest) as [e|literals']; [discriminate|].
    simpl. intros [= <-]. rewrite (IH literals' _ eq_refl).
    destruct literal as [literal|]; reflexivity.
Qed.

Lemma discriminatedUnion_tally_entries (members : list KindMember)
  (maps : list (string * nat) * list (string * list DiscriminatedUnionMember)) :
  Forall (fun d =>
            literalProperties env (properties h (km_type d)) =
            inr (km_literals d)) members ->
  res_for_of (map km_type members)
    (fun maps unionType =>
       res_for_of (properties h unionType)
         (discriminatedUnion_property env unionType) maps) maps =
  inr (fold_left (fun maps entry => register (fst entry) maps (snd entry))
         (literalEntries members) maps).
Proof.
  intros Hmembers. revert maps.
  induction Hmembers as [|d members Hd _ IH]; intros maps; simpl.
  - reflexivity.
  - rewrite (discriminatedUnion_member_loop _ _ _ _ Hd). simpl. rewrite IH.
    unfold literalEntries. simpl. rewrite fold_left_app. f_equal. f_equal.
    clear. generalize maps. generalize (km_type d).
    induction (km_literals d) as [|literal literals IHl];
      intros unionType maps'; simpl; [reflexivity|apply IHl].
Qed.

Lemma entriesNamed_app (name : string)
  (es1 es2 : list (scip.Type_ * (string * string))) :
  entriesNamed name (es1 ++ es2) = entriesNamed name es1 ++ entriesNamed name es2.
Proof. apply List.filter_app. Qed.

Lemma tallied_entries (entries : list (scip.Type_ * (string * string))) :
  tallied entries
    (fold_left (fun maps entry => register (fst entry) maps (snd entry))
       entries ([], [])).
Proof.
  induction entries as [|entry entries IH] using rev_ind.
  - split; [constructor|]. intros name. split; reflexivity.
  - rewrite fold_left_app. simpl.
    destruct IH as [Hkeys Hmaps].
    set (maps := fold_left _ entries ([], [])) in *.
    split; [apply Map_set_keys, Hkeys|].
    intros name. unfold register. simpl.
    rewrite !Map_get_set. unfold membersNamed.
    rewrite !entriesNamed_app, length_app, map_app. simpl.
    destruct (Hmaps name) as [Hcount Hmembers].
    destruct (Hmaps (fst (snd entry))) as [Hcount' Hmembers'].
    destruct (String.eqb (fst (snd entry)) name) eqn:Hname.
    + apply String.eqb_eq in Hname. subst name.
      rewrite Hcount', Hmembers'. simpl.
      assert ((length (entriesNamed (fst (snd entry)) entries) + 1 =? 0)%nat
              = false) as -> by (apply Nat.eqb_neq; lia).
      unfold membersNamed.
      destruct (length (entriesNamed (fst (snd entry)) entries) =? 0)%nat
        eqn:Hnone; simpl; split; try reflexivity.
      all: apply Nat.eqb_eq, List.length_zero_iff_nil in Hnone.
      all: rewrite Hnone; reflexivity.
    + rewrite !app_nil_r, Nat.add_0_r. split; [exact Hcount | exact Hmembers].
Qed.

Lemma entriesNamed_pair (name : string) (unionType : scip.Type_)
  (literals : list (string * string)) :
  entriesNamed name (map (pair unionType) literals) =
  map (pair unionType) (named name literals).
Proof.
  unfold entriesNamed, named.
  induction literals as [|literal literals IH]; simpl; [reflexivity|].
  destruct (String.eqb (fst literal) name); simpl; rewrite IH; reflexivity.
Qed.

Lemma entriesNamed_literalEntries (name : string) (members : list KindMember) :
  length (entriesNamed name (literalEntries members)) = tally name members.
Proof.
  unfold tally, literalEntries, named.
  induction members as [|d members IH]; simpl; [reflexivity|].
  rewrite entriesNamed_app, List.filter_app, !length_app, IH. f_equal.
  rewrite entriesNamed_pair. apply length_map.
Qed.

Lemma membersNamed_kind (members : list KindMember) :
  Forall (fun d => named "kind" (km_literals d) = [("kind", km_kind d)])
    members ->
  membersNamed "kind" (literalEntries members) =
  map (fun d => {| value := km_kind d; member_type := km_type d |}) members.
Proof.
  unfold membersNamed, literalEntries.
  induction 1 as [|d members Hd _ IH]; simpl; [reflexivity|].
  rewrite entriesNamed_app, map_app, IH, entriesNamed_pair, Hd. reflexivity.
Qed.

Lemma tally_kind (members : list KindMember) :
  Forall (fun d => named "kind" (km_literals d) = [("kind", km_kind d)])
    members ->
  tally "kind" members = length members.
Proof.
  intros Hmembers. rewrite <- entriesNamed_literalEntries.
  transitivity (length (membersNamed "kind" (literalEntries members))).
  - unfold membersNamed. symmetry. apply length_map.
  - rewrite membersNamed_kind by exact Hmembers. apply length_map.
Qed.

(** When every member of the flattened union has exactly one property named
    [kind] with a non-empty string literal, and no other name is tallied as
    often as there are members, [discriminatedUnion] returns the union
    discriminated by [kind], with one member for each member of the union,
    in their order. *)
Lemma discriminatedUnion_kind (info : scip.SymbolInformation)
  (types : list scip.Type_) (members : list KindMember) :
  scip.signature info =
    Some (scip.type_signature (Some (scip.union_type types))) ->
  types <> [] ->
  members <> [] ->
  unionTypes env (scip.union_type types) = inr (map km_type members) ->
  Forall (fun d =>
            literalProperties env (properties h (km_type d)) =
            inr (km_literals d)) members ->
  Forall (fun d => named "kind" (km_literals d) = [("kind", km_kind d)])
    members ->
  (forall name, name <> "kind" -> tally name members <> length members) ->
  discriminatedUnion env info =
  inr (Some {| du_symbol := scip.symbol info;
               discriminatorDisplayName := "kind";
               du_members :=
                 map (fun d => {| value := km_kind d; member_type := km_type d |})
                   members |}).
Proof.
  intros Hsignature Htypes Hmembers Hflat Hliterals Hkind Hothers.
  unfold discriminatedUnion. rewrite Hsignature. simpl.
  destruct types as [|type types]; [contradiction|]. simpl length.
  cbn [Nat.eqb]. rewrite Hflat. simpl.
  unfold discriminatedUnion_tally.
  rewrite (discriminatedUnion_tally_entries members ([], []) Hliterals). simpl.
  pose proof (tallied_entries (literalEntries members)) as [Hkeys Hmaps].
  destruct (fold_left _ (literalEntries members) ([], []))
    as [candidates memberss]. simpl in Hkeys, Hmaps.
  rewrite length_map.
  assert (Hcount : forall name,
            Map_get candidates name =
            if (tally name members =? 0)%nat then None
            else Some (tally name members)).
  { intros name. destruct (Hmaps name) as [Hcount _].
    rewrite entriesNamed_literalEntries in Hcount. exact Hcount. }
  assert (Hpositive : (tally "kind" members =? 0)%nat = false).
  { rewrite (tally_kind members Hkind). apply Nat.eqb_neq.
    destruct members; [contradiction|]. simpl. lia. }
  rewrite (Map_find_only candidates "kind" (length members)
             (fun count => (count =? length members)%nat)).
  - destruct (Hmaps "kind") as [_ Hmemberss].
    rewrite entriesNamed_literalEntries, Hpositive in Hmemberss.
    rewrite Hmemberss. simpl. rewrite (membersNamed_kind members Hkind).
    reflexivity.
  - exact Hkeys.
  - rewrite Hcount, Hpositive, (tally_kind members Hkind). reflexivity.
  - apply Nat.eqb_refl.
  - intros name count Hname. rewrite Hcount.
    destruct (tally name members =? 0)%nat; [discriminate|].
    intros [= <-]. apply Nat.eqb_neq, Hothers, Hname.
Qed.

End Discriminator.

(** The union [Result] of the sample graph is discriminated by [kind]. *)
Example discriminatedUnion_Result :
  discriminatedUnion Sample.env Sample.Result =
  inr (Some {| du_symbol := "Result#";
               discriminatorDisplayName := "kind";
               du_members :=
                 [{| value := "ok"; member_type := Sample.Ok_ |};
                  {| value := "error"; member_type := Sample.Err_ |}] |}).
Proof.
  apply (discriminatedUnion_kind Sample.env Sample.Result
           [Sample.Ok_; Sample.Err_]
           [{| km_type := Sample.Ok_; km_literals := [("kind", "ok")];
               km_kind := "ok" |};
            {| km_type := Sample.Err_; km_literals := [("kind", "error")];
               km_kind := "error" |}]).
  - reflexivity.
  - discriminate.
  - discriminate.
  - reflexivity.
  - repeat constructor.
  - repeat constructor.
  - intros name Hname. unfold tally, named. cbn -[String.eqb].
    destruct (String.eqb "kind" name) eqn:Heq.
    + apply String.eqb_eq in Heq. congruence.
    + cbn. lia.
Qed.

(** C4 at [{ kind: '' } | { kind: 'b' }]: both members have a property
    [kind] whose type is a string literal, the two literals differ, no other
    property is there, and yet no discriminated union is returned: the
    empty literal is taken for no literal, so that [kind] is tallied once for
    two members. *)
Theorem discriminatedUnion_empty_literal :
  symbols Sample.table !! "Blank1#kind." =
    Some (Sample.prop "Blank1#kind." "kind" (Sample.literal EmptyString)) /\
  symbols Sample.table !! "Blank2#kind." =
    Some (Sample.prop "Blank2#kind." "kind" (Sample.literal "b")) /\
  stringLiteralType Sample.base (Sample.literal EmptyString) = Some EmptyString /\
  stringLiteralType Sample.base (Sample.literal "b") = Some "b" /\
  unionTypes Sample.env
    (scip.union_type [scip.structural_type ["Blank1#kind."];
                      scip.structural_type ["Blank2#kind."]]) =
  inr [scip.structural_type ["Blank1#kind."];
       scip.structural_type ["Blank2#kind."]] /\
  discriminatedUnion Sample.env Sample.Blank = inr None.
Proof.
  vm_compute. repeat split.
Qed.

(** * Further properties *)

(** ** What the engine only adds to *)

#[local] Instance accumulates_preorder : PreOrder accumulates.
Proof.
  split.
  - intros st. unfold accumulates. repeat split; reflexivity.
  - intros st1 st2 st3 (?&?&?&?&?&?) (?&?&?&?&?&?). unfold accumulates.
    repeat split; etrans; eassumption.
Qed.

Lemma isClassLike_mono (env : Env) (st st' : Codegen)
  (info : scip.SymbolInformation) :
  dom (discriminatedUnions st) ⊆ dom (discriminatedUnions st') ->
  isClassLike env st info = true -> isClassLike env st' info = true.
Proof.
  unfold isClassLike. intros Hdom H.
  apply orb_true_iff in H as [H|H]; [rewrite H; reflexivity|].
  apply bool_decide_eq_true in H.
  apply orb_true_iff. right. apply bool_decide_eq_true. set_solver.
Qed.

#[local] Instance grows_preorder (env : Env) : PreOrder (grows env).
Proof.
  split.
  - intros st. split; [|reflexivity].
    exists []. rewrite app_nil_r. split; [reflexivity|constructor].
  - intros st1 st2 st3 [(a1&Hq1&Ha1) H12] [(a2&Hq2&Ha2) H23].
    split; [|etrans; eassumption].
    exists (a1 ++ a2). split.
    + rewrite Hq2, Hq1, app_assoc. reflexivity.
    + apply Forall_app. split; [|exact Ha2].
      eapply Forall_impl; [exact Ha1|]. intros info.
      apply isClassLike_mono. apply H23.
Qed.

Lemma accumulates_grows (env : Env) (st st' : Codegen) :
  queue st' = queue st -> accumulates st st' -> grows env st st'.
Proof.
  intros Hq H. split; [|exact H].
  exists []. rewrite app_nil_r. split; [exact Hq|constructor].
Qed.

Lemma grows_accumulates (env : Env) (st st' : Codegen) :
  grows env st st' -> accumulates st st'.
Proof. intros [_ H]. exact H. Qed.

(** A change of the state that only adds to what is accumulated. *)
Ltac accumulates_solve :=
  unfold accumulates; simpl;
  repeat split;
  first
    [ reflexivity
    | apply prefix_app_r; reflexivity
    | apply prefix_nil
    | set_solver ].

Ltac grows_step :=
  lazymatch goal with
  | |- respects _ (ret _) => apply respects_ret
  | |- respects _ (raise _) => apply respects_raise
  | |- respects _ (lift _) => apply respects_lift
  | |- respects _ get => apply respects_get
  | |- respects (grows _) (modify _) =>
      apply respects_modify; intros ?;
      apply accumulates_grows; [reflexivity|accumulates_solve]
  | |- respects accumulates (modify _) =>
      apply respects_modify; intros ?; accumulates_solve
  | |- respects _ (report _) => unfold report
  | |- respects _ (warn _ _) => unfold warn
  | |- respects _ (error _ _) => unfold error
  | |- respects _ (emit _) => unfold emit
  | |- respects _ (defer _) => unfold defer
  | |- respects _ startDocument => unfold startDocument
  | |- respects _ (writeFile _) => unfold writeFile
  | |- respects _ run_microtasks => unfold run_microtasks
  | |- respects _ (bind _ _) => apply respects_bind; [|intros ?]
  | |- respects _ (try_catch _ _) => apply respects_try_catch; [|intros ?]
  | |- respects _ (not_awaited _) => apply respects_not_awaited
  | |- respects _ (for_of _ _ _) => apply respects_for_of; intros ? ? _
  | |- respects _ (if ?b then _ else _) => destruct b
  | |- respects _ (match ?o with Some _ => _ | None => _ end) => destruct o
  end.

Ltac grows_auto := repeat grows_step.

Section Growth.

Variable env : Env.

Local Abbreviation f := (formatter (emitter env)).
Local Abbreviation h := (helpers env).

Lemma queue_push_grows (info : scip.SymbolInformation) :
  from_option scip.has_class_signature false (scip.signature info)
  || isStringTypeInfo h info = true ->
  respects (grows env) (queue_push info).
Proof.
  intros Hinfo st. unfold queue_push, modify. simpl.
  split; [|accumulates_solve].
  exists [info]. split; [reflexivity|].
  constructor; [|constructor].
  unfold isClassLike. rewrite Hinfo. reflexivity.
Qed.

Lemma queueClassLikeInfo_grows (info : scip.SymbolInformation) :
  respects (grows env) (queueClassLikeInfo env info).
Proof.
  unfold queueClassLikeInfo.
  destruct (scip.signature info) as [signature|] eqn:Hsig; [|grows_auto].
  destruct (scip.has_class_signature signature) eqn:Hclass.
  { apply queue_push_grows. rewrite Hsig. simpl. rewrite Hclass. reflexivity. }
  destruct (isStringTypeInfo h info) eqn:Hstring.
  { apply queue_push_grows. rewrite Hstring. apply orb_true_r. }
  apply respects_bind.
  { destruct (isNestedDiscriminatedUnion env); grows_auto. }
  intros [found|].
  { intros st. unfold bind, modify, queue_push. simpl.
    split.
    - exists [info]. split; [reflexivity|].
      constructor; [|constructor].
      unfold isClassLike. simpl. apply orb_true_iff. right.
      apply bool_decide_eq_true. set_solver.
    - accumulates_solve. }
  destruct signature; try solve [grows_auto].
  unfold queueClassLikeInfo_alias, queueClassLikeInfo_declarations.
  grows_auto.
  apply queue_push_grows. reflexivity.
Qed.

Lemma queueClassLikeType_grows (type : scip.Type_)
  (m : scip.SymbolInformation) (k : Role) :
  respects (grows env) (queueClassLikeType env type m k).
Proof.
  induction type as [symbol args IH|ls|ts IH|ts IH|c|ps r IH|]
    using scip.Type_nested_ind.
  - simpl. destruct (String.eqb symbol _).
    { destruct IH; [grows_auto | assumption]. }
    destruct (isRecord f symbol).
    { destruct IH as [|t0 ? H0 [|t1 ? H1 [|]]]; grows_auto; assumption. }
    destruct (from_option truthy false _); grows_auto.
    apply queueClassLikeInfo_grows.
  - apply queueClassLikeInfo_grows.
  - apply queueClassLikeInfo_grows.
  - rewrite queueClassLikeType_union.
    assert (Hnth : forall i,
              respects (grows env)
                (queueClassLikeType_nth env (nonNullableTypes env ts) i m k)).
    { intros i. unfold queueClassLikeType_nth.
      destruct (nth_error _ i) as [t|] eqn:Hi; [|grows_auto].
      apply nth_error_In, filter_In in Hi as [Hin _].
      rewrite List.Forall_forall in IH. apply IH. exact Hin. }
    grows_auto; apply Hnth.
  - simpl. grows_auto.
  - simpl. grows_auto.
  - simpl. grows_auto.
Qed.

Lemma writeDataClassUnsafe_grows_queue (name : string)
  (info : scip.SymbolInformation) (params : DataClassParams) :
  respects (grows env) (writeDataClassUnsafe env name info params).
Proof.
  unfold writeDataClassUnsafe, writeDataClassUnsafe_members.
  apply respects_bind.
  { destruct (scip.kind info); grows_auto. }
  intros _. apply respects_bind; [|intros ?; grows_auto].
  apply respects_for_of. intros acc memberSymbol _.
  unfold writeDataClassUnsafe_member. grows_auto.
  unfold writeDataClassUnsafe_field. grows_step; [grows_auto|].
  destruct a0; grows_auto.
  apply queueClassLikeType_grows.
Qed.

Lemma writeDataClass_grows_queue (name : string)
  (info : scip.SymbolInformation) (params : DataClassParams) :
  respects (grows env) (writeDataClass env name info params).
Proof.
  unfold writeDataClass. grows_auto. apply writeDataClassUnsafe_grows_queue.
Qed.

Lemma writeSealedClass_grows_queue (name : string)
  (info : scip.SymbolInformation) (du : DiscriminatedUnion) :
  respects (grows env) (writeSealedClass env name info du).
Proof.
  unfold writeSealedClass, writeSealedClass_member, writeSealedClass_inner.
  grows_auto. apply writeDataClass_grows_queue.
Qed.

Lemma writeType_grows (info : scip.SymbolInformation) :
  respects (grows env) (writeType env info).
Proof.
  unfold writeType, aliasType, writeType_body.
  grows_auto;
    first [apply writeSealedClass_grows_queue | apply writeDataClass_grows_queue].
Qed.

Lemma writeProtocolInterface_grows (name requestSymbol notificationSymbol : string) :
  respects (grows env)
    (writeProtocolInterface env name requestSymbol notificationSymbol).
Proof.
  unfold writeProtocolInterface.
  grows_auto; apply queueClassLikeType_grows.
Qed.

Lemma writeNullAlias_grows : respects (grows env) (writeNullAlias env).
Proof. unfold writeNullAlias. grows_auto. Qed.

Lemma writeSerializationAdapters_grows :
  respects (grows env) (writeSerializationAdapters env).
Proof. unfold writeSerializationAdapters. grows_auto. Qed.

Lemma writeStringLiteralConstants_grows :
  respects (grows env) (writeStringLiteralConstants env).
Proof. unfold writeStringLiteralConstants. grows_auto. Qed.

Lemma drain_accumulates (fuel : nat) : respects accumulates (drain env fuel).
Proof.
  induction fuel as [|fuel IH]; simpl.
  - grows_step; [grows_auto|]. destruct (pop _) as [[info rest]|]; grows_auto.
  - grows_step; [grows_auto|]. destruct (pop _) as [[info rest]|]; grows_auto;
      first [ exact IH
            | eapply respects_weaken;
              [apply (grows_accumulates env) | apply writeType_grows] ].
Qed.

End Growth.

Section Growth_properties.

Variable env : Env.

Local Abbreviation f := (formatter (emitter env)).
Local Abbreviation h := (helpers env).

(** X1. Whatever the type, the method and the state, and whether the call
    returns or raises, [queueClassLikeType] only pushes to the queue, and
    every information it pushes is one [writeType] has a rendering for: a
    class signature, a string type, or a type alias whose discriminated
    union was put on record. A queue of such informations stays one. *)
Theorem queueClassLikeType_queues_class_like (type : scip.Type_)
  (m : scip.SymbolInformation) (k : Role) (st : Codegen) :
  let st' := snd (queueClassLikeType env type m k st) in
  (exists added,
     queue st' = queue st ++ added /\
     Forall (fun info => isClassLike env st' info = true) added)
  /\ (Forall (fun info => isClassLike env st info = true) (queue st) ->
      Forall (fun info => isClassLike env st' info = true) (queue st')).
Proof.
  intros st'.
  destruct (queueClassLikeType_grows env type m k st)
    as [(added & Hqueue & Hadded) Hacc].
  fold st' in Hqueue, Hadded, Hacc.
  split; [exists added; split; assumption|].
  intros Hold. rewrite Hqueue. apply Forall_app. split; [|exact Hadded].
  eapply Forall_impl; [exact Hold|]. intros info.
  apply isClassLike_mono. apply Hacc.
Qed.

(** What [run] does once the protocol interfaces are written. *)
Lemma run_loop_accumulates (fuel : nat) :
  respects accumulates
    (let* emptied := drain env fuel in
     if emptied then
       writeSerializationAdapters env ;;
       writeStringLiteralConstants env ;;
       ret true
     else ret false).
Proof.
  assert (Hweak : forall (m : M unit),
            respects (grows env) m -> respects accumulates m).
  { intros m. apply respects_weaken. apply grows_accumulates. }
  apply respects_bind; [apply drain_accumulates|intros emptied].
  destruct emptied; [|apply respects_ret].
  apply respects_bind; [apply Hweak, writeSerializationAdapters_grows|intros _].
  apply respects_bind; [apply Hweak, writeStringLiteralConstants_grows|intros _].
  apply respects_ret.
Qed.

(** X2. [run] only adds to the discriminated unions on record, to the
    symbols marked as generated, to the string constants and to the log of
    [writeType], and it drops no diagnostic: the diagnostics reported before
    are a prefix of those reported after, whether [run] returns or raises. *)
Theorem run_accumulates (fuel : nat) (st : Codegen) :
  let st' := snd (run env fuel st) in
  dom (discriminatedUnions st) ⊆ dom (discriminatedUnions st') /\
  generatedSymbols st ⊆ generatedSymbols st' /\
  stringLiteralConstants st ⊆ stringLiteralConstants st' /\
  reporter st `prefix_of` reporter st' /\
  writeTypeCalls st `prefix_of` writeTypeCalls st'.
Proof.
  intros st'.
  assert (Hrest : respects accumulates
            (writeNullAlias env ;;
             writeProtocolInterface env "CodyAgentServer"
               (client_requests (protocolSymbols env))
               (client_notifications (protocolSymbols env)) ;;
             writeProtocolInterface env "CodyAgentClient"
               (server_requests (protocolSymbols env))
               (server_notifications (protocolSymbols env)) ;;
             let* emptied := drain env fuel in
             if emptied then
               writeSerializationAdapters env ;;
               writeStringLiteralConstants env ;;
               ret true
             else ret false)).
  { assert (Hweak : forall (m : M unit),
              respects (grows env) m -> respects accumulates m).
    { intros m. apply respects_weaken. apply grows_accumulates. }
    apply respects_bind; [apply Hweak, writeNullAlias_grows|intros _].
    apply respects_bind; [apply Hweak, writeProtocolInterface_grows|intros _].
    apply respects_bind; [apply Hweak, writeProtocolInterface_grows|intros _].
    apply run_loop_accumulates. }
  destruct (Hrest (set_files (fun _ => []) st)) as (Hdu & Hgen & Hconst & Hrep & _ & Hlog).
  repeat split; assumption.
Qed.

(** [writeType] returns normally. For an ignored information it writes no
    file and prints nothing; otherwise it writes one file, whose document
    opens and closes the type, and leaves no error report pending. *)
Lemma writeType_outcome (info : scip.SymbolInformation) (st : Codegen) :
  exists st',
    writeType env info st = (inr tt, st') /\
    if isIgnoredInfo f info then
      files st' = files st /\ printer st' = [] /\
      microtasks st' = microtasks st /\ reporter st' = reporter st /\
      queue st' = queue st
    else
      exists body,
        printer st' =
          StartType (typeName f info) info :: body ++
          [CloseType (typeName f info) info] /\
        files st' = files st ++ [(typeFile env info, printer st')] /\
        microtasks st' = [].
Proof.
  unfold writeType. rewrite bind_run. unfold modify at 1. cbn beta iota.
  rewrite bind_run. unfold startDocument at 1, modify at 1. cbn beta iota.
  rewrite bind_run.
  set (st0 := set_printer (fun _ => [])
                (set_writeTypeCalls (fun log => log ++ [scip.symbol info]) st)).
  assert (Halias : exists alias st1,
            aliasType env info st0 = (inr alias, st1) /\
            files st1 = files st /\ printer st1 = [] /\
            microtasks st1 = microtasks st /\ reporter st1 = reporter st /\
            queue st1 = queue st).
  { unfold aliasType. destruct (String.eqb _ "Date").
    { eexists _, _. split; [reflexivity|]. repeat split. }
    destruct (isStringTypeInfo h info); eexists _, _;
      (split; [reflexivity|]); repeat split. }
  destruct Halias as (alias & st1 & -> & Hfiles1 & Hprinter1 & Hmicro1 & Hrep1 & Hqueue1).
  destruct (isIgnoredInfo f info).
  { eexists. split; [reflexivity|]. repeat split; assumption. }
  rewrite bind_run. unfold emit at 1, modify at 1. cbn beta iota.
  rewrite bind_run.
  destruct (writeType_body_grows env (typeName f info) info alias
              (set_printer (fun p => p ++ [StartType (typeName f info) info]) st1))
    as (st2 & -> & Hlog2 & Hfiles2 & added & Hprinter2).
  eexists. split; [reflexivity|].
  simpl in Hfiles2, Hprinter2. rewrite Hprinter1 in Hprinter2.
  exists added. simpl. rewrite Hprinter2, Hfiles2, Hfiles1.
  repeat split.
Qed.

(** The loop of [run] raises no exception. *)
Lemma drain_returns (fuel : nat) (st : Codegen) :
  exists emptied st', drain env fuel st = (inr emptied, st').
Proof.
  revert st. induction fuel as [|fuel IH]; intros st.
  - simpl. rewrite bind_run. unfold get at 1. cbn beta iota.
    destruct (pop (queue st)) as [[info rest]|]; eexists _, _; reflexivity.
  - simpl. rewrite bind_run. unfold get at 1. cbn beta iota.
    destruct (pop (queue st)) as [[info rest]|];
      [|eexists _, _; reflexivity].
    rewrite bind_run. unfold modify at 1. cbn beta iota. rewrite bind_run.
    destruct (bool_decide _).
    + unfold ret at 1. cbn beta iota. apply IH.
    + rewrite bind_run.
      destruct (writeType_effect env info (set_queue (fun _ => rest) st))
        as (st2 & -> & _).
      unfold modify at 1. cbn beta iota. apply IH.
Qed.

(** X3. With a formatter, an emitter and a file system that do not fail,
    the loop of [run] raises no exception. When it ends with an empty queue, every symbol that was in the queue when it started is marked as
    generated; when it is cut short, the queue is not empty. It unmarks no
    symbol, and when no error report was pending before the loop, none is
    pending after it: every deferred report of [writeDataClass] has reached
    the reporter. *)
Theorem drain_exit (fuel : nat) (st : Codegen) :
  exists emptied st',
    drain env fuel st = (inr emptied, st') /\
    (emptied = true ->
     queue st' = [] /\
     forall info, info ∈ queue st -> scip.symbol info ∈ generatedSymbols st') /\
    (emptied = false -> queue st' <> []) /\
    generatedSymbols st ⊆ generatedSymbols st' /\
    (microtasks st = [] -> microtasks st' = []).
Proof.
  revert st. induction fuel as [|fuel IH]; intros st.
  - simpl. rewrite bind_run. unfold get at 1. cbn beta iota.
    destruct (pop (queue st)) as [[info rest]|] eqn:Hpop.
    + exists false, st. split; [reflexivity|].
      split; [discriminate|]. split; [|split; [reflexivity|auto]].
      intros _ Hnil. rewrite Hnil in Hpop. discriminate.
    + exists true, st. split; [reflexivity|].
      apply pop_None in Hpop.
      split; [|split; [discriminate|split; [reflexivity|auto]]].
      intros _. split; [exact Hpop|]. rewrite Hpop. intros info Hin.
      inversion Hin.
  - simpl. rewrite bind_run. unfold get at 1. cbn beta iota.
    destruct (pop (queue st)) as [[info rest]|] eqn:Hpop.
    2:{ exists true, st. split; [reflexivity|].
        apply pop_None in Hpop.
        split; [|split; [discriminate|split; [reflexivity|auto]]].
        intros _. split; [exact Hpop|]. rewrite Hpop. intros info Hin.
        inversion Hin. }
    apply pop_Some in Hpop.
    rewrite bind_run. unfold modify at 1. cbn beta iota.
    rewrite bind_run.
    set (st1 := set_queue (fun _ => rest) st).
    destruct (bool_decide (scip.symbol info ∈ generatedSymbols st)) eqn:Hdone.
    + apply bool_decide_eq_true in Hdone.
      unfold ret at 1. cbn beta iota.
      destruct (IH st1) as (emptied & st' & Hrun & Htrue & Hfalse & Hgen & Hmicro).
      exists emptied, st'. split; [exact Hrun|].
      split; [|split; [exact Hfalse|split; [exact Hgen|exact Hmicro]]].
      intros He. destruct (Htrue He) as [Hq Hall]. split; [exact Hq|].
      intros info' Hin. rewrite Hpop in Hin.
      apply elem_of_app in Hin as [Hin|Hin].
      * apply Hall. exact Hin.
      * apply list_elem_of_singleton in Hin. subst info'. apply Hgen, Hdone.
    + rewrite bind_run.
      destruct (writeType_outcome info st1) as (st2 & Hwrite & Hshape).
      rewrite Hwrite. unfold modify at 1. cbn beta iota.
      set (st3 := set_generatedSymbols (fun g => {[scip.symbol info]} ∪ g) st2).
      destruct (IH st3) as (emptied & st' & Hrun & Htrue & Hfalse & Hgen & Hmicro).
      exists emptied, st'. split; [exact Hrun|].
      pose proof (writeType_grows env info st1) as [(added & Hqueue & _) Hacc].
      rewrite Hwrite in Hqueue, Hacc. simpl in Hqueue, Hacc.
      destruct Hacc as (_ & Hgen2 & _).
      split; [|split; [exact Hfalse|split]].
      * intros He. destruct (Htrue He) as [Hq Hall]. split; [exact Hq|].
        intros info' Hin. rewrite Hpop in Hin.
        apply elem_of_app in Hin as [Hin|Hin].
        -- apply Hall. simpl. rewrite Hqueue. apply elem_of_app. left. exact Hin.
        -- apply list_elem_of_singleton in Hin. subst info'.
           apply Hgen. simpl. apply elem_of_union. left.
           apply elem_of_singleton. reflexivity.
      * etrans; [|exact Hgen]. simpl.
        etrans; [exact Hgen2|]. apply union_subseteq_r.
      * intros Hnone. apply Hmicro. simpl.
        destruct (isIgnoredInfo f info).
        -- destruct Hshape as (_ & _ & Hm & _). rewrite Hm. exact Hnone.
        -- destruct Hshape as (body & _ & _ & Hm). exact Hm.
Qed.

(** X4. With a formatter, an emitter and a file system that do not fail,
    [writeType] returns normally whatever happens while the type is written:
    the promises of [writeSealedClass] and [writeDataClass] are dropped. For an information the formatter ignores it writes no file,
    prints nothing and reports nothing. For any other information it writes
    exactly one file, named after the display name, whose document opens
    with the type and closes it, and it leaves no error report pending. *)
Theorem writeType_document (info : scip.SymbolInformation) (st : Codegen) :
  exists st',
    writeType env info st = (inr tt, st') /\
    (isIgnoredInfo f info = true ->
     files st' = files st /\ printer st' = [] /\ reporter st' = reporter st /\
     queue st' = queue st)
    /\ (isIgnoredInfo f info = false ->
        exists body,
          files st' =
            files st ++
            [(typeFile env info,
              StartType (typeName f info) info :: body ++
              [CloseType (typeName f info) info])] /\
          microtasks st' = []).
Proof.
  destruct (writeType_outcome info st) as (st' & Hrun & Hshape).
  exists st'. split; [exact Hrun|].
  destruct (isIgnoredInfo f info).
  - split; [|discriminate]. intros _.
    destruct Hshape as (? & ? & ? & ? & ?). repeat split; assumption.
  - split; [discriminate|]. intros _.
    destruct Hshape as (body & Hprinter & Hfiles & Hmicro).
    exists body. rewrite Hfiles, Hprinter. split; [reflexivity|exact Hmicro].
Qed.

End Growth_properties.

(** ** Unions and their discriminators *)

Lemma res_for_of_app {A S} (xs ys : list A) (body : S -> A -> Res S) (acc : S) :
  res_for_of (xs ++ ys) body acc =
  res_bind (res_for_of xs body acc) (res_for_of ys body).
Proof.
  revert acc. induction xs as [|x xs IH]; intros acc; simpl; [reflexivity|].
  destruct (body acc x); simpl; [reflexivity|apply IH].
Qed.

Lemma res_for_of_invariant {A S} (I : S -> Prop) (xs : list A)
  (body : S -> A -> Res S) (acc acc' : S) :
  (forall acc x acc', In x xs -> body acc x = inr acc' -> I acc -> I acc') ->
  res_for_of xs body acc = inr acc' -> I acc -> I acc'.
Proof.
  revert acc. induction xs as [|x xs IH]; intros acc Hbody Hrun Hacc; simpl in Hrun.
  - injection Hrun as <-. exact Hacc.
  - destruct (body acc x) as [e|acc1] eqn:Hx; simpl in Hrun; [discriminate|].
    apply (IH acc1).
    + intros acc0 y acc0' Hin. apply Hbody. right. exact Hin.
    + exact Hrun.
    + apply (Hbody acc x acc1); [left; reflexivity|exact Hx|exact Hacc].
Qed.

Lemma Map_get_In {V} (m : list (string * V)) (k : string) (v : V) :
  List.NoDup (map fst m) -> In (k, v) m -> Map_get m k = Some v.
Proof.
  induction m as [|[k' v'] m IH]; intros Hnodup Hin; [destruct Hin|].
  rewrite Map_get_cons. simpl in Hnodup.
  apply List.NoDup_cons_iff in Hnodup as [Hfresh Hnodup].
  destruct Hin as [Heq|Hin].
  - injection Heq as -> ->. rewrite String.eqb_refl. reflexivity.
  - destruct (String.eqb k' k) eqn:Hk; [|apply IH; assumption].
    apply String.eqb_eq in Hk. subst k'. exfalso. apply Hfresh.
    apply in_map_iff. exists (k, v). split; [reflexivity|exact Hin].
Qed.

Section Unions.

Variable env : Env.

Local Abbreviation h := (helpers env).

Lemma unionTypes_loop_plain (depth : nat) (types result : list scip.Type_)
  (rest : list scip.Type_) :
  Forall (fun t => scip.has_type_ref t = false) types ->
  unionTypes_loop env (S depth) (scip.union_type (types ++ rest)) result =
  unionTypes_loop env (S depth) (scip.union_type rest) (result ++ types).
Proof.
  intros Hplain. cbn [unionTypes_loop]. rewrite res_for_of_app.
  match goal with
  | |- res_bind ?r _ = _ => assert (Hloop : r = inr (result ++ types))
  end.
  { revert result. induction Hplain as [|t types Ht _ IH]; intros result.
    - rewrite app_nil_r. reflexivity.
    - cbn [res_for_of]. destruct t; try discriminate Ht;
        cbn [res_bind]; rewrite IH, <- app_assoc; reflexivity. }
  rewrite Hloop. reflexivity.
Qed.

(** X5. A type alias whose union names the alias itself among its members,
    after members that are not references, makes [unionTypes] recurse until
    the call stack is exhausted, however deep the stack is:
    [unionTypes] and [discriminatedUnion] raise the [RangeError] and return
    no result. *)
Theorem unionTypes_circular_alias (symbol : string)
  (info : scip.SymbolInformation) (before after args : list scip.Type_) :
  symbols (symtab env) !! symbol = Some info ->
  scip.signature info =
    Some (scip.type_signature
            (Some (scip.union_type (before ++ scip.type_ref symbol args :: after)))) ->
  Forall (fun t => scip.has_type_ref t = false) before ->
  unionTypes env (scip.union_type (before ++ scip.type_ref symbol args :: after)) =
    inl StackOverflow
  /\ discriminatedUnion env info = inl StackOverflow.
Proof.
  intros Hinfo Hsig Hplain.
  assert (Hloop : forall depth result,
            unionTypes_loop env depth
              (scip.union_type (before ++ scip.type_ref symbol args :: after))
              result = inl StackOverflow).
  { induction depth as [|depth IH]; intros result; [reflexivity|].
    rewrite unionTypes_loop_plain by exact Hplain.
    cbn [unionTypes_loop res_for_of]. unfold symtab_info. rewrite Hinfo.
    cbn [res_bind]. rewrite Hsig. cbn [defined res_bind scip.has_union_type].
    rewrite IH. reflexivity. }
  split; [apply Hloop|].
  unfold discriminatedUnion. rewrite Hsig. cbn [defined res_bind].
  destruct (length _ =? 0)%nat eqn:Hlen.
  { apply Nat.eqb_eq in Hlen. rewrite length_app in Hlen. simpl in Hlen. lia. }
  unfold unionTypes. rewrite Hloop. reflexivity.
Qed.

Lemma unionTypes_loop_flat (depth : nat) (t : scip.Type_)
  (result types : list scip.Type_) :
  unionTypes_loop env depth t result = inr types ->
  Forall (fun t => isUnionAlias env t = false) result ->
  Forall (fun t => isUnionAlias env t = false) types.
Proof.
  revert t result types.
  induction depth as [|depth IH]; intros t result types Hrun Hresult;
    [discriminate|].
  cbn [unionTypes_loop] in Hrun.
  destruct t as [| | |members| | |];
    try (injection Hrun as <-; exact Hresult).
  revert Hrun Hresult. apply res_for_of_invariant.
  clear result types. intros result unionType result' _ Hstep Hresult.
  assert (Hpush : isUnionAlias env unionType = false ->
                  Forall (fun t => isUnionAlias env t = false)
                    (result ++ [unionType])).
  { intros Hflat. apply Forall_app. split; [exact Hresult|].
    constructor; [exact Hflat|constructor]. }
  destruct unionType as [symbol args| | | | | |];
    try (injection Hstep as <-; apply Hpush; reflexivity).
  unfold symtab_info in Hstep. cbn [isUnionAlias] in Hpush.
  destruct (symbols (symtab env) !! symbol) as [info|]; [|discriminate].
  cbn [res_bind] in Hstep.
  destruct (scip.signature info) as [[| |[lower_bound|]|]|];
    cbn [defined res_bind] in Hstep; try discriminate;
    try (injection Hstep as <-; apply Hpush; reflexivity).
  destruct (scip.has_union_type lower_bound) eqn:Hunion.
  - apply (IH _ _ _ Hstep Hresult).
  - injection Hstep as <-. apply Hpush. reflexivity.
Qed.

(** X6. What [unionTypes] returns is flat: none of the types it returns is a
    reference to a type alias of a union, since every such reference was
    replaced by the members of that union, at any depth. For a type that is
    not a union it returns the empty array, as long as the call stack has
    room for a call. *)
Theorem unionTypes_flat (type : scip.Type_) :
  (forall types,
     unionTypes env type = inr types ->
     Forall (fun t => isUnionAlias env t = false) types)
  /\ (scip.has_union_type type = false ->
      callStackDepth h <> 0 ->
      unionTypes env type = inr []).
Proof.
  unfold unionTypes. split.
  - intros types Hrun. apply (unionTypes_loop_flat _ _ _ _ Hrun). constructor.
  - intros Hplain Hdepth. destruct (callStackDepth h); [congruence|].
    cbn [unionTypes_loop].
    destruct type; try discriminate Hplain; reflexivity.
Qed.

Lemma literalProperties_of_loop (unionType : scip.Type_)
  (propertySymbols : list string)
  (maps maps' : list (string * nat) * list (string * list DiscriminatedUnionMember)) :
  res_for_of propertySymbols (discriminatedUnion_property env unionType) maps =
    inr maps' ->
  exists literals, literalProperties env propertySymbols = inr literals.
Proof.
  revert maps. induction propertySymbols as [|p ps IH]; intros maps Hrun.
  - exists []. reflexivity.
  - cbn [res_for_of] in Hrun. rewrite discriminatedUnion_property_literal in Hrun.
    cbn [literalProperties].
    destruct (literalProperty env p) as [e|literal]; [discriminate|].
    cbn [res_bind] in Hrun. destruct (IH _ Hrun) as (literals & ->).
    eexists. reflexivity.
Qed.

Lemma literalProperties_In (propertySymbols : list string)
  (literals : list (string * string)) (literal : string * string) :
  literalProperties env propertySymbols = inr literals ->
  In literal literals ->
  exists p, In p propertySymbols /\ literalProperty env p = inr (Some literal).
Proof.
  revert literals. induction propertySymbols as [|p ps IH]; intros literals Hrun Hin.
  - injection Hrun as <-. destruct Hin.
  - cbn [literalProperties] in Hrun.
    destruct (literalProperty env p) as [e|found] eqn:Hp; [discriminate|].
    cbn [res_bind] in Hrun.
    destruct (literalProperties env ps) as [e|rest]; [discriminate|].
    cbn [res_bind] in Hrun. injection Hrun as <-.
    apply in_app_or in Hin as [Hin|Hin].
    + destruct found as [l|]; [|destruct Hin].
      destruct Hin as [->|[]]. exists p. split; [left; reflexivity|exact Hp].
    + destruct (IH rest eq_refl Hin) as (p' & Hin' & Hp').
      exists p'. split; [right; exact Hin'|exact Hp'].
Qed.

Lemma literalProperty_truthy (propertySymbol name literal : string) :
  literalProperty env propertySymbol = inr (Some (name, literal)) ->
  literal <> EmptyString.
Proof.
  unfold literalProperty. intros Hrun.
  destruct (symtab_info (symtab env) propertySymbol) as [e|property];
    [discriminate|].
  cbn [res_bind] in Hrun.
  destruct (value_signature_tpe property) as [e|tpe]; [discriminate|].
  cbn [res_bind] in Hrun.
  destruct tpe as [tpe|]; [|discriminate]. cbn [defined res_bind] in Hrun.
  destruct (stringLiteralType h tpe) as [stringLiteral|]; [|discriminate].
  destruct (truthy stringLiteral) eqn:Htruthy; [|discriminate].
  injection Hrun as _ <-. unfold truthy in Htruthy.
  apply negb_true_iff, String.eqb_neq in Htruthy. exact Htruthy.
Qed.

Lemma discriminatedUnion_tally_members (unionTypes : list scip.Type_)
  (maps maps' : list (string * nat) * list (string * list DiscriminatedUnionMember)) :
  res_for_of unionTypes
    (fun maps unionType =>
       res_for_of (properties h unionType)
         (discriminatedUnion_property env unionType) maps) maps = inr maps' ->
  exists members,
    map km_type members = unionTypes /\
    Forall (fun d =>
              literalProperties env (properties h (km_type d)) =
              inr (km_literals d)) members.
Proof.
  revert maps. induction unionTypes as [|u us IH]; intros maps Hrun.
  - exists []. split; [reflexivity|constructor].
  - cbn [res_for_of] in Hrun.
    destruct (res_for_of (properties h u) _ maps) as [e|maps1] eqn:Hu;
      [discriminate|].
    cbn [res_bind] in Hrun.
    destruct (literalProperties_of_loop _ _ _ _ Hu) as (literals & Hliterals).
    destruct (IH _ Hrun) as (members & Htypes & Hmembers).
    exists ({| km_type := u; km_literals := literals; km_kind := EmptyString |}
            :: members).
    split; [simpl; rewrite Htypes; reflexivity|].
    constructor; [exact Hliterals|exact Hmembers].
Qed.

(** X7. Whenever [discriminatedUnion] finds a discriminated union for an
    information, the information is a type alias of a non-empty union, the
    union found carries the symbol of the information, and it has as many
    members as [unionTypes] returns for the union, at least one. Each member
    pairs one of the types [unionTypes] returns with a string literal that
    is not empty, the literal type of a property of that type whose display
    name is the discriminator. *)
Theorem discriminatedUnion_sound (info : scip.SymbolInformation)
  (du : DiscriminatedUnion) :
  discriminatedUnion env info = inr (Some du) ->
  du_symbol du = scip.symbol info
  /\ exists types flattened,
       scip.signature info =
         Some (scip.type_signature (Some (scip.union_type types))) /\
       types <> [] /\
       unionTypes env (scip.union_type types) = inr flattened /\
       flattened <> [] /\
       length (du_members du) = length flattened /\
       Forall (fun member =>
                 In (member_type member) flattened /\
                 value member <> EmptyString /\
                 exists propertySymbol,
                   In propertySymbol (properties h (member_type member)) /\
                   literalProperty env propertySymbol =
                   inr (Some (discriminatorDisplayName du, value member)))
         (du_members du).
Proof.
  unfold discriminatedUnion. intros Hrun.
  destruct (scip.signature info) as [[| |[type|]|]|] eqn:Hsig;
    cbn [defined res_bind] in Hrun; try discriminate.
  destruct type as [| | |types| | |]; try discriminate.
  destruct (length types =? 0)%nat eqn:Hlen; [discriminate|].
  destruct (unionTypes env (scip.union_type types)) as [e|flattened] eqn:Hflat;
    [discriminate|].
  cbn [res_bind] in Hrun.
  destruct (discriminatedUnion_tally env flattened) as [e|maps] eqn:Htally;
    [discriminate|].
  cbn [res_bind] in Hrun. destruct maps as [candidates memberss].
  destruct (List.find _ candidates) as [[candidate count]|] eqn:Hfind;
    [|discriminate].
  injection Hrun as <-. cbn [du_symbol du_members discriminatorDisplayName].
  split; [reflexivity|].
  exists types, flattened. split; [reflexivity|].
  split. { intros ->. discriminate. }
  split; [exact Hflat|].
  unfold discriminatedUnion_tally in Htally.
  destruct (discriminatedUnion_tally_members _ _ _ Htally)
    as (members & Htypes & Hmembers).
  rewrite <- Htypes in Htally.
  rewrite (discriminatedUnion_tally_entries env members _ Hmembers) in Htally.
  injection Htally as Htally.
  pose proof (tallied_entries (literalEntries members)) as [Hnodup Hmaps].
  rewrite Htally in Hnodup, Hmaps. cbn [fst snd] in Hnodup, Hmaps.
  apply find_some in Hfind as [Hin Hcount]. cbn [snd] in Hcount.
  apply Nat.eqb_eq in Hcount.
  apply (Map_get_In _ _ _ Hnodup) in Hin.
  destruct (Hmaps candidate) as [Hcandidates Hmemberss].
  rewrite Hin in Hcandidates.
  destruct (length (entriesNamed candidate (literalEntries members)) =? 0)%nat
    eqn:Hnone; [discriminate|].
  injection Hcandidates as Hcandidates.
  apply Nat.eqb_neq in Hnone.
  rewrite Hmemberss. cbn [default from_option id].
  split. { intros ->. simpl in Hcount. lia. }
  split. { unfold membersNamed. rewrite length_map. lia. }
  apply List.Forall_forall. intros member Hmember.
  unfold membersNamed in Hmember. apply in_map_iff in Hmember
    as ([type [name literal]] & <- & Hentry).
  cbn [member_type value fst snd].
  unfold entriesNamed in Hentry. apply filter_In in Hentry as [Hentry Hname].
  cbn [fst snd] in Hname. apply String.eqb_eq in Hname. subst name.
  unfold literalEntries in Hentry. apply in_concat in Hentry
    as (entries & Hentries & Hentry).
  apply in_map_iff in Hentries as (d & <- & Hd).
  apply in_map_iff in Hentry as (literal' & Heq & Hliteral).
  injection Heq as <- ->.
  rewrite List.Forall_forall in Hmembers. specialize (Hmembers d Hd).
  destruct (literalProperties_In _ _ _ Hmembers Hliteral) as (p & Hp & Hfound).
  split. { rewrite <- Htypes. apply in_map. exact Hd. }
  split. { apply (literalProperty_truthy _ _ _ Hfound). }
  exists p. split; [exact Hp|exact Hfound].
Qed.

End Unions.

(** ** The fields and the failures of a data class *)

Lemma for_of_raises {A S} (xs : list A) (body : S -> A -> M S) (acc : S)
  (st st' : Codegen) (e : Exn) :
  for_of xs body acc st = (inl e, st') ->
  exists x acc0 st0, In x xs /\ body acc0 x st0 = (inl e, st').
Proof.
  revert acc st. induction xs as [|x xs IH]; intros acc st Hrun; simpl in Hrun.
  - discriminate.
  - rewrite bind_run in Hrun.
    destruct (body acc x st) as [[e0|acc1] st1] eqn:Hx.
    + injection Hrun as -> ->. exists x, acc, st. split; [left; reflexivity|exact Hx].
    + destruct (IH _ _ Hrun) as (y & acc0 & st0 & Hin & Hy).
      exists y, acc0, st0. split; [right; exact Hin|exact Hy].
Qed.

Lemma for_of_invariant {A S} (I : S -> Prop) (xs : list A)
  (body : S -> A -> M S) (acc acc' : S) (st st' : Codegen) :
  (forall acc x st acc' st',
     In x xs -> body acc x st = (inr acc', st') -> I acc -> I acc') ->
  for_of xs body acc st = (inr acc', st') -> I acc -> I acc'.
Proof.
  revert acc st. induction xs as [|x xs IH]; intros acc st Hbody Hrun Hacc;
    simpl in Hrun.
  - injection Hrun as <- _. exact Hacc.
  - rewrite bind_run in Hrun.
    destruct (body acc x st) as [[e0|acc1] st1] eqn:Hx; [discriminate|].
    apply (IH acc1 st1).
    + intros acc0 y st0 acc0' st0' Hin. apply Hbody. right. exact Hin.
    + exact Hrun.
    + apply (Hbody acc x st acc1 st1); [left; reflexivity|exact Hx|exact Hacc].
Qed.

Section DataClass_properties.

Variable env : Env.

Local Abbreviation f := (formatter (emitter env)).
Local Abbreviation h := (helpers env).

Lemma writeDataClassUnsafe_member_raises (acc : DataClassLoop)
  (memberSymbol : string) (st st' : Codegen) (e : Exn) :
  writeDataClassUnsafe_member env acc memberSymbol st = (inl e, st') ->
  isProperty env memberSymbol = true /\ failsAt env memberSymbol e.
Proof.
  unfold writeDataClassUnsafe_member, isProperty, failsAt. intros Hrun.
  destruct (isIgnoredProperty env memberSymbol); [discriminate|].
  destruct (endsWith memberSymbol "()."); [discriminate|].
  split; [reflexivity|].
  rewrite bind_run in Hrun. unfold lift at 1, symtab_info in Hrun.
  destruct (symbols (symtab env) !! memberSymbol) as [member|];
    [|injection Hrun as <- _; reflexivity].
  destruct (bool_decide _); [discriminate|].
  unfold writeDataClassUnsafe_field in Hrun.
  destruct (scip.signature member) as [[| | |[tpe|]]|];
    run_cases Hrun; try (injection Hrun as <- _; reflexivity).
  match goal with
  | Hp : context [queueClassLikeType ?a ?b ?c ?d ?s] |- _ =>
      destruct (queueClassLikeType a b c d s) as [[?|?] ?]; discriminate Hp
  end.
Qed.


(** X8. When [writeDataClassUnsafe] raises, it is because of one of the
    properties of the information, which is neither an ignored property nor
    a method: its symbol is unknown to the symbol table, or it has no
    signature, or its signature is not a value signature, or its value
    signature has no type. A failure to queue the type of a member never
    makes [writeDataClassUnsafe] raise. No data class is printed then. *)
Theorem writeDataClassUnsafe_raises (name : string)
  (info : scip.SymbolInformation) (params : DataClassParams)
  (st st' : Codegen) (e : Exn) :
  writeDataClassUnsafe env name info params st = (inl e, st') ->
  printer st' = printer st
  /\ exists memberSymbol,
       In memberSymbol (infoProperties h info) /\
       isProperty env memberSymbol = true /\
       failsAt env memberSymbol e.
Proof.
  intros Hrun. split.
  { pose proof (writeDataClassUnsafe_outcome env name info params st) as Hout.
    rewrite Hrun in Hout. unfold writer_view in Hout. congruence. }
  unfold writeDataClassUnsafe in Hrun. rewrite bind_run in Hrun.
  match type of Hrun with
  | context [match ?w st with _ => _ end] =>
      assert (Hwarn : exists st0, w st = (inr tt, st0))
  end.
  { destruct (scip.kind info); eexists; reflexivity. }
  destruct Hwarn as (st0 & Hwarn). rewrite Hwarn in Hrun.
  rewrite bind_run in Hrun.
  destruct (writeDataClassUnsafe_members env (infoProperties h info) st0)
    as [[e0|loop] st1] eqn:Hloop; [|discriminate].
  injection Hrun as -> ->.
  apply for_of_raises in Hloop as (memberSymbol & acc & st2 & Hin & Hmember).
  exists memberSymbol. split; [exact Hin|].
  apply (writeDataClassUnsafe_member_raises _ _ _ _ _ Hmember).
Qed.

(** The field of a member, when the loop of [writeDataClassUnsafe] makes
    one. *)
Lemma writeDataClassUnsafe_field_shape (acc acc' : DataClassLoop)
  (memberSymbol : string) (member : scip.SymbolInformation)
  (st st' : Codegen) :
  writeDataClassUnsafe_field env acc memberSymbol member st = (inr acc', st') ->
  (members acc' = members acc /\ enums acc' = enums acc)
  \/ exists tpe syntax,
       scip.signature member = Some (scip.value_signature (Some tpe)) /\
       scip.has_lambda_type tpe = false /\
       isIgnoredType f tpe = false /\
       members acc' =
         members acc ++
         [{| member_info := member;
             typeSyntax := syntax;
             formattedName := formatFieldName f (scip.display_name member);
             oneOfComment :=
               if (0 <? length (stringConstantsFromInfo h member))%nat
               then " // Oneof: " +:+ join ", " (stringConstantsFromInfo h member)
               else EmptyString;
             member_isNullable := isNullable f tpe |}] /\
       (enums acc' = enums acc
        \/ enums acc' =
             enums acc ++
             [{| enum_name := formatEnumType f (scip.display_name member);
                 enum_members :=
                   enumMembers env (stringConstantsFromInfo h member) |}]).
Proof.
  unfold writeDataClassUnsafe_field. intros Hrun.
  destruct (scip.signature member) as [[| | |[tpe|]]|];
    run_cases Hrun.
  all: injection Hrun as <- _.
  all: first
         [ left; split; reflexivity
         | right; eexists _, _; simpl;
           repeat (split; [first [reflexivity|assumption]|]);
           first [left; reflexivity|right; reflexivity] ].
Qed.

(** X9. Every field the loop of [writeDataClassUnsafe] collects is the
    field of one of the member symbols, which is neither an ignored
    property nor a method and is known to the symbol table; the member has
    a value signature whose type is neither a lambda type nor a type the
    formatter ignores, and the field is named and marked nullable after it.
    Every enum the loop collects is the enum of one of the fields. *)
Theorem writeDataClassUnsafe_fields (memberSymbols : list string)
  (st st' : Codegen) (loop : DataClassLoop) :
  writeDataClassUnsafe_members env memberSymbols st = (inr loop, st') ->
  Forall (fun field =>
            exists memberSymbol tpe,
              In memberSymbol memberSymbols /\
              isProperty env memberSymbol = true /\
              symbols (symtab env) !! memberSymbol = Some (member_info field) /\
              scip.signature (member_info field) =
                Some (scip.value_signature (Some tpe)) /\
              scip.has_lambda_type tpe = false /\
              isIgnoredType f tpe = false /\
              formattedName field =
                formatFieldName f (scip.display_name (member_info field)) /\
              member_isNullable field = isNullable f tpe)
    (members loop)
  /\ Forall (fun enum =>
               exists field,
                 In field (members loop) /\
                 enum_name enum =
                   formatEnumType f (scip.display_name (member_info field)) /\
                 enum_members enum =
                   enumMembers env (stringConstantsFromInfo h (member_info field)))
       (enums loop).
Proof.
  unfold writeDataClassUnsafe_members.
  set (isField := fun field : Member => exists memberSymbol tpe, _).
  set (isEnum := fun (fields : list Member) (enum : Enum) =>
         exists field,
           In field fields /\
           enum_name enum =
             formatEnumType f (scip.display_name (member_info field)) /\
           enum_members enum =
             enumMembers env (stringConstantsFromInfo h (member_info field))).
  intros Hrun.
  refine (for_of_invariant
            (fun acc => Forall isField (members acc) /\
                        Forall (isEnum (members acc)) (enums acc))
            _ _ _ _ _ _ _ Hrun _).
  - clear Hrun. intros acc memberSymbol st0 acc' st0' Hin Hstep [Hfields Henums].
    unfold writeDataClassUnsafe_member in Hstep.
    destruct (isIgnoredProperty env memberSymbol) eqn:Hignored.
    { injection Hstep as <- _. split; assumption. }
    destruct (endsWith memberSymbol "().") eqn:Hmethod.
    { injection Hstep as <- _. split; assumption. }
    rewrite bind_run in Hstep. unfold lift at 1, symtab_info in Hstep.
    destruct (symbols (symtab env) !! memberSymbol) as [member|] eqn:Hmember;
      [|discriminate].
    destruct (bool_decide _).
    { injection Hstep as <- _. split; assumption. }
    apply writeDataClassUnsafe_field_shape in Hstep
      as [[Hm He]|(tpe & syntax & Hsig & Hlambda & Htype & Hm & He)];
      cbn [members enums] in *.
    { rewrite Hm, He. split; assumption. }
    assert (Hold : Forall (isEnum (members acc')) (enums acc)).
    { eapply Forall_impl; [exact Henums|].
      intros enum (field & Hfield & Hname & Hmembers).
      exists field. rewrite Hm. split; [|split; assumption].
      apply in_or_app. left. exact Hfield. }
    split.
    + rewrite Hm. apply Forall_app. split; [exact Hfields|].
      constructor; [|constructor].
      exists memberSymbol, tpe. cbn [member_info formattedName member_isNullable].
      unfold isProperty. rewrite Hignored, Hmethod.
      repeat split; assumption.
    + destruct He as [He|He]; rewrite He; [exact Hold|].
      apply Forall_app. split; [exact Hold|].
      constructor; [|constructor].
      eexists. rewrite Hm. split; [apply in_or_app; right; left; reflexivity|].
      split; reflexivity.
  - split; constructor.
Qed.

End DataClass_properties.

(** ** The protocol interfaces *)

Section ProtocolInterface.

Variable env : Env.

Local Abbreviation f := (formatter (emitter env)).
Local Abbreviation h := (helpers env).

(** The loop of [writeProtocolInterface] over the requests. *)
Lemma writeProtocolInterface_requests
  (requests acc acc' : list scip.SymbolInformation) (st st' : Codegen) :
  for_of requests
    (fun requests request =>
       if String.eqb (scip.display_name request) "webview/receiveMessage"
          || String.eqb (scip.display_name request) "chat/submitMessage"
          || String.eqb (scip.display_name request) "chat/editMessage"
       then ret requests
       else
         let* resultType := lift (resultType request) in
         match resultType with
         | None =>
             error (scip.symbol request)
               "missing result type for request. To fix this problem, add a second element to the array type like this: 'example/method: [RequestParams, RequestResult]'" ;;
             ret requests
         | Some resultType =>
             let parameterType := jsonrpcMethodParameter f request in
             queueClassLikeType env parameterType request parameter ;;
             queueClassLikeType env resultType request result ;;
             ret (requests ++ [request])
         end) acc st = (inr acc', st') ->
  acc' =
    acc ++ List.filter
             (fun request => negb (isWebviewRequest request) && hasResultType request)
             requests
  /\ writer_view st' = writer_view st
  /\ reporter st `prefix_of` reporter st'
  /\ forall request,
       In request requests ->
       isWebviewRequest request = false ->
       hasResultType request = false ->
       In (missingResultType request) (reporter st').
Proof.
  revert acc st. induction requests as [|request requests IH]; intros acc st Hrun.
  - injection Hrun as <- <-. rewrite app_nil_r.
    repeat split; [reflexivity|]. intros request [].
  - cbn [for_of] in Hrun. rewrite bind_run in Hrun.
    cbn [List.filter]. unfold isWebviewRequest at 1.
    destruct (String.eqb _ _ || String.eqb _ _ || String.eqb _ _) eqn:Hwebview.
    { unfold ret at 1 in Hrun. cbn beta iota in Hrun.
      destruct (IH _ _ Hrun) as (-> & Hview & Hprefix & Hmissing).
      repeat split; [exact Hview|exact Hprefix|].
      intros r [<-|Hin] Hr Hresult; [|apply Hmissing; assumption].
      unfold isWebviewRequest in Hr. congruence. }
    rewrite bind_run in Hrun. unfold lift at 1 in Hrun.
    cbn [negb andb]. unfold hasResultType at 1.
    destruct (resultType request) as [e|[resultType|]] eqn:Hresult;
      [discriminate| |].
    + rewrite bind_run in Hrun.
      pose proof (queueClassLikeType_untouched env
                    (jsonrpcMethodParameter f request) request parameter st)
        as Hview1.
      pose proof (queueClassLikeType_grows env
                    (jsonrpcMethodParameter f request) request parameter st)
        as (_ & _ & _ & _ & Hprefix1 & _).
      destruct (queueClassLikeType env (jsonrpcMethodParameter f request)
                  request parameter st) as [[e|[]] st1]; [discriminate|].
      rewrite bind_run in Hrun.
      pose proof (queueClassLikeType_untouched env resultType request result st1)
        as Hview2.
      pose proof (queueClassLikeType_grows env resultType request result st1)
        as (_ & _ & _ & _ & Hprefix2 & _).
      destruct (queueClassLikeType env resultType request result st1)
        as [[e|[]] st2]; [discriminate|].
      unfold ret at 1 in Hrun. cbn beta iota in Hrun.
      destruct (IH _ _ Hrun) as (-> & Hview & Hprefix & Hmissing).
      unfold same_view in Hview1, Hview2. cbn [snd] in *.
      rewrite <- app_assoc. repeat split.
      * congruence.
      * etrans; [exact Hprefix1|]. etrans; [exact Hprefix2|exact Hprefix].
      * intros r [<-|Hin] Hr Hnone; [|apply Hmissing; assumption].
        unfold hasResultType in Hnone. rewrite Hresult in Hnone. discriminate.
    + rewrite bind_run in Hrun.
      unfold error at 1, report at 1, modify at 1 in Hrun.
      cbn beta iota in Hrun. unfold ret at 1 in Hrun. cbn beta iota in Hrun.
      destruct (IH _ _ Hrun) as (-> & Hview & Hprefix & Hmissing).
      cbn [reporter set_reporter] in Hprefix.
      repeat split.
      * rewrite Hview. reflexivity.
      * etrans; [|exact Hprefix]. apply prefix_app_r. reflexivity.
      * intros r [<-|Hin] Hr Hnone; [|apply Hmissing; assumption].
        destruct Hprefix as (more & ->). apply in_or_app. left.
        apply in_or_app. right. left. reflexivity.
Qed.

(** The loop of [writeProtocolInterface] over the notifications. *)
Lemma writeProtocolInterface_notifications
  (notifications acc acc' : list scip.SymbolInformation) (st st' : Codegen) :
  for_of notifications
    (fun notifications notification =>
       if String.eqb (scip.display_name notification) "webview/postMessage"
       then ret notifications
       else
         let parameterType := jsonrpcMethodParameter f notification in
         queueClassLikeType env parameterType notification parameter ;;
         ret (notifications ++ [notification])) acc st = (inr acc', st') ->
  acc' =
    acc ++ List.filter
             (fun notification => negb (isWebviewNotification notification))
             notifications
  /\ writer_view st' = writer_view st
  /\ reporter st `prefix_of` reporter st'.
Proof.
  revert acc st.
  induction notifications as [|notification notifications IH]; intros acc st Hrun.
  - injection Hrun as <- <-. rewrite app_nil_r. repeat split; reflexivity.
  - cbn [for_of] in Hrun. rewrite bind_run in Hrun.
    cbn [List.filter]. unfold isWebviewNotification at 1.
    destruct (String.eqb _ _) eqn:Hwebview.
    { unfold ret at 1 in Hrun. cbn beta iota in Hrun.
      destruct (IH _ _ Hrun) as (-> & Hview & Hprefix).
      repeat split; assumption. }
    rewrite bind_run in Hrun. cbn [negb].
    pose proof (queueClassLikeType_untouched env
                  (jsonrpcMethodParameter f notification) notification
                  parameter st) as Hview1.
    pose proof (queueClassLikeType_grows env
                  (jsonrpcMethodParameter f notification) notification
                  parameter st) as (_ & _ & _ & _ & Hprefix1 & _).
    destruct (queueClassLikeType env (jsonrpcMethodParameter f notification)
                notification parameter st) as [[e|[]] st1]; [discriminate|].
    unfold ret at 1 in Hrun. cbn beta iota in Hrun.
    destruct (IH _ _ Hrun) as (-> & Hview & Hprefix).
    unfold same_view in Hview1. cbn [snd] in *.
    rewrite <- app_assoc. repeat split.
    + congruence.
    + etrans; [exact Hprefix1|exact Hprefix].
Qed.

(** What [writeProtocolInterface] writes when it returns. *)
Lemma writeProtocolInterface_outcome
  (name requestSymbol notificationSymbol : string) (st st' : Codegen) :
  writeProtocolInterface env name requestSymbol notificationSymbol st =
    (inr tt, st') ->
  printer st' = [protocolInterface env name requestSymbol notificationSymbol]
  /\ files st' =
     files st ++
     [(interfaceFile env name,
       [protocolInterface env name requestSymbol notificationSymbol])]
  /\ forall request,
       In request
         (structuralType (symtab env)
            (canonicalSymbol (symtab env) requestSymbol)) ->
       isWebviewRequest request = false ->
       hasResultType request = false ->
       In (missingResultType request) (reporter st').
Proof.
  intros Hrun.
  unfold writeProtocolInterface in Hrun. rewrite bind_run in Hrun.
  unfold startDocument at 1, modify at 1 in Hrun.
  cbn beta iota in Hrun. rewrite bind_run in Hrun.
  match type of Hrun with
  | context [for_of ?xs ?body [] ?s] =>
      destruct (for_of xs body [] s) as [[e|kept] st1] eqn:Hrequests;
        [discriminate|]
  end.
  apply writeProtocolInterface_requests in Hrequests
    as (-> & Hview1 & _ & Hmissing).
  rewrite bind_run in Hrun.
  match type of Hrun with
  | context [for_of ?xs ?body [] ?s] =>
      destruct (for_of xs body [] s) as [[e|kept] st2] eqn:Hnotifications;
        [discriminate|]
  end.
  apply writeProtocolInterface_notifications in Hnotifications
    as (-> & Hview2 & Hprefix).
  unfold emit, writeFile, modify, bind in Hrun. cbn beta iota in Hrun.
  injection Hrun as <-.
  unfold writer_view in Hview1, Hview2. cbn [printer files set_printer] in *.
  injection Hview2 as Hprinter2 _ Hfiles2 _ _.
  injection Hview1 as Hprinter1 _ Hfiles1 _ _.
  cbn [printer files set_printer set_files]. rewrite Hprinter2, Hprinter1.
  rewrite Hfiles2, Hfiles1. cbn [app].
  repeat split.
  intros request Hin Hr Hnone. cbn [reporter set_files set_printer].
  destruct Hprefix as (more & ->). apply in_or_app. left.
  apply (Hmissing request Hin Hr Hnone).
Qed.

(** X10. When [writeProtocolInterface] returns, it has written one file,
    named after the interface, whose document is the interface alone. The
    requests of the interface are the requests of the protocol that do not
    belong to the webview protocol and have a result type, in their order;
    its notifications are those of the protocol except
    [webview/postMessage]. For every other request without a result type an
    Error was reported against the request. *)
Theorem writeProtocolInterface_interface
  (name requestSymbol notificationSymbol : string) (st st' : Codegen) :
  writeProtocolInterface env name requestSymbol notificationSymbol st =
    (inr tt, st') ->
  files st' =
    files st ++
    [(interfaceFile env name,
      [ProtocolInterface name
         (List.filter
            (fun request =>
               negb (isWebviewRequest request) && hasResultType request)
            (structuralType (symtab env)
               (canonicalSymbol (symtab env) requestSymbol)))
         (List.filter
            (fun notification => negb (isWebviewNotification notification))
            (structuralType (symtab env)
               (canonicalSymbol (symtab env) notificationSymbol)))])]
  /\ forall request,
       In request
         (structuralType (symtab env)
            (canonicalSymbol (symtab env) requestSymbol)) ->
       isWebviewRequest request = false ->
       hasResultType request = false ->
       In (missingResultType request) (reporter st').
Proof.
  intros Hrun.
  destruct (writeProtocolInterface_outcome _ _ _ _ _ Hrun)
    as (_ & Hfiles & Hmissing).
  split; [exact Hfiles|exact Hmissing].
Qed.

(** X11. [run] starts from an empty output: whatever was recorded before,
    the first file it writes is the null alias. When [run] returns, the
    next two files are the interfaces of the server and of the client, in
    this order, whatever is written after them. *)
Theorem run_files (fuel : nat) (st : Codegen) :
  let st' := snd (run env fuel st) in
  (exists rest, files st' = (nullFile env, [NullAlias]) :: rest)
  /\ (forall emptied,
        fst (run env fuel st) = inr emptied ->
        exists rest,
          files st' =
          (nullFile env, [NullAlias])
          :: (interfaceFile env "CodyAgentServer",
              [protocolInterface env "CodyAgentServer"
                 (client_requests (protocolSymbols env))
                 (client_notifications (protocolSymbols env))])
          :: (interfaceFile env "CodyAgentClient",
              [protocolInterface env "CodyAgentClient"
                 (server_requests (protocolSymbols env))
                 (server_notifications (protocolSymbols env))])
          :: rest).
Proof.
  intros st'. subst st'.
  remember (run env fuel st) as outcome eqn:Hrun.
  unfold run in Hrun.
  rewrite bind_run in Hrun.
  unfold resetOutputPath at 1, modify at 1 in Hrun. cbn beta iota in Hrun.
  rewrite bind_run in Hrun.
  set (st0 := set_files (fun _ => []) st) in Hrun.
  assert (Hnull : exists st1,
            writeNullAlias env st0 = (inr tt, st1) /\
            files st1 = [(nullFile env, [NullAlias])]).
  { eexists. split; reflexivity. }
  destruct Hnull as (st1 & Hnull & Hfiles1). rewrite Hnull in Hrun.
  rewrite bind_run in Hrun.
  pose proof (writeProtocolInterface_grows env "CodyAgentServer"
                (client_requests (protocolSymbols env))
                (client_notifications (protocolSymbols env)) st1)
    as (_ & _ & _ & _ & _ & Hprefix2 & _).
  destruct (writeProtocolInterface env "CodyAgentServer" _ _ st1)
    as [[e|[]] st2] eqn:Hserver.
  { subst outcome. cbn [fst snd] in *. rewrite Hfiles1 in Hprefix2.
    destruct Hprefix2 as (rest & ->).
    split; [exists rest; reflexivity|intros emptied Hret; discriminate Hret]. }
  apply writeProtocolInterface_outcome in Hserver as (_ & Hfiles2 & _).
  clear Hprefix2. rewrite bind_run in Hrun.
  pose proof (writeProtocolInterface_grows env "CodyAgentClient"
                (server_requests (protocolSymbols env))
                (server_notifications (protocolSymbols env)) st2)
    as (_ & _ & _ & _ & _ & Hprefix3 & _).
  destruct (writeProtocolInterface env "CodyAgentClient" _ _ st2)
    as [[e|[]] st3] eqn:Hclient.
  { subst outcome. cbn [fst snd] in *. rewrite Hfiles2, Hfiles1 in Hprefix3.
    destruct Hprefix3 as (rest & ->).
    split; [eexists; reflexivity|intros emptied Hret; discriminate Hret]. }
  apply writeProtocolInterface_outcome in Hclient as (_ & Hfiles3 & _).
  clear Hprefix3.
  pose proof (run_loop_accumulates env fuel st3)
    as (_ & _ & _ & _ & Hprefix & _).
  rewrite <- Hrun in Hprefix.
  rewrite Hfiles3, Hfiles2, Hfiles1 in Hprefix.
  destruct Hprefix as (rest & Hfiles).
  split; [eexists; rewrite Hfiles; reflexivity|].
  intros _ _. exists rest. rewrite Hfiles. reflexivity.
Qed.

End ProtocolInterface.

(** ** The document of a sealed class *)

Section SealedClass_properties.

Variable env : Env.

Local Abbreviation f := (formatter (emitter env)).
Local Abbreviation h := (helpers env).

(** The second loop of [writeSealedClass] prints data classes only, and
    stops only at a member whose type refers to an unknown symbol. *)
Lemma writeSealedClass_inner_loop (name : string) (union : DiscriminatedUnion)
  (ms : list DiscriminatedUnionMember) (st st' : Codegen) (r : Res unit) :
  for_of ms (fun _ m => writeSealedClass_inner env name union m) tt st =
    (r, st') ->
  exists classes,
    Forall (fun e => isDataClass e = true) classes /\
    printer st' = printer st ++ classes /\
    match r with
    | inr _ => True
    | inl e =>
        exists member symbol args,
          In member ms /\
          member_type member = scip.type_ref symbol args /\
          symbols (symtab env) !! symbol = None /\
          e = Lookup symbol
    end.
Proof.
  revert st. induction ms as [|m ms IH]; intros st Hrun.
  - injection Hrun as <- <-. exists []. rewrite app_nil_r.
    repeat split. constructor.
  - cbn [for_of] in Hrun. rewrite bind_run in Hrun.
    unfold writeSealedClass_inner at 1 in Hrun. rewrite bind_run in Hrun.
    unfold lift at 1 in Hrun.
    destruct (writeSealedClass_info env (discriminatedUnionTypeName f union m) m)
      as [e|info] eqn:Hinfo.
    + injection Hrun as <- <-.
      exists []. rewrite app_nil_r. split; [constructor|].
      split; [reflexivity|].
      unfold writeSealedClass_info, symtab_info in Hinfo.
      destruct (member_type m) as [symbol args| | | | | |] eqn:Htype;
        try discriminate Hinfo.
      destruct (symbols (symtab env) !! symbol) eqn:Hsymbol;
        [discriminate Hinfo|].
      injection Hinfo as <-.
      exists m, symbol, args.
      repeat split; [left; reflexivity|exact Htype|exact Hsymbol].
    + destruct (writeDataClass_outcome env
                  (discriminatedUnionTypeName f union m) info
                  {| innerClass := Some true; parentClass := Some name |} st)
        as (st1 & Hwrite & Hview).
      rewrite Hwrite in Hrun.
      destruct (IH _ Hrun) as (classes & Hclasses & Hprinter & Hfails).
      assert (Hprinter1 : exists class,
                Forall (fun e => isDataClass e = true) class /\
                printer st1 = printer st ++ class).
      { destruct Hview as [(fields & enums & Hview)|(_ & d & _ & _ & Hview)];
          unfold writer_view in Hview; injection Hview as Hp _ _ _ _.
        - eexists [_]. split; [|exact Hp]. constructor; [reflexivity|constructor].
        - exists []. rewrite app_nil_r. split; [constructor|exact Hp]. }
      destruct Hprinter1 as (class & Hclass & Hprinter1).
      exists (class ++ classes). split; [apply Forall_app; split; assumption|].
      split; [rewrite Hprinter, Hprinter1, app_assoc; reflexivity|].
      destruct r as [e|]; [|exact I].
      destruct Hfails as (member & symbol & args & Hin & Hfails).
      exists member, symbol, args. split; [right; exact Hin|exact Hfails].
Qed.

(** X12. [writeSealedClass] opens the sealed class with the members it
    keeps and prints after it nothing but data classes. It raises only
    when the type of a kept member refers to a symbol the symbol table does
    not know, and then the sealed class is left open: the document ends
    with the data classes printed so far. When it returns and the emitter
    can close a sealed class, the document ends with the closing of the
    class. *)
Theorem writeSealedClass_closed (name : string)
  (info : scip.SymbolInformation) (du : DiscriminatedUnion) (st : Codegen) :
  let outcome := writeSealedClass env name info du st in
  exists classes,
    Forall (fun e => isDataClass e = true) classes /\
    match fst outcome with
    | inr _ =>
        printer (snd outcome) =
        printer st ++
        StartSealedClass name info (sealedUnion du) :: classes ++
        (if hasCloseSealedClass (emitter env)
         then [CloseSealedClass name info (sealedUnion du)]
         else [])
    | inl e =>
        printer (snd outcome) =
        printer st ++ StartSealedClass name info (sealedUnion du) :: classes /\
        exists member symbol args,
          In member (keepFirst ∅ (du_members du)) /\
          member_type member = scip.type_ref symbol args /\
          symbols (symtab env) !! symbol = None /\
          e = Lookup symbol
    end.
Proof.
  intros outcome. subst outcome.
  destruct (writeSealedClass env name info du st) as [r st'] eqn:Hrun.
  cbn [fst snd]. unfold writeSealedClass in Hrun. rewrite bind_run in Hrun.
  destruct (writeSealedClass_first_loop info (du_members du) ∅ [] st)
    as (seen & Hfirst).
  rewrite Hfirst in Hrun. cbn [snd app] in Hrun. fold (sealedUnion du) in Hrun.
  rewrite bind_run in Hrun. unfold emit at 1, modify at 1 in Hrun.
  cbn beta iota in Hrun. rewrite bind_run in Hrun.
  match type of Hrun with
  | context [for_of ?ms ?body tt ?s] =>
      destruct (for_of ms body tt s) as [[e|[]] st1] eqn:Hloop
  end;
    apply writeSealedClass_inner_loop in Hloop
      as (classes & Hclasses & Hprinter & Hfails);
    cbn [printer set_printer set_reporter sealedUnion du_members]
      in Hprinter, Hfails;
    exists classes; (split; [exact Hclasses|]).
  - injection Hrun as <- <-.
    split; [|exact Hfails]. rewrite Hprinter, <- app_assoc. reflexivity.
  - destruct (hasCloseSealedClass (emitter env)).
    + unfold emit, modify in Hrun. injection Hrun as <- <-.
      cbn [printer set_printer].
      rewrite Hprinter, <- !app_assoc. reflexivity.
    + injection Hrun as <- <-. rewrite Hprinter, app_nil_r, <- app_assoc.
      reflexivity.
Qed.

End SealedClass_properties.

(** ** The inner classes of a union on record *)

Lemma firstOccurrence_exists (ms : list DiscriminatedUnionMember)
  (m : DiscriminatedUnionMember) :
  In m ms -> exists k, firstOccurrence k ms /\ value k = value m.
Proof.
  induction ms as [|x xs IH]; intros Hin; [destruct Hin|].
  destruct (decide (value x = value m)) as [Hsame|Hother].
  - exists x. split; [|exact Hsame].
    exists [], xs. split; [reflexivity|]. simpl. intros Hnil. inversion Hnil.
  - destruct Hin as [->|Hin]; [contradiction Hother; reflexivity|].
    destruct (IH Hin) as (k & (before & after & -> & Hfirst) & Hvalue).
    exists k. split; [|exact Hvalue].
    exists (x :: before), after. split; [reflexivity|].
    simpl. intros Hk. apply elem_of_cons in Hk as [Hk|Hk]; [|exact (Hfirst Hk)].
    apply Hother. congruence.
Qed.

Section SealedClass_recorded.

Variable env : Env.

Local Abbreviation f := (formatter (emitter env)).
Local Abbreviation h := (helpers env).

(** [unionTypes] has looked up every symbol that a type it returns refers
    to. *)
Lemma unionTypes_loop_resolves (depth : nat) (t : scip.Type_)
  (result types : list scip.Type_) :
  unionTypes_loop env depth t result = inr types ->
  Forall (resolves env) result ->
  Forall (resolves env) types.
Proof.
  revert t result types.
  induction depth as [|depth IH]; intros t result types Hrun Hresult;
    [discriminate|].
  cbn [unionTypes_loop] in Hrun.
  destruct t as [| | |members| | |];
    try (injection Hrun as <-; exact Hresult).
  revert Hrun Hresult. apply res_for_of_invariant.
  clear result types. intros result unionType result' _ Hstep Hresult.
  assert (Hpush : resolves env unionType ->
                  Forall (resolves env) (result ++ [unionType])).
  { intros Hknown. apply Forall_app. split; [exact Hresult|].
    constructor; [exact Hknown|constructor]. }
  destruct unionType as [symbol args| | | | | |];
    try (injection Hstep as <-; apply Hpush; exact I).
  unfold symtab_info in Hstep. cbn [resolves] in Hpush.
  destruct (symbols (symtab env) !! symbol) as [info|] eqn:Hsymbol;
    [|discriminate].
  cbn [res_bind] in Hstep.
  destruct (scip.signature info) as [[| |[lower_bound|]|]|];
    cbn [defined res_bind] in Hstep; try discriminate;
    try (injection Hstep as <-; apply Hpush; eexists; reflexivity).
  destruct (scip.has_union_type lower_bound) eqn:Hunion.
  - apply (IH _ _ _ Hstep Hresult).
  - injection Hstep as <-. apply Hpush. eexists. reflexivity.
Qed.

(** A property [discriminatedUnion] has read the literal of is one the loop
    of [writeDataClassUnsafe] does not stop at. *)
Lemma literalProperty_defined (propertySymbol : string)
  (literal : option (string * string)) (e : Exn) :
  literalProperty env propertySymbol = inr literal ->
  ~ failsAt env propertySymbol e.
Proof.
  unfold literalProperty, failsAt, symtab_info, value_signature_tpe.
  intros Hrun.
  destruct (symbols (symtab env) !! propertySymbol) as [property|];
    [|discriminate].
  cbn [res_bind] in Hrun.
  destruct (scip.signature property) as [[| | |[tpe|]]|];
    cbn [defined res_bind] in Hrun; try discriminate.
  intros [].
Qed.

Lemma literalProperties_defined (propertySymbols : list string)
  (literals : list (string * string)) (propertySymbol : string) (e : Exn) :
  literalProperties env propertySymbols = inr literals ->
  In propertySymbol propertySymbols ->
  ~ failsAt env propertySymbol e.
Proof.
  revert literals.
  induction propertySymbols as [|p ps IH]; intros literals Hrun Hin;
    [destruct Hin|].
  cbn [literalProperties] in Hrun.
  destruct (literalProperty env p) as [e'|literal] eqn:Hp; [discriminate|].
  cbn [res_bind] in Hrun.
  destruct (literalProperties env ps) as [e'|rest]; [discriminate|].
  destruct Hin as [<-|Hin].
  - apply (literalProperty_defined _ _ _ Hp).
  - apply (IH rest); [reflexivity|exact Hin].
Qed.

(** What [discriminatedUnion] has made sure of when it returns a union:
    the symbol table knows the symbol that the type of a member refers to,
    and every property of the type of a member has a value signature with a
    type. *)
Lemma discriminatedUnion_recorded (origin : scip.SymbolInformation)
  (du : DiscriminatedUnion) :
  discriminatedUnion env origin = inr (Some du) ->
  Forall (fun member =>
            resolves env (member_type member) /\
            forall propertySymbol e,
              In propertySymbol (properties h (member_type member)) ->
              ~ failsAt env propertySymbol e)
    (du_members du).
Proof.
  unfold discriminatedUnion. intros Hrun.
  destruct (scip.signature origin) as [[| |[type|]|]|] eqn:Hsig;
    cbn [defined res_bind] in Hrun; try discriminate.
  destruct type as [| | |types| | |]; try discriminate.
  destruct (length types =? 0)%nat eqn:Hlen; [discriminate|].
  destruct (unionTypes env (scip.union_type types)) as [e|flattened] eqn:Hflat;
    [discriminate|].
  cbn [res_bind] in Hrun.
  destruct (discriminatedUnion_tally env flattened) as [e|maps] eqn:Htally;
    [discriminate|].
  cbn [res_bind] in Hrun. destruct maps as [candidates memberss].
  destruct (List.find _ candidates) as [[candidate count]|] eqn:Hfind;
    [|discriminate].
  injection Hrun as <-. cbn [du_members].
  assert (Hknown : Forall (resolves env) flattened).
  { apply (unionTypes_loop_resolves _ _ _ _ Hflat). constructor. }
  unfold discriminatedUnion_tally in Htally.
  destruct (discriminatedUnion_tally_members env _ _ _ Htally)
    as (members & Htypes & Hmembers).
  rewrite <- Htypes in Htally.
  rewrite (discriminatedUnion_tally_entries env members _ Hmembers) in Htally.
  injection Htally as Htally.
  pose proof (tallied_entries (literalEntries members)) as [Hnodup Hmaps].
  rewrite Htally in Hnodup, Hmaps. cbn [fst snd] in Hnodup, Hmaps.
  destruct (Hmaps candidate) as [_ Hmemberss].
  rewrite Hmemberss.
  destruct (length (entriesNamed candidate (literalEntries members)) =? 0)%nat;
    cbn [default from_option id]; [constructor|].
  apply List.Forall_forall. intros member Hmember.
  unfold membersNamed in Hmember. apply in_map_iff in Hmember
    as ([type [name literal]] & <- & Hentry).
  cbn [member_type value fst snd].
  unfold entriesNamed in Hentry. apply filter_In in Hentry as [Hentry _].
  unfold literalEntries in Hentry. apply in_concat in Hentry
    as (entries & Hentries & Hentry).
  apply in_map_iff in Hentries as (d & <- & Hd).
  apply in_map_iff in Hentry as (literal' & Heq & _).
  injection Heq as <- _.
  rewrite List.Forall_forall in Hmembers. specialize (Hmembers d Hd).
  split.
  - rewrite List.Forall_forall in Hknown. apply Hknown.
    rewrite <- Htypes. apply in_map. exact Hd.
  - intros propertySymbol e Hin.
    apply (literalProperties_defined _ _ _ _ Hmembers Hin).
Qed.

(** [writeDataClassUnsafe] returns when its loop stops at no member. *)
Lemma writeDataClassUnsafe_returns (name : string)
  (info : scip.SymbolInformation) (params : DataClassParams) (st : Codegen) :
  (forall memberSymbol e,
     In memberSymbol (infoProperties h info) -> ~ failsAt env memberSymbol e) ->
  fst (writeDataClassUnsafe env name info params st) = inr tt.
Proof.
  intros Hgood.
  destruct (writeDataClassUnsafe env name info params st) as [[e|[]] st']
    eqn:Hrun; [|reflexivity].
  exfalso. unfold writeDataClassUnsafe in Hrun. rewrite bind_run in Hrun.
  match type of Hrun with
  | context [match ?w st with _ => _ end] =>
      assert (Hwarn : exists st0, w st = (inr tt, st0))
  end.
  { destruct (scip.kind info); eexists; reflexivity. }
  destruct Hwarn as (st0 & Hwarn). rewrite Hwarn in Hrun.
  rewrite bind_run in Hrun.
  destruct (writeDataClassUnsafe_members env (infoProperties h info) st0)
    as [[e0|loop] st1] eqn:Hloop; [|discriminate].
  injection Hrun as -> ->.
  apply for_of_raises in Hloop as (memberSymbol & acc & st2 & Hin & Hmember).
  apply (Hgood memberSymbol e Hin).
  apply (writeDataClassUnsafe_member_raises _ _ _ _ _ _ Hmember).
Qed.

(** The second loop of [writeSealedClass] prints the inner class of every
    member and leaves nothing for later, when the information of every
    member is found and the loop of [writeDataClassUnsafe] stops at none of
    its member symbols. *)
Lemma writeSealedClass_inner_loop_returns (name : string)
  (union : DiscriminatedUnion) (ms : list DiscriminatedUnionMember)
  (st : Codegen) :
  Forall (fun member =>
            exists inner,
              writeSealedClass_info env
                (discriminatedUnionTypeName f union member) member =
                inr inner /\
              forall memberSymbol e,
                In memberSymbol (infoProperties h inner) ->
                ~ failsAt env memberSymbol e) ms ->
  exists st',
    for_of ms (fun _ m => writeSealedClass_inner env name union m) tt st =
      (inr tt, st') /\
    innerClassNames (printer st') =
      innerClassNames (printer st) ++
      map (discriminatedUnionTypeName f union) ms /\
    microtasks st' = microtasks st.
Proof.
  intros Hms. revert st.
  induction Hms as [|m ms (inner & Hinner & Hgood) _ IH]; intros st.
  - exists st. cbn [for_of map]. rewrite app_nil_r. repeat split.
  - cbn [for_of]. rewrite bind_run. unfold writeSealedClass_inner at 1.
    rewrite bind_run. unfold lift at 1. rewrite Hinner.
    destruct (writeDataClass_outcome env
                (discriminatedUnionTypeName f union m) inner
                {| innerClass := Some true; parentClass := Some name |} st)
      as (st1 & Hwrite & Hview).
    rewrite Hwrite.
    destruct Hview as [(fields & enums & Hview)|(Hfails & _)]; cycle 1.
    { contradiction Hfails.
      apply writeDataClassUnsafe_returns. exact Hgood. }
    unfold writer_view in Hview. injection Hview as Hprinter Htasks _ _ _.
    destruct (IH st1) as (st' & Hrun & Hnames & Hlater).
    exists st'. split; [exact Hrun|].
    split; [|congruence].
    rewrite Hnames, Hprinter. unfold innerClassNames. rewrite omap_app.
    cbn [omap innerClassName map]. rewrite <- app_assoc. reflexivity.
Qed.

(** C5. A union that [discriminatedUnion] has returned, for any
    information, is written by [writeSealedClass] as follows. The members
    kept are the first with their discriminator value: their values are
    distinct, and every value of a member is the value of a kept member.
    [writeSealedClass] returns, and it has printed the inner class of every
    kept member, that is one inner class for every value, in the order of
    the members, with no failure of [writeDataClass] left to be reported. It
    has reported a [Warning] for each of the other members, the dropped
    duplicates, before any other diagnostic. *)
Theorem writeSealedClass_one_inner_class (name : string)
  (info origin : scip.SymbolInformation) (du : DiscriminatedUnion)
  (st : Codegen) :
  discriminatedUnion env origin = inr (Some du) ->
  inner_class_of_properties env du ->
  let kept := keepFirst ∅ (du_members du) in
  let dropped := duplicates ∅ (du_members du) in
  (forall m, m ∈ kept <-> firstOccurrence m (du_members du))
  /\ NoDup (map value kept)
  /\ (forall m, In m (du_members du) ->
                exists k, k ∈ kept /\ value k = value m)
  /\ length (du_members du) = (length kept + length dropped)%nat
  /\ Forall (fun d => severity d = Severity.Warning)
       (map (duplicateWarning info) dropped)
  /\ exists st' more,
       writeSealedClass env name info du st = (inr tt, st') /\
       innerClassNames (printer st') =
         innerClassNames (printer st) ++
         map (discriminatedUnionTypeName f (sealedUnion du)) kept /\
       reporter st' =
         reporter st ++ map (duplicateWarning info) dropped ++ more /\
       microtasks st' = microtasks st.
Proof.
  intros Hrecorded Hproperties kept dropped.
  pose proof (writeSealedClass_duplicates env name info du st) as Hloop.
  cbv zeta in Hloop. fold kept dropped in Hloop.
  destruct Hloop as (Hnodup & Hfirst & Hlength & Hwarnings & Hrun & _).
  split; [exact Hfirst|]. split; [exact Hnodup|].
  split.
  { intros m Hin. destruct (firstOccurrence_exists _ _ Hin) as (k & Hk & Hvalue).
    exists k. split; [apply Hfirst; exact Hk|exact Hvalue]. }
  split; [exact Hlength|]. split; [exact Hwarnings|].
  pose proof (discriminatedUnion_recorded _ _ Hrecorded) as Hmembers.
  rewrite List.Forall_forall in Hmembers.
  assert (Hkept : Forall (fun member =>
            exists inner,
              writeSealedClass_info env
                (discriminatedUnionTypeName f (sealedUnion du) member) member =
                inr inner /\
              forall memberSymbol e,
                In memberSymbol (infoProperties h inner) ->
                ~ failsAt env memberSymbol e) kept).
  { apply List.Forall_forall. intros member Hin.
    assert (Hmember : In member (du_members du)).
    { apply list_elem_of_In, Hfirst in Hin.
      destruct Hin as (before & after & -> & _).
      apply in_or_app. right. left. reflexivity. }
    destruct (Hmembers member Hmember) as [Hknown Hdefined].
    assert (Hinner : exists inner,
              writeSealedClass_info env
                (discriminatedUnionTypeName f (sealedUnion du) member) member =
              inr inner).
    { unfold writeSealedClass_info, symtab_info.
      destruct (member_type member) as [symbol args| | | | | |];
        try (eexists; reflexivity).
      destruct Hknown as [inner ->]. eexists. reflexivity. }
    destruct Hinner as (inner & Hinner). exists inner.
    split; [exact Hinner|].
    intros memberSymbol e Hsymbol. apply Hdefined.
    apply (Hproperties member _ inner Hmember Hinner memberSymbol Hsymbol). }
  set (warned :=
         set_reporter (fun ds => ds ++ map (duplicateWarning info) dropped) st)
    in Hrun.
  set (rest :=
         bind (emit (StartSealedClass name info (sealedUnion du)))
           (fun _ =>
              bind (for_of kept
                      (fun _ m =>
                         writeSealedClass_inner env name (sealedUnion du) m) tt)
                (fun _ =>
                   if hasCloseSealedClass (emitter env)
                   then emit (CloseSealedClass name info (sealedUnion du))
                   else ret tt))) in Hrun.
  assert (Hgrows : respects (grows env) rest).
  { unfold rest, writeSealedClass_inner. grows_auto.
    apply writeDataClass_grows_queue. }
  specialize (Hgrows warned). rewrite <- Hrun in Hgrows.
  destruct Hgrows as (_ & _ & _ & _ & [more Hreporter] & _).
  set (st2 := set_printer
                (fun p => p ++ [StartSealedClass name info (sealedUnion du)])
                warned).
  assert (Hrun2 : writeSealedClass env name info du st =
     bind (for_of kept
             (fun _ m => writeSealedClass_inner env name (sealedUnion du) m) tt)
       (fun _ =>
          if hasCloseSealedClass (emitter env)
          then emit (CloseSealedClass name info (sealedUnion du))
          else ret tt)
       st2).
  { rewrite Hrun. reflexivity. }
  destruct (writeSealedClass_inner_loop_returns name (sealedUnion du) kept st2
              Hkept) as (st3 & Hinner & Hnames & Htasks).
  rewrite Hrun2, bind_run, Hinner in Hreporter |- *.
  assert (Hstart : innerClassNames (printer st2) = innerClassNames (printer st)).
  { unfold st2, warned, innerClassNames. simpl. rewrite omap_app. simpl.
    apply app_nil_r. }
  rewrite Hstart in Hnames.
  assert (Hwarned : reporter warned =
                    reporter st ++ map (duplicateWarning info) dropped)
    by reflexivity.
  rewrite Hwarned, <- app_assoc in Hreporter.
  destruct (hasCloseSealedClass (emitter env)).
  - eexists _, more. split; [reflexivity|].
    unfold emit, modify in Hreporter |- *. cbn [snd] in Hreporter.
    split; [|split; [exact Hreporter|exact Htasks]].
    cbn [printer set_printer]. unfold innerClassNames in Hnames |- *.
    rewrite omap_app, Hnames. cbn [omap innerClassName]. apply app_nil_r.
  - exists st3, more. split; [reflexivity|].
    split; [exact Hnames|]. split; [exact Hreporter|exact Htasks].
Qed.

End SealedClass_recorded.

(** C5 on [type Dup = First | { kind: 'a' } | { kind: 'b' }], where the
    interface [First] has the [kind] of the second member: the second member
    is dropped with a warning, and the inner classes of the first and of
    the third are printed. *)
Lemma writeSealedClass_one_inner_class_witness :
  let first := {| value := "a"; member_type := Sample.ref "First#" |} in
  let second := {| value := "a"; member_type := Fixture.A_ |} in
  let third := {| value := "b"; member_type := Fixture.B_ |} in
  let du :=
    {| du_symbol := "Dup#"; discriminatorDisplayName := "kind";
       du_members := [first; second; third] |} in
  discriminatedUnion Fixture.nominalEnv Fixture.Dup = inr (Some du) /\
  inner_class_of_properties Fixture.nominalEnv du /\
  keepFirst ∅ (du_members du) = [first; third] /\
  duplicates ∅ (du_members du) = [second] /\
  exists st' more,
    writeSealedClass Fixture.nominalEnv "Dup" Fixture.Dup du new_Codegen =
      (inr tt, st') /\
    innerClassNames (printer st') = ["kind_a"; "kind_b"] /\
    reporter st' =
      [warning "Dup#" "duplicate discriminator value a"] ++ more /\
    microtasks st' = [].
Proof.
  intros first second third du.
  assert (Hrecorded :
            discriminatedUnion Fixture.nominalEnv Fixture.Dup = inr (Some du)).
  { vm_compute. reflexivity. }
  assert (Hproperties : inner_class_of_properties Fixture.nominalEnv du).
  { intros member typeName inner Hmember Hinner memberSymbol Hsymbol.
    destruct Hmember as [<-|[<-|[<-|[]]]];
      vm_compute in Hinner; injection Hinner as <-;
      vm_compute in Hsymbol |- *; exact Hsymbol. }
  split; [exact Hrecorded|]. split; [exact Hproperties|].
  split; [vm_compute; reflexivity|]. split; [vm_compute; reflexivity|].
  destruct (writeSealedClass_one_inner_class Fixture.nominalEnv "Dup"
              Fixture.Dup Fixture.Dup du new_Codegen Hrecorded Hproperties)
    as (_ & _ & _ & _ & _ & st' & more & Hrun & Hnames & Hreporter & Htasks).
  exists st', more. split; [exact Hrun|].
  split; [exact Hnames|]. split; [exact Hreporter|exact Htasks].
Defined.

(** ** The class made of a type alias *)

Section Maps_more.

Context {V : Type}.

Implicit Types (m : list (string * V)) (k : string) (v : V).

Lemma Map_set_fresh m k v :
  Map_get m k = None -> Map_set m k v = m ++ [(k, v)].
Proof.
  induction m as [|[k' v'] m IH]; intros Hnone; [reflexivity|].
  rewrite Map_get_cons in Hnone. cbn [Map_set app].
  destruct (String.eqb k' k); [discriminate|]. rewrite IH by exact Hnone.
  reflexivity.
Qed.

Lemma Map_get_entry m k v : Map_get m k = Some v -> In (k, v) m.
Proof.
  induction m as [|[k' v'] m IH]; intros Hget; [discriminate|].
  rewrite Map_get_cons in Hget.
  destruct (String.eqb k' k) eqn:Hk.
  - apply String.eqb_eq in Hk. injection Hget as <-. subst k'. left. reflexivity.
  - right. apply IH. exact Hget.
Qed.

Lemma Map_set_entry m k v (e : string * V) :
  In e (Map_set m k v) -> e = (k, v) \/ In e m.
Proof.
  induction m as [|[k' v'] m IH]; cbn [Map_set].
  - intros [<-|[]]. left. reflexivity.
  - destruct (String.eqb k' k).
    + intros [<-|Hin]; [left; reflexivity|right; right; exact Hin].
    + intros [<-|Hin]; [right; left; reflexivity|].
      destruct (IH Hin) as [->|Hold]; [left; reflexivity|right; right; exact Hold].
Qed.

Lemma Map_set_same_keys m k v v0 :
  Map_get m k = Some v0 -> map fst (Map_set m k v) = map fst m.
Proof.
  induction m as [|[k' v'] m IH]; intros Hget; [discriminate|].
  rewrite Map_get_cons in Hget. cbn [Map_set].
  destruct (String.eqb k' k) eqn:Hk.
  - apply String.eqb_eq in Hk. subst k'. reflexivity.
  - cbn [map fst]. rewrite IH by exact Hget. reflexivity.
Qed.

Lemma Map_get_missing m k : Map_get m k = None -> ~ In k (map fst m).
Proof.
  induction m as [|[k' v'] m IH]; intros Hnone; [intros []|].
  rewrite Map_get_cons in Hnone.
  destruct (String.eqb k' k) eqn:Hk; [discriminate|].
  apply String.eqb_neq in Hk. intros [Heq|Hin]; [exact (Hk Heq)|].
  exact (IH Hnone Hin).
Qed.

End Maps_more.

Section Alias.

Variable env : Env.

Local Abbreviation h := (helpers env).

(** The property [p] is the first of [processed] to have the name of
    [info], which is its information. *)
Local Abbreviation firstNamed processed info :=
  (exists before p after,
     processed = before ++ p :: after /\
     symbols (symtab env) !! p = Some info /\
     forall q i,
       In q before -> symbols (symtab env) !! q = Some i ->
       scip.display_name i <> scip.display_name info).

Lemma queueClassLikeInfo_property_loop (processed rest : list string)
  (declarations declarations' : list (string * Declaration)) :
  List.NoDup (map fst declarations) ->
  (forall entry,
     In entry declarations ->
     scip.display_name (decl_info (snd entry)) = fst entry /\
     firstNamed processed (decl_info (snd entry))) ->
  (forall p info,
     In p processed -> symbols (symtab env) !! p = Some info ->
     In (scip.display_name info) (map fst declarations)) ->
  res_for_of rest (queueClassLikeInfo_property env) declarations =
    inr declarations' ->
  List.NoDup (map fst declarations')
  /\ (forall entry,
        In entry declarations' ->
        scip.display_name (decl_info (snd entry)) = fst entry /\
        firstNamed (processed ++ rest) (decl_info (snd entry)))
  /\ (forall p info,
        In p (processed ++ rest) -> symbols (symtab env) !! p = Some info ->
        In (scip.display_name info) (map fst declarations')).
Proof.
  revert processed declarations.
  induction rest as [|property rest IH];
    intros processed declarations Hnodup Hentries Hnames Hrun.
  - injection Hrun as <-. rewrite app_nil_r.
    split; [assumption|split; assumption].
  - cbn [res_for_of] in Hrun.
    destruct (queueClassLikeInfo_property env declarations property)
      as [e|declarations1] eqn:Hstep; [discriminate|].
    cbn [res_bind] in Hrun.
    replace (processed ++ property :: rest)
      with ((processed ++ [property]) ++ rest)
      by (rewrite <- app_assoc; reflexivity).
    apply (IH (processed ++ [property]) declarations1); [| | |exact Hrun];
      clear IH Hrun;
      unfold queueClassLikeInfo_property, symtab_info in Hstep;
      destruct (symbols (symtab env) !! property) as [propertyInfo|] eqn:Hinfo;
      try discriminate Hstep; cbn [res_bind] in Hstep.
    + destruct (Map_get declarations _);
        [destruct (negb _)|]; injection Hstep as <-;
        apply Map_set_keys; exact Hnodup.
    + assert (Hold : forall entry,
                In entry declarations ->
                scip.display_name (decl_info (snd entry)) = fst entry /\
                firstNamed (processed ++ [property]) (decl_info (snd entry))).
      { intros entry Hin. destruct (Hentries entry Hin)
          as (Hname & before & p & after & -> & Hp & Hfirst).
        split; [exact Hname|].
        exists before, p, (after ++ [property]).
        rewrite <- app_assoc. split; [reflexivity|]. split; assumption. }
      destruct (Map_get declarations (scip.display_name propertyInfo))
        as [sibling|] eqn:Hsibling.
      * apply Map_get_entry in Hsibling.
        destruct (Hold _ Hsibling) as [Hname Hfirst]. cbn [fst snd] in *.
        intros entry Hin.
        assert (Hcase : fst entry = scip.display_name propertyInfo /\
                        decl_info (snd entry) = decl_info sibling
                        \/ In entry declarations).
        { destruct (negb _); injection Hstep as <-;
            apply Map_set_entry in Hin as [->|Hin];
            solve [left; split; reflexivity | right; exact Hin]. }
        destruct Hcase as [[Hkey Hsame]|Hin']; [|apply Hold; exact Hin'].
        rewrite Hsame, Hkey. split; assumption.
      * injection Hstep as <-. rewrite (Map_set_fresh _ _ _ Hsibling).
        intros entry Hin. apply in_app_or in Hin as [Hin|[<-|[]]];
          [apply Hold; exact Hin|].
        cbn [fst snd decl_info]. split; [reflexivity|].
        exists processed, property, []. repeat split; [exact Hinfo|].
        intros q i Hq Hi Hsame.
        apply (Map_get_missing _ _ Hsibling). rewrite <- Hsame.
        apply (Hnames q i Hq Hi).
    + intros p info Hp Hlookup.
      assert (Hkeys : forall name,
                In name (map fst declarations) \/
                name = scip.display_name propertyInfo ->
                In name (map fst declarations1)).
      { intros name Hname.
        destruct (Map_get declarations (scip.display_name propertyInfo))
          as [sibling|] eqn:Hsibling.
        - assert (Hsame : map fst declarations1 = map fst declarations).
          { destruct (negb _); injection Hstep as <-;
              apply (Map_set_same_keys _ _ _ _ Hsibling). }
          rewrite Hsame. destruct Hname as [Hname| ->]; [exact Hname|].
          apply (Map_get_key _ _ _ Hsibling).
        - injection Hstep as <-. rewrite (Map_set_fresh _ _ _ Hsibling).
          rewrite map_app. apply in_or_app.
          destruct Hname as [Hname| ->]; [left; exact Hname|].
          right. left. reflexivity. }
      apply Hkeys. apply in_app_or in Hp as [Hp|[<-|[]]].
      * left. apply (Hnames p info Hp Hlookup).
      * right. congruence.
Qed.

(** X13. When [queueClassLikeInfo] is called on a type alias that is
    neither a string type nor a discriminated union, and returns: if the type of the alias has no properties, a Warning is
    reported against the alias and nothing else changes; otherwise one
    information is pushed to the queue, which has the symbol and the
    display name of the alias and one declaration for every display name
    among the properties, that of the first property with this name. *)
Theorem queueClassLikeInfo_alias_class (jsonrpcMethod : scip.SymbolInformation)
  (lower_bound : scip.Type_) (st st' : Codegen) :
  scip.signature jsonrpcMethod =
    Some (scip.type_signature (Some lower_bound)) ->
  isStringTypeInfo h jsonrpcMethod = false ->
  (isNestedDiscriminatedUnion env = true ->
   discriminatedUnion env jsonrpcMethod = inr None) ->
  queueClassLikeInfo env jsonrpcMethod st = (inr tt, st') ->
  (properties h lower_bound = [] ->
   st' =
   set_reporter
     (fun ds => ds ++ [warning (scip.symbol jsonrpcMethod)
                         "no properties found for this type"]) st)
  /\ (properties h lower_bound <> [] ->
      exists infos,
        queue st' = queue st ++ [mergedClass jsonrpcMethod infos] /\
        List.NoDup (map scip.display_name infos) /\
        (forall info,
           In info infos -> firstNamed (properties h lower_bound) info) /\
        (forall p info,
           In p (properties h lower_bound) ->
           symbols (symtab env) !! p = Some info ->
           In (scip.display_name info) (map scip.display_name infos))).
Proof.
  intros Hsig Hstring Hdu Hrun.
  assert (Halias : queueClassLikeInfo env jsonrpcMethod st =
                   queueClassLikeInfo_alias env jsonrpcMethod
                     (Some lower_bound) st).
  { unfold queueClassLikeInfo. rewrite Hsig. cbn [scip.has_class_signature].
    rewrite Hstring, bind_run.
    destruct (isNestedDiscriminatedUnion env).
    - unfold lift. rewrite (Hdu eq_refl). reflexivity.
    - reflexivity. }
  rewrite Halias in Hrun. clear Halias. revert Hrun.
  unfold queueClassLikeInfo_alias. intros Hrun.
  rewrite bind_run in Hrun. unfold lift at 1, defined at 1 in Hrun.
  cbn beta iota in Hrun. rewrite bind_run in Hrun. unfold lift at 1 in Hrun.
  destruct (res_for_of (properties h lower_bound)
              (queueClassLikeInfo_property env) [])
    as [e|declarations] eqn:Hloop; [discriminate|].
  split.
  - intros Hnone. rewrite Hnone in Hloop. injection Hloop as <-.
    unfold queueClassLikeInfo_declarations in Hrun. cbn [length Nat.ltb Nat.leb] in Hrun.
    unfold warn, report, modify in Hrun. injection Hrun as <-. reflexivity.
  - intros Hsome.
    destruct (queueClassLikeInfo_property_loop [] (properties h lower_bound)
                [] declarations) as (Hnodup & Hentries & Hnames);
      [constructor|intros entry []|intros p info []|exact Hloop|].
    cbn [app] in Hentries, Hnames.
    set (infos := map (fun entry : string * Declaration => decl_info (snd entry))
                    declarations).
    assert (Hdisplay : map scip.display_name infos = map fst declarations).
    { unfold infos. rewrite map_map. apply map_ext_in.
      intros entry Hin. apply (Hentries entry Hin). }
    assert (Hsome' : (0 <? length declarations)%nat = true).
    { apply Nat.ltb_lt. destruct (properties h lower_bound) as [|p ps] eqn:Hps;
        [congruence|].
      destruct declarations; [|simpl; lia].
      destruct (symbols (symtab env) !! p) as [info|] eqn:Hp.
      - destruct (Hnames p info (or_introl eq_refl) Hp).
      - cbn [res_for_of] in Hloop.
        unfold queueClassLikeInfo_property at 1, symtab_info in Hloop.
        rewrite Hp in Hloop. discriminate. }
    unfold queueClassLikeInfo_declarations in Hrun. rewrite Hsome' in Hrun.
    rewrite bind_run in Hrun.
    match type of Hrun with
    | context [for_of declarations ?body tt st] =>
        assert (Hqueue : respects (same_view queue) (for_of declarations body tt))
    end.
    { apply respects_for_of. intros _ entry _.
      respects_auto. unfold report. respects_auto. }
    specialize (Hqueue st). unfold same_view in Hqueue.
    match type of Hrun with
    | context [for_of declarations ?body tt st] =>
        destruct (for_of declarations body tt st) as [[e|[]] st1];
          [discriminate|]
    end.
    cbn [snd] in Hqueue. unfold queue_push, modify in Hrun.
    injection Hrun as <-. cbn [queue set_queue]. rewrite Hqueue.
    exists infos. split.
    { unfold mergedClass, infos. rewrite map_map. reflexivity. }
    split; [rewrite Hdisplay; exact Hnodup|].
    split.
    + intros info Hin. unfold infos in Hin. apply in_map_iff in Hin
        as (entry & <- & Hin). apply (Hentries entry Hin).
    + intros p info Hp Hlookup. rewrite Hdisplay.
      apply (Hnames p info Hp Hlookup).
Qed.

End Alias.

(** ** The files written after the loop *)

Lemma sort_insert_Permutation (x : string) (xs : list string) :
  sort_insert x xs ≡ₚ x :: xs.
Proof.
  induction xs as [|y ys IH]; cbn [sort_insert]; [reflexivity|].
  destruct (sort_leb x y); [reflexivity|].
  rewrite IH. apply Permutation_swap.
Qed.

Lemma sort_Permutation (xs : list string) : sort xs ≡ₚ xs.
Proof.
  induction xs as [|x xs IH]; [reflexivity|].
  unfold sort. cbn [foldr]. fold (sort xs).
  rewrite sort_insert_Permutation, IH. reflexivity.
Qed.

(** The order of the code units is total. *)
Lemma code_units_leb_total (xs ys : list N) :
  code_units_leb xs ys = true \/ code_units_leb ys xs = true.
Proof.
  revert ys. induction xs as [|x xs IH]; intros ys; [left; reflexivity|].
  destruct ys as [|y ys]; [right; reflexivity|].
  cbn [code_units_leb].
  destruct (N.ltb_spec x y) as [Hxy|Hxy]; [left; reflexivity|].
  destruct (N.ltb_spec y x) as [Hyx|Hyx]; [right; reflexivity|].
  apply IH.
Qed.

Lemma sort_leb_total (x y : string) :
  sort_leb x y = true \/ sort_leb y x = true.
Proof. apply code_units_leb_total. Qed.

(** A constant above U+FFFF comes before one in U+E000..U+FFFF, as its
    first code unit is a surrogate: the face U+1F600 before the wide tilde
    U+FF5E, whose bytes are in the other order. *)
Example sort_surrogates :
  let tilde := String.string_of_list_ascii
                 (map ascii_of_nat [239; 189; 158]) in
  let face := String.string_of_list_ascii
                (map ascii_of_nat [240; 159; 152; 128]) in
  utf16 tilde = [65374%N] /\
  utf16 face = [55357%N; 56832%N] /\
  String.leb tilde face = true /\
  sort [tilde; face] = [face; tilde].
Proof. vm_compute. repeat split. Qed.

Lemma sort_insert_ascending (x : string) (xs : list string) :
  ascending xs = true -> ascending (sort_insert x xs) = true.
Proof.
  induction xs as [|y ys IH]; intros Hxs; [reflexivity|].
  cbn [sort_insert]. destruct (sort_leb x y) eqn:Hxy.
  - cbn [ascending]. rewrite Hxy. exact Hxs.
  - assert (Hyx : sort_leb y x = true).
    { destruct (sort_leb_total x y) as [H|H]; [congruence|exact H]. }
    destruct ys as [|z zs].
    + cbn [sort_insert ascending]. rewrite Hyx. reflexivity.
    + cbn [ascending] in Hxs. apply andb_true_iff in Hxs as [Hyz Hrest].
      specialize (IH Hrest). cbn [sort_insert] in IH |- *.
      destruct (sort_leb x z); cbn [ascending] in IH |- *.
      * rewrite Hyx. exact IH.
      * rewrite Hyz. exact IH.
Qed.

Lemma sort_ascending (xs : list string) : ascending (sort xs) = true.
Proof.
  induction xs as [|x xs IH]; [reflexivity|].
  unfold sort. cbn [foldr]. apply sort_insert_ascending. exact IH.
Qed.

(** What [sort] makes of the elements of a set: every element once, in
    ascending order. *)
Lemma sort_elements (X : gset string) :
  ascending (sort (elements X)) = true /\
  NoDup (sort (elements X)) /\
  forall x, x ∈ sort (elements X) <-> x ∈ X.
Proof.
  split; [apply sort_ascending|]. split.
  - rewrite sort_Permutation. apply NoDup_elements.
  - intros x. rewrite sort_Permutation. apply elem_of_elements.
Qed.

Section Summary_files.

Variable env : Env.

Local Abbreviation h := (helpers env).

(** X14. [writeStringLiteralConstants] does nothing when no string constant
    was collected. Otherwise it returns after it has written one file, the
    file of the constants, whose document lists every constant collected,
    each once, in ascending order of their UTF-16 code units. *)
Theorem writeStringLiteralConstants_file (st : Codegen) :
  (stringLiteralConstants st = ∅ ->
   writeStringLiteralConstants env st = (inr tt, st))
  /\ (stringLiteralConstants st <> ∅ ->
      exists constants,
        writeStringLiteralConstants env st =
        (inr tt,
         set_files
           (fun fs => fs ++ [(constantsFile env,
                              [StringLiteralConstants constants])])
           (set_printer (fun _ => [StringLiteralConstants constants]) st)) /\
        ascending constants = true /\
        NoDup constants /\
        forall constant,
          constant ∈ constants <-> constant ∈ stringLiteralConstants st).
Proof.
  split.
  - intros Hnone. unfold writeStringLiteralConstants. rewrite bind_run.
    unfold get at 1. cbn beta iota. rewrite Hnone. reflexivity.
  - intros Hsome.
    exists (sort (elements (stringLiteralConstants st))).
    split; [|apply sort_elements].
    unfold writeStringLiteralConstants. rewrite bind_run.
    unfold get at 1. cbn beta iota.
    destruct (size (stringLiteralConstants st) =? 0)%nat eqn:Hsize.
    { apply Nat.eqb_eq, size_empty_iff, leibniz_equiv in Hsize. contradiction. }
    reflexivity.
Qed.

(** X15. [writeSerializationAdapters] does nothing when no discriminated
    union is on record. Otherwise it reads the symbols on record in
    ascending order of their UTF-16 code units and raises at the first one
    the symbol table does not know; when it knows them all, it returns after
    it has written one file, the file of the adapters, whose document lists
    the display names of the symbols on record, one for each symbol, in that
    order of the symbols. *)
Theorem writeSerializationAdapters_file (st : Codegen) :
  (discriminatedUnions st = ∅ ->
   writeSerializationAdapters env st = (inr tt, st))
  /\ (discriminatedUnions st <> ∅ ->
      exists recorded,
        ascending recorded = true /\
        NoDup recorded /\
        (forall symbol,
           symbol ∈ recorded <-> symbol ∈ dom (discriminatedUnions st)) /\
        (forall infos,
           Forall2 (fun symbol info => symbols (symtab env) !! symbol = Some info)
             recorded infos ->
           writeSerializationAdapters env st =
           (inr tt,
            set_files
              (fun fs => fs ++ [(adaptersFile env,
                                 [SerializationAdapter
                                    (map scip.display_name infos)])])
              (set_printer
                 (fun _ => [SerializationAdapter (map scip.display_name infos)])
                 st))) /\
        (forall known unknown rest,
           recorded = known ++ unknown :: rest ->
           Forall (fun symbol => is_Some (symbols (symtab env) !! symbol)) known ->
           symbols (symtab env) !! unknown = None ->
           writeSerializationAdapters env st =
           (inl (Lookup unknown), set_printer (fun _ => []) st))).
Proof.
  split.
  - intros Hnone. unfold writeSerializationAdapters. rewrite bind_run.
    unfold get at 1. cbn beta iota. rewrite Hnone. reflexivity.
  - intros Hsome.
    set (recorded := sort (elements (dom (discriminatedUnions st)))).
    exists recorded.
    destruct (sort_elements (dom (discriminatedUnions st)))
      as (Hascending & Hnodup & Hall).
    split; [exact Hascending|]. split; [exact Hnodup|]. split; [exact Hall|].
    assert (Hrun : writeSerializationAdapters env st =
              bind (for_of recorded
                      (fun names symbol =>
                         let* info := lift (symtab_info (symtab env) symbol) in
                         ret (names ++ [scip.display_name info])) [])
                (fun discriminatedUnions =>
                   emit (SerializationAdapter discriminatedUnions) ;;
                   writeFile (adaptersFile env))
                (set_printer (fun _ => []) st)).
    { unfold writeSerializationAdapters. rewrite bind_run.
      unfold get at 1. cbn beta iota.
      destruct (size (discriminatedUnions st) =? 0)%nat eqn:Hsize.
      { apply Nat.eqb_eq, map_size_empty_iff in Hsize. contradiction. }
      reflexivity. }
    rewrite Hrun. clear Hrun. rewrite bind_run.
    assert (Hloop : forall symbols0 infos names st0,
              Forall2 (fun symbol info =>
                         symbols (symtab env) !! symbol = Some info)
                symbols0 infos ->
              for_of symbols0
                (fun names symbol =>
                   let* info := lift (symtab_info (symtab env) symbol) in
                   ret (names ++ [scip.display_name info])) names st0 =
              (inr (names ++ map scip.display_name infos), st0)).
    { clear. intros symbols0 infos names st0 Hknown. revert names.
      induction Hknown as [|symbol info symbols0 infos Hinfo _ IH]; intros names.
      - cbn [for_of map]. rewrite app_nil_r. reflexivity.
      - cbn [for_of]. rewrite bind_run. rewrite bind_run.
        unfold lift at 1, symtab_info. rewrite Hinfo. unfold ret at 1.
        cbn beta iota. rewrite IH, <- app_assoc. reflexivity. }
    split.
    + intros infos Hknown. rewrite (Hloop _ _ _ _ Hknown). reflexivity.
    + intros known unknown rest Hsplit Hknown Hunknown.
      rewrite Hsplit, for_of_app, bind_run.
      assert (Hinfos : exists infos,
                Forall2 (fun symbol info =>
                           symbols (symtab env) !! symbol = Some info)
                  known infos).
      { clear -Hknown. induction Hknown as [|symbol known [info Hinfo] _ [infos IH]].
        - exists []. constructor.
        - exists (info :: infos). constructor; assumption. }
      destruct Hinfos as (infos & Hinfos).
      rewrite (Hloop _ _ _ _ Hinfos).
      cbn [for_of]. rewrite bind_run. rewrite bind_run.
      unfold lift at 1, symtab_info. rewrite Hunknown. reflexivity.
Qed.

End Summary_files.

(** ** What makes [run] fail *)

Section Failures.

Variable env : Env.

Local Abbreviation h := (helpers env).

(** X16. [queueClassLikeType] writes nothing: whatever the type, and
    whether it returns or raises, it leaves the open document, the files
    written, the deferred error reports, the symbols marked as generated
    and the log of [writeType] as they were. *)
Theorem queueClassLikeType_writes_nothing (type : scip.Type_)
  (m : scip.SymbolInformation) (k : Role) (st : Codegen) :
  let st' := snd (queueClassLikeType env type m k st) in
  printer st' = printer st /\
  files st' = files st /\
  microtasks st' = microtasks st /\
  generatedSymbols st' = generatedSymbols st /\
  writeTypeCalls st' = writeTypeCalls st.
Proof.
  intros st'.
  pose proof (queueClassLikeType_untouched env type m k st) as Hview.
  fold st' in Hview. unfold same_view, writer_view in Hview.
  injection Hview as -> -> -> -> ->. repeat split.
Qed.

(** X17. The promise of [run] is rejected only in three places: in the
    first call of [writeProtocolInterface], in the second one, or in
    [writeSerializationAdapters], with the lookup of a symbol of a
    discriminated union on record that the symbol table does not know.
    With a formatter, an emitter and a file system that do not fail,
    nothing that happens while the types of the queue are written makes
    [run] fail. *)
Theorem run_raises (fuel : nat) (st : Codegen) (e : Exn) :
  fst (run env fuel st) = inl e ->
  let st1 := snd (writeNullAlias env (set_files (fun _ => []) st)) in
  let server :=
    writeProtocolInterface env "CodyAgentServer"
      (client_requests (protocolSymbols env))
      (client_notifications (protocolSymbols env)) st1 in
  let client :=
    writeProtocolInterface env "CodyAgentClient"
      (server_requests (protocolSymbols env))
      (server_notifications (protocolSymbols env)) (snd server) in
  fst server = inl e
  \/ (fst server = inr tt /\ fst client = inl e)
  \/ (fst server = inr tt /\ fst client = inr tt /\
      exists symbol,
        e = Lookup symbol /\
        symbols (symtab env) !! symbol = None /\
        symbol ∈ dom (discriminatedUnions (snd (run env fuel st)))).
Proof.
  intros Hrun st1 server client. subst server client st1.
  destruct (run env fuel st) as [r st'] eqn:Houtcome.
  cbn [fst snd] in Hrun |- *. subst r.
  unfold run in Houtcome. rewrite bind_run in Houtcome.
  unfold resetOutputPath at 1, modify at 1 in Houtcome.
  cbn beta iota in Houtcome. rewrite bind_run in Houtcome.
  assert (Hnull : exists st1,
            writeNullAlias env (set_files (fun _ => []) st) = (inr tt, st1)).
  { eexists. reflexivity. }
  destruct Hnull as (st1 & Hnull). rewrite Hnull in Houtcome |- *.
  cbn [snd]. rewrite bind_run in Houtcome.
  destruct (writeProtocolInterface env "CodyAgentServer" _ _ st1)
    as [[e1|[]] st2].
  { injection Houtcome as -> _. left. reflexivity. }
  right. cbn [fst snd]. rewrite bind_run in Houtcome.
  destruct (writeProtocolInterface env "CodyAgentClient" _ _ st2)
    as [[e2|[]] st3].
  { injection Houtcome as -> _. left. split; reflexivity. }
  right. split; [reflexivity|]. split; [reflexivity|].
  rewrite bind_run in Houtcome.
  destruct (drain_returns env fuel st3) as (emptied & st4 & Hdrain).
  rewrite Hdrain in Houtcome.
  destruct emptied; [|discriminate Houtcome].
  rewrite bind_run in Houtcome.
  destruct (writeSerializationAdapters env st4) as [[e5|[]] st5] eqn:Hadapters.
  - injection Houtcome as -> <-.
    unfold writeSerializationAdapters in Hadapters.
    rewrite bind_run in Hadapters. unfold get at 1 in Hadapters.
    cbn beta iota in Hadapters.
    destruct (size (discriminatedUnions st4) =? 0)%nat; [discriminate|].
    rewrite bind_run in Hadapters.
    unfold startDocument at 1, modify at 1 in Hadapters.
    cbn beta iota in Hadapters. rewrite bind_run in Hadapters.
    match type of Hadapters with
    | context [for_of ?xs ?body [] ?s] =>
        pose proof (respects_for_of (R := same_view discriminatedUnions)
                      xs body []) as Hsame;
        destruct (for_of xs body [] s) as [[e6|names] st6] eqn:Hloop
    end.
    + injection Hadapters as -> ->.
      specialize (Hsame ltac:(intros; cbn beta; respects_auto)
                         (set_printer (fun _ => []) st4)).
      rewrite Hloop in Hsame. unfold same_view in Hsame. cbn [snd] in Hsame.
      cbn [discriminatedUnions set_printer] in Hsame.
      apply for_of_raises in Hloop as (symbol & names & st7 & Hin & Hstep).
      rewrite bind_run in Hstep. unfold lift at 1, symtab_info in Hstep.
      destruct (symbols (symtab env) !! symbol) eqn:Hsymbol;
        [discriminate Hstep|].
      injection Hstep as <- _.
      exists symbol. split; [reflexivity|]. split; [exact Hsymbol|].
      rewrite Hsame.
      apply elem_of_elements. rewrite <- (sort_Permutation (elements _)).
      apply list_elem_of_In. exact Hin.
    + unfold emit, writeFile, modify, bind in Hadapters. discriminate Hadapters.
  - rewrite bind_run in Houtcome.
    assert (Hconstants : exists st6,
              writeStringLiteralConstants env st5 = (inr tt, st6)).
    { unfold writeStringLiteralConstants. rewrite bind_run.
      unfold get at 1. cbn beta iota.
      destruct (size _ =? 0)%nat; eexists; reflexivity. }
    destruct Hconstants as (st6 & Hconstants). rewrite Hconstants in Houtcome.
    discriminate Houtcome.
Qed.

End Failures.

(** ** The exceptions [writeDataClass] catches *)

Section Catch.

Variable env : Env.

(** X18. [writeDataClass] returns normally whatever happens in
    [writeDataClassUnsafe], and writes no file. When
    [writeDataClassUnsafe] returns, exactly one data class was added to the
    document and no error report is deferred; when it raises, nothing was
    added to the document and exactly one report is deferred, the Error
    against the symbol of the information that quotes the exception. *)
Theorem writeDataClass_catches (name : string) (info : scip.SymbolInformation)
  (params : DataClassParams) (st : Codegen) :
  exists st',
    writeDataClass env name info params st = (inr tt, st') /\
    files st' = files st /\
    match fst (writeDataClassUnsafe env name info params st) with
    | inr _ =>
        (exists fields enums,
           printer st' =
           printer st ++ [DataClass params name info fields enums]) /\
        microtasks st' = microtasks st
    | inl e =>
        printer st' = printer st /\
        microtasks st' = microtasks st ++ [failedToHandleClass info e]
    end.
Proof.
  unfold writeDataClass, try_catch.
  pose proof (writeDataClassUnsafe_outcome env name info params st) as Hout.
  destruct (writeDataClassUnsafe env name info params st) as [[e|[]] st1];
    cbn [fst]; unfold writer_view in Hout.
  - injection Hout as Hprinter Hmicrotasks Hfiles _ _.
    eexists. split; [reflexivity|].
    cbn [files printer microtasks set_microtasks].
    rewrite Hprinter, Hmicrotasks, Hfiles. repeat split.
  - destruct Hout as (fields & enums & Hout).
    injection Hout as Hprinter Hmicrotasks Hfiles _ _.
    exists st1. split; [reflexivity|]. split; [exact Hfiles|].
    split; [exists fields, enums; exact Hprinter|exact Hmicrotasks].
Qed.

End Catch.

(** ** The symbols the loop marks as generated *)

Section Marks.

Variable env : Env.

(** X19. The symbols the loop of [run] marks as generated are those it
    calls [writeType] for: the calls it adds to the log are for different
    symbols, none of which was marked before the loop, and after the loop
    the symbols marked are those marked before and those of the new
    calls. *)
Theorem drain_marks_written (fuel : nat) (st : Codegen) :
  let st' := snd (drain env fuel st) in
  exists written,
    writeTypeCalls st' = writeTypeCalls st ++ written /\
    NoDup written /\
    (forall symbol, symbol ∈ written -> symbol ∉ generatedSymbols st) /\
    generatedSymbols st' = generatedSymbols st ∪ list_to_set written.
Proof.
  intros st'. subst st'.
  destruct (drain env fuel st) as [r st'] eqn:Hrun. cbn [snd].
  revert st r st' Hrun. induction fuel as [|fuel IH]; intros st r st' Hrun.
  - cbn [drain] in Hrun. rewrite bind_run in Hrun. unfold get at 1 in Hrun.
    cbn beta iota in Hrun.
    exists []. rewrite app_nil_r. cbn [list_to_set].
    rewrite (right_id_L ∅ (∪)).
    destruct (pop (queue st)) as [[info rest]|]; injection Hrun as _ <-;
      (split; [reflexivity|]); (split; [constructor|]);
      (split; [intros symbol Hin; inversion Hin|reflexivity]).
  - cbn [drain] in Hrun. rewrite bind_run in Hrun. unfold get at 1 in Hrun.
    cbn beta iota in Hrun.
    destruct (pop (queue st)) as [[info rest]|].
    2:{ injection Hrun as _ <-. exists []. rewrite app_nil_r.
        cbn [list_to_set]. rewrite (right_id_L ∅ (∪)).
        split; [reflexivity|]. split; [constructor|].
        split; [intros symbol Hin; inversion Hin|reflexivity]. }
    rewrite bind_run in Hrun. unfold modify at 1 in Hrun.
    cbn beta iota in Hrun. rewrite bind_run in Hrun.
    set (st1 := set_queue (fun _ => rest) st) in Hrun.
    destruct (bool_decide (scip.symbol info ∈ generatedSymbols st)) eqn:Hdone.
    + unfold ret at 1 in Hrun. cbn beta iota in Hrun.
      apply (IH st1 r st' Hrun).
    + apply bool_decide_eq_false in Hdone. rewrite bind_run in Hrun.
      destruct (writeType_effect env info st1)
        as (st2 & Hwrite & Hgenerated & Hcalls & _).
      rewrite Hwrite in Hrun. unfold modify at 1 in Hrun.
      cbn beta iota in Hrun.
      set (st3 := set_generatedSymbols (fun g => {[scip.symbol info]} ∪ g) st2)
        in Hrun.
      destruct (IH st3 r st' Hrun)
        as (written & Hwritten & Hnodup & Hfresh & Hmarked).
      subst st3 st1.
      cbn [writeTypeCalls generatedSymbols set_generatedSymbols set_queue]
        in Hwritten, Hfresh, Hmarked, Hgenerated, Hcalls.
      exists (scip.symbol info :: written).
      rewrite Hwritten, Hcalls, <- app_assoc. split; [reflexivity|].
      split.
      { constructor; [|exact Hnodup]. intros Hin.
        apply (Hfresh _ Hin). rewrite Hgenerated.
        apply elem_of_union. left. apply elem_of_singleton. reflexivity. }
      split.
      { intros symbol Hin. apply elem_of_cons in Hin as [->|Hin];
          [exact Hdone|].
        intros Hold. apply (Hfresh _ Hin). rewrite Hgenerated.
        apply elem_of_union. right. exact Hold. }
      rewrite Hmarked, Hgenerated. cbn [list_to_set].
      rewrite (comm_L (∪) {[scip.symbol info]} (generatedSymbols st)).
      rewrite (assoc_L (∪)). reflexivity.
Qed.

End Marks.

(** ** The order of the loop *)

Section Order.

Variable env : Env.

(** X20. The loop of [run] takes the information pushed last: when the
    last information of the queue is not marked as generated, the next call
    of [writeType] is for its symbol, whatever else is in the queue. *)
Theorem drain_last_pushed_first (fuel : nat) (st : Codegen)
  (rest : list scip.SymbolInformation) (info : scip.SymbolInformation) :
  queue st = rest ++ [info] ->
  scip.symbol info ∉ generatedSymbols st ->
  (writeTypeCalls st ++ [scip.symbol info])
    `prefix_of` writeTypeCalls (snd (drain env (S fuel) st)).
Proof.
  intros Hqueue Hnew.
  destruct (drain env (S fuel) st) as [r st'] eqn:Hrun. cbn [snd].
  cbn [drain] in Hrun. rewrite bind_run in Hrun. unfold get at 1 in Hrun.
  cbn beta iota in Hrun. rewrite Hqueue, pop_push in Hrun.
  rewrite bind_run in Hrun. unfold modify at 1 in Hrun. cbn beta iota in Hrun.
  rewrite bind_run in Hrun.
  rewrite (bool_decide_eq_false_2 _ Hnew) in Hrun.
  rewrite bind_run in Hrun.
  destruct (writeType_effect env info (set_queue (fun _ => rest) st))
    as (st2 & Hwrite & _ & Hcalls & _).
  rewrite Hwrite in Hrun. unfold modify at 1 in Hrun. cbn beta iota in Hrun.
  pose proof (drain_accumulates env fuel
                (set_generatedSymbols (fun g => {[scip.symbol info]} ∪ g) st2))
    as (_ & _ & _ & _ & _ & Hprefix).
  rewrite Hrun in Hprefix. cbn [snd writeTypeCalls set_generatedSymbols] in Hprefix.
  rewrite Hcalls in Hprefix. exact Hprefix.
Qed.

End Order.

(** ** The exceptions of the traversal *)

Section Raises.

Context {P : Exn -> Prop}.

Lemma raises_only_ret {A} (a : A) : raises_only P (ret a).
Proof. intros st e st' Hrun. discriminate Hrun. Qed.

Lemma raises_only_modify (g : Codegen -> Codegen) : raises_only P (modify g).
Proof. intros st e st' Hrun. discriminate Hrun. Qed.

Lemma raises_only_raise {A} (e : Exn) : P e -> raises_only P (raise e : M A).
Proof. intros He st e' st' Hrun. injection Hrun as <- _. exact He. Qed.

Lemma raises_only_lift {A} (r : Res A) :
  (forall e, r = inl e -> P e) -> raises_only P (lift r).
Proof.
  intros Hr st e st' Hrun. unfold lift in Hrun. injection Hrun as Hrun _.
  apply Hr. exact Hrun.
Qed.

Lemma raises_only_bind {A B} (m : M A) (k : A -> M B) :
  raises_only P m -> (forall a, raises_only P (k a)) -> raises_only P (bind m k).
Proof.
  intros Hm Hk st e st' Hrun. rewrite bind_run in Hrun.
  destruct (m st) as [[e0|a] st0] eqn:Hm0.
  - injection Hrun as <- _. apply (Hm _ _ _ Hm0).
  - apply (Hk a _ _ _ Hrun).
Qed.

End Raises.

Section Traversal_errors.

Variable env : Env.

Local Abbreviation f := (formatter (emitter env)).
Local Abbreviation h := (helpers env).

Lemma isTraversalError_quiet (m : scip.SymbolInformation) (e : Exn) :
  isThrown e = false -> isTraversalError env m e.
Proof. destruct e; [discriminate|exact (fun _ => I)..]. Qed.

Lemma queueClassLikeInfo_raises (m info : scip.SymbolInformation) :
  raises_only (isTraversalError env m) (queueClassLikeInfo env info).
Proof.
  unfold queueClassLikeInfo.
  destruct (scip.signature info) as [signature|]; [|apply raises_only_ret].
  destruct (scip.has_class_signature signature); [apply raises_only_modify|].
  destruct (isStringTypeInfo h info); [apply raises_only_modify|].
  apply raises_only_bind.
  { destruct (isNestedDiscriminatedUnion env); [|apply raises_only_ret].
    apply raises_only_lift. intros e He. apply isTraversalError_quiet.
    apply (quiet_discriminatedUnion env info e He). }
  intros [found|].
  { apply raises_only_bind; [apply raises_only_modify|intros _].
    apply raises_only_modify. }
  destruct signature;
    try (apply raises_only_raise; right; exists info; reflexivity).
  intros st e st' Hrun. apply isTraversalError_quiet.
  apply (queueClassLikeInfo_alias_quiet env info _ _ _ _ Hrun).
Qed.

(** X21. The only exceptions of [throw] statements that leave
    [queueClassLikeType] are the four of the traversal: the Errors
    [unsupported union type], for the method at hand, and [unsupported
    type], and the TypeErrors [record must have 2 type arguments] and
    [unknown info]. *)
Theorem queueClassLikeType_raises (type : scip.Type_)
  (m : scip.SymbolInformation) (k : Role) (st st' : Codegen) (e : Exn) :
  queueClassLikeType env type m k st = (inl e, st') ->
  isTraversalError env m e.
Proof.
  revert st e st'. change (raises_only (isTraversalError env m)
                             (queueClassLikeType env type m k)).
  induction type as [symbol args IH|ls|ts IH|ts IH|c|ps r IH|]
    using scip.Type_nested_ind.
  - cbn [queueClassLikeType]. destruct (String.eqb symbol _).
    { destruct IH; [apply raises_only_raise; exact I|assumption]. }
    destruct (isRecord f symbol).
    { destruct IH as [|t0 ? H0 [|t1 ? H1 [|]]];
        try (apply raises_only_raise; left; eexists; reflexivity).
      apply raises_only_bind; [exact H0|intros _; exact H1]. }
    destruct (from_option truthy false _); [apply raises_only_ret|].
    apply raises_only_bind; [|intros info; apply queueClassLikeInfo_raises].
    apply raises_only_lift. intros e He. apply isTraversalError_quiet.
    apply (quiet_symtab_info _ _ _ He).
  - apply queueClassLikeInfo_raises.
  - apply queueClassLikeInfo_raises.
  - rewrite queueClassLikeType_union.
    assert (Hnth : forall i,
              raises_only (isTraversalError env m)
                (queueClassLikeType_nth env (nonNullableTypes env ts) i m k)).
    { intros i. unfold queueClassLikeType_nth.
      destruct (nth_error _ i) as [t|] eqn:Hi;
        [|apply raises_only_raise; exact I].
      apply nth_error_In, filter_In in Hi as [Hin _].
      rewrite List.Forall_forall in IH. apply IH. exact Hin. }
    destruct (forallb scip.has_constant_type ts); [apply raises_only_ret|].
    destruct (forallb _ _); [apply raises_only_ret|].
    destruct (_ =? 1)%nat; [apply Hnth|].
    destruct (exceptionIndex env m).
    + apply raises_only_bind; [apply raises_only_modify|intros _; apply Hnth].
    + apply raises_only_raise. left. reflexivity.
  - apply raises_only_ret.
  - apply raises_only_raise. right. eexists. reflexivity.
  - apply raises_only_raise. right. eexists. reflexivity.
Qed.

End Traversal_errors.

(** ** The constants of the enums of a data class *)

Lemma for_of_invariant_state {A S} (I : S -> Codegen -> Prop) (xs : list A)
  (body : S -> A -> M S) (acc acc' : S) (st st' : Codegen) :
  (forall acc x st acc' st',
     In x xs -> body acc x st = (inr acc', st') -> I acc st -> I acc' st') ->
  for_of xs body acc st = (inr acc', st') -> I acc st -> I acc' st'.
Proof.
  revert acc st. induction xs as [|x xs IH]; intros acc st Hbody Hrun Hacc;
    simpl in Hrun.
  - injection Hrun as <- <-. exact Hacc.
  - rewrite bind_run in Hrun.
    destruct (body acc x st) as [[e0|acc1] st1] eqn:Hx; [discriminate|].
    apply (IH acc1 st1).
    + intros acc0 y st0 acc0' st0' Hin. apply Hbody. right. exact Hin.
    + exact Hrun.
    + apply (Hbody acc x st acc1 st1); [left; reflexivity|exact Hx|exact Hacc].
Qed.

Section Enum_constants.

Variable env : Env.

Local Abbreviation f := (formatter (emitter env)).
Local Abbreviation h := (helpers env).

Lemma writeDataClassUnsafe_member_grows (acc : DataClassLoop)
  (memberSymbol : string) :
  respects (grows env) (writeDataClassUnsafe_member env acc memberSymbol).
Proof.
  unfold writeDataClassUnsafe_member. grows_auto.
  unfold writeDataClassUnsafe_field. grows_step; [grows_auto|].
  destruct a0; grows_auto.
  apply queueClassLikeType_grows.
Qed.

(** The enum of a member, when the loop of [writeDataClassUnsafe] makes
    one: its constants were added to the string constants. *)
Lemma writeDataClassUnsafe_field_enum (acc acc' : DataClassLoop)
  (memberSymbol : string) (member : scip.SymbolInformation)
  (st st' : Codegen) :
  writeDataClassUnsafe_field env acc memberSymbol member st = (inr acc', st') ->
  enums acc' = enums acc
  \/ (enums acc' =
        enums acc ++
        [{| enum_name := formatEnumType f (scip.display_name member);
            enum_members :=
              enumMembers env (stringConstantsFromInfo h member) |}] /\
      forall constant,
        In constant (stringConstantsFromInfo h member) ->
        constant ∈ stringLiteralConstants st').
Proof.
  unfold writeDataClassUnsafe_field. intros Hrun.
  destruct (scip.signature member) as [[| | |[tpe|]]|];
    run_cases Hrun.
  all: injection Hrun as <- <-.
  all: first
         [ left; reflexivity
         | right; split; [reflexivity|];
           intros constant Hin; cbn [stringLiteralConstants set_stringLiteralConstants];
           apply elem_of_union; right; apply elem_of_list_to_set;
           apply list_elem_of_In; exact Hin ].
Qed.

(** X22. The constants of every enum the loop of [writeDataClassUnsafe]
    collects are among the string constants when the loop ends: what a data
    class uses of constants is in the file of the constants. *)
Theorem writeDataClassUnsafe_enum_constants (memberSymbols : list string)
  (st st' : Codegen) (loop : DataClassLoop) :
  writeDataClassUnsafe_members env memberSymbols st = (inr loop, st') ->
  forall enum member,
    In enum (enums loop) ->
    In member (enum_members enum) ->
    serializedName member ∈ stringLiteralConstants st'.
Proof.
  unfold writeDataClassUnsafe_members. intros Hrun.
  refine (for_of_invariant_state
            (fun acc st =>
               forall enum member,
                 In enum (enums acc) -> In member (enum_members enum) ->
                 serializedName member ∈ stringLiteralConstants st)
            _ _ _ _ _ _ _ Hrun _).
  - clear Hrun. intros acc memberSymbol st0 acc' st0' _ Hstep Hacc.
    pose proof (writeDataClassUnsafe_member_grows acc memberSymbol st0)
      as (_ & _ & _ & Hconstants & _).
    rewrite Hstep in Hconstants. cbn [snd] in Hconstants.
    assert (Hold : forall enum member,
              In enum (enums acc) -> In member (enum_members enum) ->
              serializedName member ∈ stringLiteralConstants st0').
    { intros enum member Henum Hmember.
      apply Hconstants, (Hacc enum member Henum Hmember). }
    unfold writeDataClassUnsafe_member in Hstep.
    destruct (isIgnoredProperty env memberSymbol).
    { injection Hstep as <- _. exact Hold. }
    destruct (endsWith memberSymbol "().").
    { injection Hstep as <- _. exact Hold. }
    rewrite bind_run in Hstep. unfold lift at 1, symtab_info in Hstep.
    destruct (symbols (symtab env) !! memberSymbol) as [info|];
      [|discriminate].
    destruct (bool_decide _).
    { injection Hstep as <- _. exact Hold. }
    apply writeDataClassUnsafe_field_enum in Hstep as [He|[He Hnew]];
      cbn [enums] in He; rewrite He; [exact Hold|].
    intros enum member Henum Hmember.
    apply in_app_or in Henum as [Henum|[<-|[]]];
      [apply (Hold enum member Henum Hmember)|].
    cbn [enum_members] in Hmember. unfold enumMembers in Hmember.
    apply in_map_iff in Hmember as (constant & <- & Hconstant).
    cbn [serializedName]. apply Hnew. exact Hconstant.
  - intros enum member [].
Qed.

End Enum_constants.

(** ** The unions on record *)

#[local] Instance records_preorder (env : Env) : PreOrder (records env).
Proof.
  split.
  - intros st Hst. exact Hst.
  - intros st1 st2 st3 H12 H23 Hst. apply H23, H12, Hst.
Qed.

Ltac records_step :=
  lazymatch goal with
  | |- respects _ (ret _) => apply respects_ret
  | |- respects _ (raise _) => apply respects_raise
  | |- respects _ (lift _) => apply respects_lift
  | |- respects _ get => apply respects_get
  | |- respects (records _) (modify _) =>
      apply respects_modify; intros ? Hrecorded; exact Hrecorded
  | |- respects _ (report _) => unfold report
  | |- respects _ (warn _ _) => unfold warn
  | |- respects _ (error _ _) => unfold error
  | |- respects _ (emit _) => unfold emit
  | |- respects _ (defer _) => unfold defer
  | |- respects _ (queue_push _) => unfold queue_push
  | |- respects _ startDocument => unfold startDocument
  | |- respects _ (writeFile _) => unfold writeFile
  | |- respects _ resetOutputPath => unfold resetOutputPath
  | |- respects _ run_microtasks => unfold run_microtasks
  | |- respects _ (bind _ _) => apply respects_bind; [|intros ?]
  | |- respects _ (try_catch _ _) => apply respects_try_catch; [|intros ?]
  | |- respects _ (not_awaited _) => apply respects_not_awaited
  | |- respects _ (for_of _ _ _) => apply respects_for_of; intros ? ? _
  | |- respects _ (if ?b then _ else _) => destruct b
  | |- respects _ (match ?o with Some _ => _ | None => _ end) => destruct o
  end.

Ltac records_auto := repeat records_step.

Section Records.

Variable env : Env.

Local Abbreviation f := (formatter (emitter env)).
Local Abbreviation h := (helpers env).

(** The one place where a union is put on record. *)
Lemma queueClassLikeInfo_records (info : scip.SymbolInformation) :
  respects (records env) (queueClassLikeInfo env info).
Proof.
  unfold queueClassLikeInfo.
  destruct (scip.signature info) as [signature|]; [|records_auto].
  destruct (scip.has_class_signature signature); [records_auto|].
  destruct (isStringTypeInfo h info); [records_auto|].
  assert (Halias : respects (records env)
            (match signature with
             | scip.type_signature lower_bound =>
                 queueClassLikeInfo_alias env info lower_bound
             | _ =>
                 raise (Thrown TypeError
                          ("unknown info: " +:+ stringify h info))
             end)).
  { destruct signature; try solve [records_auto].
    unfold queueClassLikeInfo_alias, queueClassLikeInfo_declarations.
    records_auto. }
  intros st. rewrite bind_run.
  destruct (isNestedDiscriminatedUnion env); [|apply Halias].
  unfold lift.
  destruct (discriminatedUnion env info) as [e|[found|]] eqn:Hfound.
  - intros Hrecorded. exact Hrecorded.
  - intros Hrecorded symbol du. unfold bind, modify, queue_push. simpl.
    destruct (decide (symbol = scip.symbol info)) as [->|Hother].
    + rewrite lookup_insert_eq. intros Hdu. injection Hdu as <-.
      exists info. split; [reflexivity|exact Hfound].
    + rewrite lookup_insert_ne by congruence. apply Hrecorded.
  - apply Halias.
Qed.

Lemma queueClassLikeType_records (type : scip.Type_)
  (m : scip.SymbolInformation) (k : Role) :
  respects (records env) (queueClassLikeType env type m k).
Proof.
  induction type as [symbol args IH|ls|ts IH|ts IH|c|ps r IH|]
    using scip.Type_nested_ind.
  - simpl. destruct (String.eqb symbol _).
    { destruct IH; [records_auto | assumption]. }
    destruct (isRecord f symbol).
    { destruct IH as [|t0 ? H0 [|t1 ? H1 [|]]]; records_auto; assumption. }
    destruct (from_option truthy false _); records_auto.
    apply queueClassLikeInfo_records.
  - apply queueClassLikeInfo_records.
  - apply queueClassLikeInfo_records.
  - rewrite queueClassLikeType_union.
    assert (Hnth : forall i,
              respects (records env)
                (queueClassLikeType_nth env (nonNullableTypes env ts) i m k)).
    { intros i. unfold queueClassLikeType_nth.
      destruct (nth_error _ i) as [t|] eqn:Hi; [|records_auto].
      apply nth_error_In, filter_In in Hi as [Hin _].
      rewrite List.Forall_forall in IH. apply IH. exact Hin. }
    records_auto; apply Hnth.
  - simpl. records_auto.
  - simpl. records_auto.
  - simpl. records_auto.
Qed.

Lemma writeDataClassUnsafe_records (name : string)
  (info : scip.SymbolInformation) (params : DataClassParams) :
  respects (records env) (writeDataClassUnsafe env name info params).
Proof.
  unfold writeDataClassUnsafe, writeDataClassUnsafe_members.
  apply respects_bind.
  { destruct (scip.kind info); records_auto. }
  intros _. apply respects_bind; [|intros ?; records_auto].
  apply respects_for_of. intros acc memberSymbol _.
  unfold writeDataClassUnsafe_member. records_auto.
  unfold writeDataClassUnsafe_field. records_step; [records_auto|].
  destruct a0; records_auto.
  apply queueClassLikeType_records.
Qed.

Lemma writeDataClass_records (name : string)
  (info : scip.SymbolInformation) (params : DataClassParams) :
  respects (records env) (writeDataClass env name info params).
Proof.
  unfold writeDataClass. records_auto. apply writeDataClassUnsafe_records.
Qed.

Lemma writeSealedClass_records (name : string)
  (info : scip.SymbolInformation) (du : DiscriminatedUnion) :
  respects (records env) (writeSealedClass env name info du).
Proof.
  unfold writeSealedClass, writeSealedClass_member, writeSealedClass_inner.
  records_auto. apply writeDataClass_records.
Qed.

Lemma writeType_records (info : scip.SymbolInformation) :
  respects (records env) (writeType env info).
Proof.
  unfold writeType, aliasType, writeType_body.
  records_auto;
    first [apply writeSealedClass_records | apply writeDataClass_records].
Qed.

Lemma writeProtocolInterface_records
  (name requestSymbol notificationSymbol : string) :
  respects (records env)
    (writeProtocolInterface env name requestSymbol notificationSymbol).
Proof.
  unfold writeProtocolInterface.
  records_auto; apply queueClassLikeType_records.
Qed.

Lemma drain_records (fuel : nat) : respects (records env) (drain env fuel).
Proof.
  induction fuel as [|fuel IH]; simpl.
  - records_step; [records_auto|]. destruct (pop _) as [[info rest]|];
      records_auto.
  - records_step; [records_auto|]. destruct (pop _) as [[info rest]|];
      records_auto; first [exact IH | apply writeType_records].
Qed.

(** X23. A union is put on record by [queueClassLikeInfo] only, as the
    value [discriminatedUnion] returned for the information at hand, and
    nothing is ever taken off the record or changed in it. So at every
    point of [run] every union on record is one that [discriminatedUnion]
    returned for an information of the symbol it is recorded under:
    [queueClassLikeInfo], [queueClassLikeType], [writeType] and [run] keep
    the record such, and the record of a new engine is empty. Hence the
    union that [writeType] passes to [writeSealedClass], the one on record
    for the symbol of the information, is one that [discriminatedUnion]
    returned for an information of that symbol. *)
Theorem run_records_unions (fuel : nat) :
  recorded env new_Codegen
  /\ recorded env (snd (run env fuel new_Codegen))
  /\ (forall info, respects (records env) (queueClassLikeInfo env info))
  /\ (forall type m k, respects (records env) (queueClassLikeType env type m k))
  /\ (forall info, respects (records env) (writeType env info))
  /\ respects (records env) (run env fuel)
  /\ (forall name info st,
        recorded env st ->
        match discriminatedUnions st !! scip.symbol info with
        | Some du =>
            writeType_body env name info None st =
              not_awaited (writeSealedClass env name info du) st /\
            exists origin,
              scip.symbol origin = scip.symbol info /\
              discriminatedUnion env origin = inr (Some du)
        | None =>
            writeType_body env name info None st =
              not_awaited (writeDataClass env name info no_params) st
        end).
Proof.
  assert (Hnew : recorded env new_Codegen).
  { intros symbol du Hlookup. discriminate Hlookup. }
  assert (Hrun : respects (records env) (run env fuel)).
  { unfold run, writeNullAlias, writeSerializationAdapters,
      writeStringLiteralConstants.
    records_auto;
      first [apply writeProtocolInterface_records | apply drain_records]. }
  split; [exact Hnew|]. split; [apply Hrun; exact Hnew|].
  split; [apply queueClassLikeInfo_records|].
  split; [apply queueClassLikeType_records|].
  split; [apply writeType_records|].
  split; [exact Hrun|].
  intros name info st Hrecorded.
  unfold writeType_body. rewrite bind_run. unfold get.
  destruct (discriminatedUnions st !! scip.symbol info) as [du|] eqn:Hdu;
    [|reflexivity].
  split; [reflexivity|]. apply (Hrecorded _ _ Hdu).
Qed.

End Records.

(** X23 on the requests of the fixture: after [run], the union [Outer] is
    on record, and it is the union [discriminatedUnion] returns for an
    information of that symbol. *)
Lemma run_records_unions_witness :
  let du :=
    {| du_symbol := "Outer#";
       discriminatorDisplayName := "kind";
       du_members :=
         [{| value := "a"; member_type := Fixture.A_ |};
          {| value := "b"; member_type := Fixture.B_ |};
          {| value := "c"; member_type := Fixture.C_ |}] |} in
  discriminatedUnions (snd (run Fixture.env 8 new_Codegen)) !! "Outer#" =
    Some du /\
  exists origin,
    scip.symbol origin = "Outer#" /\
    discriminatedUnion Fixture.env origin = inr (Some du).
Proof.
  intros du. split; [vm_compute; reflexivity|].
  apply (proj1 (proj2 (run_records_unions Fixture.env 8)) "Outer#" du).
  vm_compute. reflexivity.
Defined.

(** ** The properties on the sample graphs *)

(** X5 on [type Loop = Loop | string]. *)
Lemma unionTypes_circular_alias_witness :
  unionTypes Fixture.env
    (scip.union_type [Sample.ref "Loop#"; Sample.string_]) = inl StackOverflow
  /\ discriminatedUnion Fixture.env Fixture.Loop = inl StackOverflow.
Proof.
  apply (unionTypes_circular_alias Fixture.env "Loop#" Fixture.Loop
           [] [Sample.string_] []).
  - vm_compute. reflexivity.
  - reflexivity.
  - constructor.
Defined.

(** X6 on [Inner | { kind: 'c' }], where [Inner] is the alias of a union,
    and on the type [string], which is not a union. *)
Lemma unionTypes_flat_witness :
  (unionTypes Fixture.env (scip.union_type [Sample.ref "Inner#"; Fixture.C_]) =
     inr [Fixture.A_; Fixture.B_; Fixture.C_] /\
   Forall (fun t => isUnionAlias Fixture.env t = false)
     [Fixture.A_; Fixture.B_; Fixture.C_])
  /\ (scip.has_union_type Sample.string_ = false /\
      callStackDepth (helpers Fixture.env) <> 0 /\
      unionTypes Fixture.env Sample.string_ = inr []).
Proof.
  split.
  - split; [vm_compute; reflexivity|].
    apply (proj1 (unionTypes_flat Fixture.env
                    (scip.union_type [Sample.ref "Inner#"; Fixture.C_]))).
    vm_compute. reflexivity.
  - split; [reflexivity|]. split; [vm_compute; discriminate|].
    apply (proj2 (unionTypes_flat Fixture.env Sample.string_)).
    + reflexivity.
    + vm_compute. discriminate.
Defined.

(** X7 on [Outer]: three members, with [kind] as the discriminator. *)
Lemma discriminatedUnion_sound_witness :
  let du :=
    {| du_symbol := "Outer#";
       discriminatorDisplayName := "kind";
       du_members :=
         [{| value := "a"; member_type := Fixture.A_ |};
          {| value := "b"; member_type := Fixture.B_ |};
          {| value := "c"; member_type := Fixture.C_ |}] |} in
  discriminatedUnion Fixture.env Fixture.Outer = inr (Some du) /\
  exists types flattened,
    scip.signature Fixture.Outer =
      Some (scip.type_signature (Some (scip.union_type types))) /\
    unionTypes Fixture.env (scip.union_type types) = inr flattened /\
    length (du_members du) = length flattened.
Proof.
  intros du.
  assert (Hfound : discriminatedUnion Fixture.env Fixture.Outer = inr (Some du)).
  { vm_compute. reflexivity. }
  split; [exact Hfound|].
  destruct (discriminatedUnion_sound Fixture.env Fixture.Outer du Hfound)
    as (_ & types & flattened & Hsig & _ & Hflat & _ & Hlength & _).
  exists types, flattened. split; [exact Hsig|]. split; [exact Hflat|exact Hlength].
Defined.

(** X8 on [Broken], whose member [run] has a method signature. *)
Lemma writeDataClassUnsafe_raises_witness :
  exists memberSymbol,
    In memberSymbol (infoProperties Sample.base Sample.Broken) /\
    isProperty Sample.env memberSymbol = true /\
    failsAt Sample.env memberSymbol
      (Thrown TypeError "not a value signature: Broken#run.").
Proof.
  apply (writeDataClassUnsafe_raises Sample.env "Broken" Sample.Broken no_params
           new_Codegen new_Codegen).
  vm_compute. reflexivity.
Defined.

(** X9 on the member [path] of [FileInfo]. *)
Lemma writeDataClassUnsafe_fields_witness :
  exists loop st',
    writeDataClassUnsafe_members Sample.env ["FileInfo#path."] new_Codegen =
      (inr loop, st') /\
    length (members loop) = 1%nat /\
    Forall (fun field =>
              exists memberSymbol tpe,
                In memberSymbol ["FileInfo#path."] /\
                isProperty Sample.env memberSymbol = true /\
                symbols (symtab Sample.env) !! memberSymbol =
                  Some (member_info field) /\
                scip.signature (member_info field) =
                  Some (scip.value_signature (Some tpe)) /\
                scip.has_lambda_type tpe = false /\
                isIgnoredType (formatter (emitter Sample.env)) tpe = false /\
                formattedName field =
                  formatFieldName (formatter (emitter Sample.env))
                    (scip.display_name (member_info field)) /\
                member_isNullable field =
                  isNullable (formatter (emitter Sample.env)) tpe)
      (members loop).
Proof.
  eexists _, _. split; [vm_compute; reflexivity|]. split; [reflexivity|].
  refine (proj1 (writeDataClassUnsafe_fields Sample.env ["FileInfo#path."]
                   new_Codegen _ _ _)).
  vm_compute. reflexivity.
Defined.

(** X10 on the sample protocol: [chat/submitMessage] and
    [webview/postMessage] are skipped, and [exit] has no result type. *)
Lemma writeProtocolInterface_interface_witness :
  let st' :=
    snd (writeProtocolInterface Fixture.env "CodyAgentServer" "Requests#"
           "Notifications#" new_Codegen) in
  files st' =
    [("out/CodyAgentServer.kt",
      [ProtocolInterface "CodyAgentServer" [Fixture.ping] [Fixture.debug]])]
  /\ In (missingResultType Fixture.exit) (reporter st').
Proof.
  intros st'.
  destruct (writeProtocolInterface_interface Fixture.env "CodyAgentServer"
              "Requests#" "Notifications#" new_Codegen st')
    as [Hfiles Hmissing].
  { vm_compute. reflexivity. }
  split; [exact Hfiles|].
  apply Hmissing; [right; right; left; reflexivity|reflexivity|reflexivity].
Defined.

(** X13 on an alias with two properties named [path]. *)
Lemma queueClassLikeInfo_alias_class_witness :
  let merged :=
    Sample.alias "Merged#" "Merged"
      (scip.structural_type ["FileInfo#path."; "Legacy#path."; "Ok#value."]) in
  exists infos,
    queue (snd (queueClassLikeInfo Sample.env merged new_Codegen)) =
      [mergedClass merged infos] /\
    List.NoDup (map scip.display_name infos).
Proof.
  intros merged.
  destruct (queueClassLikeInfo_alias_class Sample.env merged
              (scip.structural_type ["FileInfo#path."; "Legacy#path."; "Ok#value."])
              new_Codegen
              (snd (queueClassLikeInfo Sample.env merged new_Codegen)))
    as [_ Hsome].
  - reflexivity.
  - reflexivity.
  - intros _. vm_compute. reflexivity.
  - vm_compute. reflexivity.
  - destruct Hsome as (infos & Hqueue & Hnodup & _); [discriminate|].
    exists infos. split; [exact Hqueue|exact Hnodup].
Defined.

(** X17 with a discriminated union on record for an unknown symbol. *)
Lemma run_raises_witness :
  let st :=
    set_discriminatedUnions
      (fun _ => {["Ghost#" :=
                    {| du_symbol := "Ghost#";
                       discriminatorDisplayName := "kind";
                       du_members := [] |}]})
      new_Codegen in
  fst (run Sample.env 0 st) = inl (Lookup "Ghost#") /\
  "Ghost#" ∈ dom (discriminatedUnions (snd (run Sample.env 0 st))).
Proof.
  intros st.
  assert (Hrun : fst (run Sample.env 0 st) = inl (Lookup "Ghost#")).
  { vm_compute. reflexivity. }
  split; [exact Hrun|].
  destruct (run_raises Sample.env 0 st _ Hrun)
    as [Hserver|[[_ Hclient]|(_ & _ & symbol & Hsymbol & _ & Hin)]].
  - vm_compute in Hserver. discriminate Hserver.
  - vm_compute in Hclient. discriminate Hclient.
  - injection Hsymbol as <-. exact Hin.
Defined.

(** X21 on [FileInfo | string | null]. *)
Lemma queueClassLikeType_raises_witness :
  isTraversalError Sample.env Sample.ping
    (Thrown Error "unsupported union type: Requests#ping.").
Proof.
  apply (queueClassLikeType_raises Sample.env
           (scip.union_type [Sample.ref "FileInfo#"; Sample.string_; Sample.null_])
           Sample.ping parameter new_Codegen new_Codegen).
  vm_compute. reflexivity.
Defined.

(** X20 on a queue of two informations. *)
Lemma drain_last_pushed_first_witness :
  let st := set_queue (fun _ => [Sample.Broken; Sample.FileInfo]) new_Codegen in
  ["FileInfo#"] `prefix_of` writeTypeCalls (snd (drain Sample.env 2 st)).
Proof.
  intros st.
  apply (drain_last_pushed_first Sample.env 1 st [Sample.Broken] Sample.FileInfo).
  - reflexivity.
  - vm_compute. intros Hin. inversion Hin.
Defined.

(** X22 on the member [mode], one of two string constants. *)
Lemma writeDataClassUnsafe_enum_constants_witness :
  exists loop st',
    writeDataClassUnsafe_members Fixture.env ["Settings#mode."] new_Codegen =
      (inr loop, st') /\
    length (enums loop) = 1%nat /\
    "auto" ∈ stringLiteralConstants st'.
Proof.
  eexists _, _. split; [vm_compute; reflexivity|]. split; [reflexivity|].
  change "auto"
    with (serializedName
            {| serializedName := "auto"; enum_formattedName := "auto" |}).
  eapply (writeDataClassUnsafe_enum_constants Fixture.env ["Settings#mode."]
            new_Codegen).
  - vm_compute. reflexivity.
  - left. reflexivity.
  - left. reflexivity.
Defined.
